(** * The asynchronous logging engine of [include/logger.hpp]

    A shallow embedding of [Logger], [Logger::Impl] and the background
    worker, with the properties of the engine stated over it.

    Conventions.
    - [size_t] values are [Z] with the 64-bit wrap-around written out,
      [int] values are [Z] reduced to the signed 32-bit range.
    - A [std::stringstream] is a record with its buffer, its fill character
      and its pending field width, because both manipulators used by the
      formatter act on that state.
    - The file system is a finite map from paths to the records stored in
      each file and the set of the directories that exist, together with
      the sets of paths on which the operating system refuses an
      operation.  Paths are in generic format, with [/] as separator.
    - Everything the engine does to the outside (console lines, file
      lines, flush, close, stop request, join) is appended to one event
      list, so that orderings between them can be stated.
    - The worker thread is a program counter stored in the thread handle;
      it advances by [worker_step], either interleaved with the moves of
      other threads ([step]) or alone until it exits ([loggingWorker], which
      is what [join] waits for). *)

From stdpp Require Import gmap strings list fin_maps pretty propset.
From Stdlib Require Import ZArith Lia Ascii.

Open Scope string_scope.
Open Scope list_scope.
Open Scope Z_scope.

(** ** Levels and targets *)

Inductive LogLevel := TRACE | DEBUG | INFO | WARN | ERROR | CRITICAL.

Inductive LogTarget := CONSOLE | FILE | BOTH.

(** The enumerator values of [enum class LogLevel]. *)
Definition level_value (l : LogLevel) : Z :=
  match l with
  | TRACE => 0 | DEBUG => 1 | INFO => 2 | WARN => 3 | ERROR => 4 | CRITICAL => 5
  end.

(** [a < b] on [LogLevel] compares the underlying values. *)
Definition level_lt (a b : LogLevel) : bool := level_value a <? level_value b.

Global Instance LogLevel_eq_dec : EqDecision LogLevel.
Proof. solve_decision. Defined.

Global Instance LogTarget_eq_dec : EqDecision LogTarget.
Proof. solve_decision. Defined.

Definition logLevelToString (level : LogLevel) : string :=
  match level with
  | TRACE => "TRACE"
  | DEBUG => "DEBUG"
  | INFO => "INFO"
  | WARN => "WARN"
  | ERROR => "ERROR"
  | CRITICAL => "CRITICAL"
  end.

Definition logTargetToString (target : LogTarget) : string :=
  match target with
  | CONSOLE => "CONSOLE"
  | FILE => "FILE"
  | BOTH => "BOTH"
  end.

Definition target_has_console (t : LogTarget) : bool :=
  match t with CONSOLE | BOTH => true | FILE => false end.

Definition target_has_file (t : LogTarget) : bool :=
  match t with FILE | BOTH => true | CONSOLE => false end.

(** ** Output streams

    [std::setw] sets the width of the next formatted insertion only;
    [std::setfill] changes the fill character until it is changed again.
    With the default adjustment the padding goes in front of the text. *)

Module Stream.

Record ostream := mk {
  buf : string;
  fill : ascii;
  width : nat
}.

Definition init : ostream := {| buf := ""; fill := " "%char; width := 0 |}.

Fixpoint repeat_char (n : nat) (c : ascii) : string :=
  match n with
  | O => ""
  | S n' => String c (repeat_char n' c)
  end.

(** The field produced for [s] under fill [c] and width [w]. *)
Definition pad (c : ascii) (w : nat) (s : string) : string :=
  repeat_char (w - String.length s) c +:+ s.

Definition setfill (c : ascii) (os : ostream) : ostream :=
  let 'mk b _ w := os in {| buf := b; fill := c; width := w |}.

Definition setw (w : nat) (os : ostream) : ostream :=
  let 'mk b f _ := os in {| buf := b; fill := f; width := w |}.

(** A formatted insertion: pads to the pending width, then resets it. *)
Definition put (s : string) (os : ostream) : ostream :=
  let 'mk b f w := os in {| buf := b +:+ pad f w s; fill := f; width := 0 |}.

Definition str (os : ostream) : string := buf os.

End Stream.

(** ** The clock *)

(** The broken-down local time [std::localtime] returns. *)
Record tm := mk_tm {
  tm_year : Z;   (* years since 1900 *)
  tm_mon : Z;    (* 0 .. 11 *)
  tm_mday : Z;
  tm_hour : Z;
  tm_min : Z;
  tm_sec : Z
}.

(** One reading of [system_clock::now()]: the milliseconds since the epoch
    and the local time the C library derives from it. *)
Record time_point := mk_time_point {
  since_epoch_ms : Z;
  local_time : tm
}.

(** A conversion of [strftime] that prints two digits with a leading zero. *)
Definition two_digits (n : Z) : string :=
  if n <? 10 then "0" +:+ pretty n else pretty n.

(** [std::put_time(t, "%Y-%m-%d %H:%M:%S")]. *)
Definition put_time (t : tm) : string :=
  pretty (1900 + tm_year t) +:+ "-" +:+ two_digits (tm_mon t + 1) +:+ "-" +:+
  two_digits (tm_mday t) +:+ " " +:+ two_digits (tm_hour t) +:+ ":" +:+
  two_digits (tm_min t) +:+ ":" +:+ two_digits (tm_sec t).

(** [duration_cast<milliseconds>(now.time_since_epoch()) % 1000], the
    remainder of a truncating division. *)
Definition ms_count (now : time_point) : Z := Z.rem (since_epoch_ms now) 1000.

(** ** The formatter *)

Definition formatLogMessage (now : time_point) (thread_id : string)
    (level : LogLevel) (module message : string) : string :=
  let ss := Stream.init in
  let ss := Stream.put (put_time (local_time now)) ss in
  let ss := Stream.put "." ss in
  let ss := Stream.setfill "0"%char ss in
  let ss := Stream.setw 3 ss in
  let ss := Stream.put (pretty (ms_count now)) ss in
  let ss := Stream.put " [" ss in
  let ss := Stream.put thread_id ss in
  let ss := Stream.put "]" ss in
  let ss := Stream.put " [" ss in
  let ss := Stream.setw 8 ss in
  let ss := Stream.put (logLevelToString level) ss in
  let ss := Stream.put "]" ss in
  let ss := Stream.put " [" ss in
  let ss := Stream.setw 15 ss in
  let ss := Stream.put module ss in
  let ss := Stream.put "] " ss in
  let ss := Stream.put message ss in
  Stream.str ss.

(** The line as the specification words it: the level and the module each
    followed by spaces up to their width. *)
Definition right_pad_spaces (w : nat) (s : string) : string :=
  s +:+ Stream.repeat_char (w - String.length s) " "%char.

Definition spec_formatLogMessage (now : time_point) (thread_id : string)
    (level : LogLevel) (module message : string) : string :=
  put_time (local_time now) +:+ "." +:+
  Stream.pad "0"%char 3 (pretty (ms_count now)) +:+
  " [" +:+ thread_id +:+ "] [" +:+
  right_pad_spaces 8 (logLevelToString level) +:+ "] [" +:+
  right_pad_spaces 15 module +:+ "] " +:+ message.

(** ** Machine integers *)

(** A [size_t] result, reduced modulo 2^64. *)
Definition size_t_wrap (z : Z) : Z := z mod 2 ^ 64.

(** The conversion of an unsigned 64-bit value to [int]. *)
Definition to_int (z : Z) : Z :=
  let r := z mod 2 ^ 32 in
  if r <? 2 ^ 31 then r else r - 2 ^ 32.

(** ** The file system *)

Module Fs.

Record t := mk {
  files : gmap string (list string);  (* path -> records stored, oldest first *)
  dirs : gset string;                 (* the directories that exist *)
  denied : gset string;               (* paths on which every operation fails *)
  uncreatable : gset string           (* paths above which the system refuses to create any directory *)
}.

(** Each record is written followed by [std::endl]. *)
Definition line_bytes (line : string) : Z := Z.of_nat (String.length line) + 1.

Definition content_bytes (c : list string) : Z :=
  foldr (fun l acc => line_bytes l + acc) 0 c.

Definition with_files (f : gmap string (list string)) (fs : t) : t :=
  {| files := f; dirs := dirs fs; denied := denied fs; uncreatable := uncreatable fs |}.

Definition with_dirs (d : gset string) (fs : t) : t :=
  {| files := files fs; dirs := d; denied := denied fs; uncreatable := uncreatable fs |}.

Definition separator : ascii := "/"%char.

(** On the reversed path: the file name goes, up to the last separator. *)
Fixpoint drop_filename (r : list ascii) : list ascii :=
  match r with
  | [] => []
  | c :: r' => if Ascii.eqb c separator then r else drop_filename r'
  end.

(** On the reversed path: the separators in front go. *)
Fixpoint drop_separators (r : list ascii) : list ascii :=
  match r with
  | [] => []
  | c :: r' => if Ascii.eqb c separator then drop_separators r' else r
  end.

(** [std::filesystem::path::parent_path]: empty for a bare file name, the
    root for a name right below it, the path without its last element
    otherwise. *)
Definition parent_path (p : string) : string :=
  let r := drop_filename (rev (String.list_ascii_of_string p)) in
  match r with
  | [] => ""
  | _ :: _ =>
      match drop_separators r with
      | [] => "/"
      | d => String.string_of_list_ascii (rev d)
      end
  end.

(** A directory and the directories above it. *)
Fixpoint directory_chain_from (fuel : nat) (d : string) : list string :=
  match fuel with
  | O => []
  | S fuel' =>
      if decide (d = "") then []
      else if decide (parent_path d = d) then [d]
      else d :: directory_chain_from fuel' (parent_path d)
  end.

Definition directory_chain (d : string) : list string :=
  directory_chain_from (S (String.length d)) d.

(** The paths for which [create_directories(parent_path())] throws: the
    parent is empty, as it is for every bare file name, or the operating
    system refuses. *)
Definition no_parent (fs : t) : propset string :=
  {[ p | parent_path p = "" \/ p ∈ uncreatable fs ]}.

Global Instance no_parent_dec (p : string) (fs : t) : Decision (p ∈ no_parent fs).
Proof.
  refine (cast_if (decide (parent_path p = "" \/ p ∈ uncreatable fs)));
    unfold no_parent; by rewrite elem_of_PropSet.
Defined.

(** [std::filesystem::exists]; [None] is a thrown [filesystem_error]. *)
Definition exists_ (p : string) (fs : t) : option bool :=
  if decide (p ∈ denied fs) then None
  else Some (bool_decide (is_Some (files fs !! p))).

(** [std::filesystem::remove]. *)
Definition remove (p : string) (fs : t) : option t :=
  if decide (p ∈ denied fs) then None
  else Some (with_files (delete p (files fs)) fs).

(** [std::filesystem::rename]: an existing destination is replaced. *)
Definition rename (old new : string) (fs : t) : option t :=
  if decide (old ∈ denied fs) then None
  else if decide (new ∈ denied fs) then None
  else match files fs !! old with
       | None => None
       | Some c => Some (with_files (<[new := c]> (delete old (files fs))) fs)
       end.

(** [std::filesystem::file_size]. *)
Definition file_size (p : string) (fs : t) : option Z :=
  if decide (p ∈ denied fs) then None
  else content_bytes <$> files fs !! p.

(** [std::filesystem::create_directories] on the parent of [p]: it throws
    for the paths of [no_parent]; otherwise the parent and the directories
    above it exist afterwards.  For an empty parent it throws before it
    does anything.  A refusal of the system is modelled at the first
    directory only, so that nothing has been created when it throws; a
    refusal further down, which leaves the directories above it behind,
    is not modelled. *)
Definition create_directories (p : string) (fs : t) : option t :=
  if decide (p ∈ no_parent fs) then None
  else Some (with_dirs (dirs fs ∪ list_to_set (directory_chain (parent_path p))) fs).

(** [ofstream::open(p, std::ios::app)], called once the directory of [p]
    exists: creates the file when it is missing and keeps what it holds
    otherwise; [None] when it fails. *)
Definition open_append (p : string) (fs : t) : option t :=
  if decide (p ∈ denied fs) then None
  else match files fs !! p with
       | Some _ => Some fs
       | None => Some (with_files (<[p := []]> (files fs)) fs)
       end.

(** A record written through the open handle on [p]. *)
Definition append_line (p : string) (line : string) (fs : t) : t :=
  with_files (<[p := default [] (files fs !! p) ++ [line]]> (files fs)) fs.

End Fs.

(** ** Events and the engine state *)

Inductive Diag :=
| DiagOpenFailed (path : string)   (* "Failed to open log file: <path>" *)
| DiagOpenException                (* "Exception opening log file: ..." *)
| DiagRotationFailed.              (* "Log rotation failed: ..." *)

Inductive Event :=
| EWrite (message : string)        (* writeLogMessage entered with this record *)
| EConsole (line : string)         (* std::cout << line << std::endl *)
| EFileLine (path line : string)   (* log_file << line << std::endl *)
| EFileFlush                       (* log_file.flush() *)
| EFileClose                       (* log_file.close() *)
| EFileOpen (path : string) (ok : bool)
| ECerr (d : Diag)
| EThreadStart (tid : string)
| EStopRequested                   (* should_stop = true *)
| ENotifyOne
| ENotifyAll
| EJoin.

(** Where the worker stands in [loggingWorker]. *)
Inductive WorkerPc :=
| PcOuter                 (* reading should_stop in the outer condition *)
| PcOuterQueue            (* should_stop was set: reading log_queue.empty() *)
| PcWait                  (* queue_condition.wait(lock, predicate), queue_mutex
                             held or given up inside the wait *)
| PcInner                 (* inner loop condition, queue_mutex held *)
| PcWrite (message : string)   (* popped, queue_mutex released *)
| PcExit.                 (* returned from loggingWorker *)

Global Instance WorkerPc_eq_dec : EqDecision WorkerPc.
Proof. solve_decision. Defined.

(** [std::thread]: not a thread, or joinable with the thread it stands for. *)
Inductive ThreadHandle :=
| NoThread
| Thread (tid : string) (pc : WorkerPc).

Definition joinable (h : ThreadHandle) : bool :=
  match h with NoThread => false | Thread _ _ => true end.

(** What lies outside the engine object. *)
Record World := mkWorld {
  fs : Fs.t;
  events : list Event;
  clock : nat -> time_point;   (* the successive readings of the system clock *)
  clock_reads : nat
}.

Record Impl := mkImpl {
  current_log_level : LogLevel;
  log_target : LogTarget;
  log_file_path : string;
  max_file_size_bytes : Z;
  max_backup_files : Z;
  log_file : bool;                 (* log_file.is_open() *)
  log_queue : list string;
  logging_thread : ThreadHandle;
  should_stop : bool;
  world : World
}.

(** [Impl() = default]: the member initialisers. *)
Definition new_Impl (w : World) : Impl :=
  {| current_log_level := INFO;
     log_target := BOTH;
     log_file_path := "inference_service.log";
     max_file_size_bytes := 10 * 1024 * 1024;
     max_backup_files := 5;
     log_file := false;
     log_queue := [];
     logging_thread := NoThread;
     should_stop := false;
     world := w |}.

Definition set_level (l : LogLevel) (s : Impl) : Impl :=
  mkImpl l (log_target s) (log_file_path s) (max_file_size_bytes s)
    (max_backup_files s) (log_file s) (log_queue s) (logging_thread s)
    (should_stop s) (world s).

Definition set_config (l : LogLevel) (t : LogTarget) (p : string) (sz n : Z)
    (s : Impl) : Impl :=
  mkImpl l t p sz n (log_file s) (log_queue s) (logging_thread s)
    (should_stop s) (world s).

Definition set_file_open (b : bool) (s : Impl) : Impl :=
  mkImpl (current_log_level s) (log_target s) (log_file_path s)
    (max_file_size_bytes s) (max_backup_files s) b (log_queue s)
    (logging_thread s) (should_stop s) (world s).

Definition set_queue (q : list string) (s : Impl) : Impl :=
  mkImpl (current_log_level s) (log_target s) (log_file_path s)
    (max_file_size_bytes s) (max_backup_files s) (log_file s) q
    (logging_thread s) (should_stop s) (world s).

Definition set_thread (h : ThreadHandle) (s : Impl) : Impl :=
  mkImpl (current_log_level s) (log_target s) (log_file_path s)
    (max_file_size_bytes s) (max_backup_files s) (log_file s) (log_queue s)
    h (should_stop s) (world s).

Definition set_stop (b : bool) (s : Impl) : Impl :=
  mkImpl (current_log_level s) (log_target s) (log_file_path s)
    (max_file_size_bytes s) (max_backup_files s) (log_file s) (log_queue s)
    (logging_thread s) b (world s).

Definition set_world (w : World) (s : Impl) : Impl :=
  mkImpl (current_log_level s) (log_target s) (log_file_path s)
    (max_file_size_bytes s) (max_backup_files s) (log_file s) (log_queue s)
    (logging_thread s) (should_stop s) w.

Definition set_fs (f : Fs.t) (s : Impl) : Impl :=
  set_world (mkWorld f (events (world s)) (clock (world s)) (clock_reads (world s))) s.

Definition emit (es : list Event) (s : Impl) : Impl :=
  set_world (mkWorld (fs (world s)) (events (world s) ++ es) (clock (world s))
               (clock_reads (world s))) s.

(** One reading of the clock. *)
Definition read_clock (s : Impl) : time_point * Impl :=
  (clock (world s) (clock_reads (world s)),
   set_world (mkWorld (fs (world s)) (events (world s)) (clock (world s))
                (S (clock_reads (world s)))) s).

(** ** [Logger::Impl] *)

Definition openLogFile (s : Impl) : Impl :=
  match Fs.create_directories (log_file_path s) (fs (world s)) with
  | None => emit [ECerr DiagOpenException] s
  | Some f0 =>
      if log_file s then set_fs f0 s   (* open() on an open stream fails, it stays open *)
      else match Fs.open_append (log_file_path s) f0 with
           | Some f1 =>
               emit [EFileOpen (log_file_path s) true] (set_file_open true (set_fs f1 s))
           | None =>
               emit [EFileOpen (log_file_path s) false;
                     ECerr (DiagOpenFailed (log_file_path s))] (set_fs f0 s)
           end
  end.

Definition logMessage (thread_id : string) (level : LogLevel)
    (module message : string) (s : Impl) : Impl :=
  if level_lt level (current_log_level s) then s
  else
    let '(now, s1) := read_clock s in
    let formatted_message := formatLogMessage now thread_id level module message in
    emit [ENotifyOne] (set_queue (log_queue s1 ++ [formatted_message]) s1).

Definition needsRotation (s : Impl) : bool :=
  if negb (log_file s) then false
  else match Fs.file_size (log_file_path s) (fs (world s)) with
       | Some file_size => max_file_size_bytes s <=? file_size
       | None => false
       end.

Definition backup_path (path : string) (i : Z) : string :=
  path +:+ "." +:+ pretty i.

(** The loop of [rotateLogFile] for [i = k, k-1, ..., 1]; the boolean is
    false when an exception left the loop, with the renames already done. *)
Fixpoint rotate_backups (path : string) (last : Z) (k : nat) (f : Fs.t)
    : Fs.t * bool :=
  match k with
  | O => (f, true)
  | S k' =>
      let i := Z.of_nat k in
      let old_backup := backup_path path i in
      let new_backup := backup_path path (i + 1) in
      match Fs.exists_ old_backup f with
      | None => (f, false)
      | Some false => rotate_backups path last k' f
      | Some true =>
          if i =? last then
            match Fs.remove old_backup f with
            | Some f' => rotate_backups path last k' f'
            | None => (f, false)
            end
          else
            match Fs.rename old_backup new_backup f with
            | Some f' => rotate_backups path last k' f'
            | None => (f, false)
            end
      end
  end.

(** The [try] block of [rotateLogFile]. *)
Definition rotate_files (path : string) (max_backups : Z) (f : Fs.t) : Fs.t * bool :=
  let last := size_t_wrap (max_backups - 1) in
  match rotate_backups path last (Z.to_nat (to_int last)) f with
  | (f1, false) => (f1, false)
  | (f1, true) =>
      match Fs.rename path (backup_path path 1) f1 with
      | Some f2 => (f2, true)
      | None => (f1, false)
      end
  end.

Definition rotateLogFile (thread_id : string) (s : Impl) : Impl :=
  let s1 := emit [EFileClose] (set_file_open false s) in
  let '(f, ok) := rotate_files (log_file_path s1) (max_backup_files s1) (fs (world s1)) in
  let s2 := set_fs f s1 in
  let s3 := if ok then s2 else emit [ECerr DiagRotationFailed] s2 in
  let s4 := openLogFile s3 in
  logMessage thread_id INFO "LOGGER" "Log file rotated" s4.

(** The writes of [writeLogMessage], before it looks at the file size. *)
Definition write_targets (message : string) (s : Impl) : Impl :=
  let s0 := emit [EWrite message] s in
  let s1 := if target_has_console (log_target s0)
            then emit [EConsole message] s0 else s0 in
  if target_has_file (log_target s1) && log_file s1 then
    emit [EFileLine (log_file_path s1) message; EFileFlush]
      (set_fs (Fs.append_line (log_file_path s1) message (fs (world s1))) s1)
  else s1.

(** Whether [writeLogMessage message] ends in the [logMessage] of a
    rotation with a record that passes the filter: the worker then asks
    for [queue_mutex] while it holds [log_mutex]. *)
Definition rotation_record_queued (message : string) (s : Impl) : bool :=
  target_has_file (log_target s) && log_file s &&
  needsRotation (write_targets message s) &&
  negb (level_lt INFO (current_log_level s)).

Definition writeLogMessage (thread_id : string) (message : string) (s : Impl) : Impl :=
  let s0 := emit [EWrite message] s in
  let s1 := if target_has_console (log_target s0)
            then emit [EConsole message] s0 else s0 in
  if target_has_file (log_target s1) && log_file s1 then
    let s2 := emit [EFileLine (log_file_path s1) message; EFileFlush]
                (set_fs (Fs.append_line (log_file_path s1) message (fs (world s1))) s1) in
    if needsRotation s2 then rotateLogFile thread_id s2 else s2
  else s1.

(** ** The background worker *)

Definition worker_pc (s : Impl) : option WorkerPc :=
  match logging_thread s with
  | NoThread => None
  | Thread _ pc => Some pc
  end.

Definition set_pc (pc : WorkerPc) (s : Impl) : Impl :=
  match logging_thread s with
  | NoThread => s
  | Thread tid _ => set_thread (Thread tid pc) s
  end.

Definition queue_empty (s : Impl) : bool :=
  match log_queue s with [] => true | _ :: _ => false end.

(** The predicate of [queue_condition.wait] in [loggingWorker]. *)
Definition worker_wait_pred (s : Impl) : bool :=
  negb (queue_empty s) || should_stop s.

(** One move of the worker thread; [None] when it cannot move (it is
    blocked in [wait], it has returned, or there is no thread).  At
    [PcWait] the move is a test of the predicate that finds it true, on
    entry or after a wake-up.  That a wake-up comes is not part of the
    model, and the code does not make sure of it: [shutdown] sets the stop
    flag and notifies without [queue_mutex], so that a worker between its
    test and its block misses the notification.  The move is therefore
    one the worker may make; it has to make it only when the predicate
    holds as the wait is entered. *)
Definition worker_step (s : Impl) : option Impl :=
  match logging_thread s with
  | NoThread => None
  | Thread tid pc =>
      match pc with
      | PcOuter =>
          Some (set_pc (if should_stop s then PcOuterQueue else PcWait) s)
      | PcOuterQueue =>
          Some (set_pc (if queue_empty s then PcExit else PcWait) s)
      | PcWait =>
          if worker_wait_pred s then Some (set_pc PcInner s) else None
      | PcInner =>
          match log_queue s with
          | [] => Some (set_pc PcOuter s)
          | message :: rest => Some (set_pc (PcWrite message) (set_queue rest s))
          end
      | PcWrite message =>
          Some (set_pc PcInner (writeLogMessage tid message s))
      | PcExit => None
      end
  end.

(** At most [n] moves of the worker. *)
Fixpoint worker_steps (n : nat) (s : Impl) : Impl :=
  match n with
  | O => s
  | S n' => match worker_step s with
            | Some s' => worker_steps n' s'
            | None => s
            end
  end.

(** The worker alone, until [loggingWorker] returns; [None] when it does
    not return within [fuel] moves or blocks for ever. *)
Fixpoint loggingWorker (fuel : nat) (s : Impl) : option Impl :=
  match worker_pc s with
  | Some PcExit => Some s
  | _ => match fuel with
         | O => None
         | S fuel' => match worker_step s with
                      | Some s' => loggingWorker fuel' s'
                      | None => None
                      end
         end
  end.

(** [logging_thread.join()]. *)
Definition join (fuel : nat) (s : Impl) : option Impl :=
  match loggingWorker fuel s with
  | Some s' => Some (emit [EJoin] (set_thread NoThread s'))
  | None => None
  end.

(** The stop request of [shutdown]. *)
Definition request_stop (s : Impl) : Impl :=
  emit [ENotifyAll] (emit [EStopRequested] (set_stop true s)).

(** ** [flush] and [shutdown] *)

(** What happens during one millisecond of a timed wait: how far the
    worker gets, and whether the waiting thread is woken (by a
    notification or spuriously) at the end of it. *)
Record Tick := mkTick {
  tick_worker_moves : nat;
  tick_wakeup : bool
}.

Definition idle_tick : Tick := {| tick_worker_moves := 0; tick_wakeup := false |}.

(** The predicate of [queue_condition.wait_for] in [flush]. *)
Definition flush_wait_pred (s : Impl) : bool :=
  queue_empty s || should_stop s.

(** [wait_for(lock, timeout, pred)] with [remaining] milliseconds left.
    The predicate is looked at on entry, after every wake-up and when the
    time is over; the result carries the time that was left on return. *)
Fixpoint wait_for (pred : Impl -> bool) (remaining : nat) (sched : list Tick)
    (observe : bool) (s : Impl) : Impl * nat :=
  if observe && pred s then (s, remaining)
  else match remaining with
       | O => (s, O)
       | S r =>
           let t := hd idle_tick sched in
           wait_for pred r (tl sched) (tick_wakeup t)
             (worker_steps (tick_worker_moves t) s)
       end.

(** The timeout of [flush], in milliseconds. *)
Definition flush_timeout : nat := 1000.

(** [log_file.flush()] under [log_mutex]. *)
Definition flush_file (s : Impl) : Impl :=
  if log_file s then emit [EFileFlush] s else s.

(** [flush].  After the timed wait the caller still holds [queue_mutex] and
    asks for [log_mutex].  [inside] tells whether the worker, when it
    stands at [writeLogMessage], has taken [log_mutex] before the caller
    asks for it: the caller then waits for the end of that write, and when
    the write itself asks for [queue_mutex] neither thread moves again and
    the call does not return ([None]). *)
Definition flush (sched : list Tick) (inside : bool) (s : Impl) : option Impl :=
  let s1 := fst (wait_for flush_wait_pred flush_timeout sched true s) in
  match logging_thread s1 with
  | Thread _ (PcWrite message) =>
      if inside then
        if rotation_record_queued message s1 then None
        else Some (flush_file (default s1 (worker_step s1)))
      else Some (flush_file s1)
  | _ => Some (flush_file s1)
  end.

(** [None] when [flush] or [join] does not return. *)
Definition shutdown (fuel : nat) (sched : list Tick) (inside : bool) (s : Impl)
    : option Impl :=
  let joined :=
    if joinable (logging_thread s) then
      match flush sched inside s with
      | Some s1 =>
          let s3 := request_stop s1 in
          if joinable (logging_thread s3) then join fuel s3 else Some s3
      | None => None
      end
    else Some s in
  match joined with
  | Some s4 =>
      if log_file s4 then Some (emit [EFileFlush; EFileClose] (set_file_open false s4))
      else Some s4
  | None => None
  end.

(** ** [initialize] *)

(** [None] is [std::terminate]: a joinable [std::thread] is assigned to. *)
Definition initialize (thread_id worker_id : string) (log_level : LogLevel)
    (target : LogTarget) (file_path : string)
    (max_file_size_mb max_backup_count : Z) (s : Impl) : option Impl :=
  let s1 := set_config log_level target file_path
              (size_t_wrap (max_file_size_mb * 1024 * 1024)) max_backup_count s in
  let s2 := if target_has_file (log_target s1) then openLogFile s1 else s1 in
  let s3 := set_stop false s2 in
  match logging_thread s3 with
  | Thread _ _ => None
  | NoThread =>
      let s4 := emit [EThreadStart worker_id] (set_thread (Thread worker_id PcOuter) s3) in
      let s5 := logMessage thread_id INFO "LOGGER" "Logging system initialized" s4 in
      let s6 := logMessage thread_id INFO "LOGGER"
                  ("Log level: " +:+ logLevelToString log_level) s5 in
      let s7 := logMessage thread_id INFO "LOGGER"
                  ("Log target: " +:+ logTargetToString target) s6 in
      Some (if decide (log_target s7 = CONSOLE) then s7
            else logMessage thread_id INFO "LOGGER" ("Log file: " +:+ file_path) s7)
  end.

(** ** [Logger]: the singleton and its [pImpl] *)

Inductive Logger :=
| Null (w : World)          (* pImpl is empty *)
| Engine (impl : Impl).     (* pImpl owns an Impl *)

Definition Logger_initialize (thread_id worker_id : string) (log_level : LogLevel)
    (log_target : LogTarget) (log_file_path : string)
    (max_file_size_mb max_backup_files : Z) (lg : Logger) : option Logger :=
  let impl := match lg with Null w => new_Impl w | Engine i => i end in
  Engine <$> initialize thread_id worker_id log_level log_target log_file_path
               max_file_size_mb max_backup_files impl.

(** [initialize()] with every default argument. *)
Definition Logger_initialize_default (thread_id worker_id : string) (lg : Logger)
    : option Logger :=
  Logger_initialize thread_id worker_id INFO BOTH "inference_service.log" 10 5 lg.

Definition Logger_log (thread_id worker_id : string) (level : LogLevel)
    (module message : string) (lg : Logger) : option Logger :=
  match lg with
  | Null w =>
      match initialize thread_id worker_id INFO CONSOLE "inference_service.log" 10 5
              (new_Impl w) with
      | Some impl => Some (Engine (logMessage thread_id level module message impl))
      | None => None
      end
  | Engine impl => Some (Engine (logMessage thread_id level module message impl))
  end.

Definition setLogLevel (level : LogLevel) (lg : Logger) : Logger :=
  match lg with
  | Null w => Null w
  | Engine impl => Engine (set_level level impl)
  end.

Definition getLogLevel (lg : Logger) : LogLevel :=
  match lg with
  | Null _ => INFO
  | Engine impl => current_log_level impl
  end.

Definition Logger_flush (sched : list Tick) (inside : bool) (lg : Logger)
    : option Logger :=
  match lg with
  | Null w => Some (Null w)
  | Engine impl => Engine <$> flush sched inside impl
  end.


(** ** The engine with its worker and other threads interleaved *)

(** [queue_mutex] is held by the worker exactly while it stands at the
    inner loop condition. *)
Definition queue_mutex_free (s : Impl) : bool :=
  match worker_pc s with
  | Some PcInner => false
  | _ => true
  end.

Inductive step : Impl -> Impl -> Prop :=
| step_worker s s' :
    worker_step s = Some s' -> step s s'
| step_log tid level module message s :
    queue_mutex_free s = true ->
    step s (logMessage tid level module message s)
| step_set_level level s :
    step s (set_level level s)
| step_request_stop s :
    step s (request_stop s)
| step_file_flush s :
    log_file s = true -> step s (emit [EFileFlush] s).

Inductive steps : Impl -> Impl -> Prop :=
| steps_refl s : steps s s
| steps_step s1 s2 s3 : steps s1 s2 -> step s2 s3 -> steps s1 s3.

(** ** Reading the event list *)

Definition console_line (e : Event) : option string :=
  match e with EConsole l => Some l | _ => None end.

Definition file_line (e : Event) : option string :=
  match e with EFileLine _ l => Some l | _ => None end.

Definition written (e : Event) : option string :=
  match e with EWrite m => Some m | _ => None end.


(** The lines that reached the console, in order. *)
Definition console_lines (s : Impl) : list string := omap console_line (events (world s)).

(** The lines written through the file handle, in order. *)
Definition file_lines (s : Impl) : list string := omap file_line (events (world s)).

(** The records the worker handed to [writeLogMessage], in order. *)
Definition written_records (s : Impl) : list string := omap written (events (world s)).

(** The record the worker has popped and not yet written. *)
Definition in_flight (s : Impl) : list string :=
  match worker_pc s with
  | Some (PcWrite m) => [m]
  | _ => []
  end.

(** The active file's size, zero when it does not exist. *)
Definition active_size (s : Impl) : Z :=
  Fs.content_bytes (default [] (Fs.files (fs (world s)) !! log_file_path s)).

(** ** Vocabulary of the statements *)

(** The configuration and the faults of the file system: nothing but
    [initialize] changes them. *)
Definition same_setup (s s' : Impl) : Prop :=
  log_target s' = log_target s /\
  log_file_path s' = log_file_path s /\
  max_file_size_bytes s' = max_file_size_bytes s /\
  max_backup_files s' = max_backup_files s /\
  Fs.denied (fs (world s')) = Fs.denied (fs (world s)) /\
  Fs.no_parent (fs (world s')) = Fs.no_parent (fs (world s)).

(** The record a call would enqueue, were it to pass the filter. *)
Definition record_of (tid : string) (level : LogLevel) (module message : string)
    (s : Impl) : string :=
  formatLogMessage (clock (world s) (clock_reads (world s))) tid level module message.

(** What a call appends to the queue. *)
Definition enqueued_by (tid : string) (level : LogLevel) (module message : string)
    (s : Impl) : list string :=
  if level_lt level (current_log_level s) then []
  else [record_of tid level module message s].

(** Every record the worker still owes: popped and unwritten, or queued. *)
Definition pending (s : Impl) : list string := in_flight s ++ log_queue s.

(** The file target works: the handle is open and the path can be reopened. *)
Definition file_target_ok (s : Impl) : Prop :=
  log_file s = true /\
  (log_file_path s ∉ Fs.denied (fs (world s))) /\
  (log_file_path s ∉ Fs.no_parent (fs (world s))).

(** Events that carry a record to a target or mark its hand-over. *)
Definition is_output (e : Event) : bool :=
  match e with
  | EWrite _ | EConsole _ | EFileLine _ _ => true
  | _ => false
  end.

(** Events of the life cycle: thread start, stop request, join. *)
Definition is_lifecycle (e : Event) : bool :=
  match e with
  | EThreadStart _ | EStopRequested | ENotifyAll | EJoin => true
  | _ => false
  end.

(** A run of events without any output. *)
Definition no_output (es : list Event) : Prop :=
  Forall (fun e => is_output e = false) es.

(** A run of events that belongs to the life cycle nowhere. *)
Definition no_lifecycle (es : list Event) : Prop :=
  Forall (fun e => is_lifecycle e = false) es.

(** A run of events with neither. *)
Definition quiet (es : list Event) : Prop :=
  Forall (fun e => is_output e = false /\ is_lifecycle e = false) es.

(** Between [s] and [s'] exactly the records [W] were handed to
    [writeLogMessage], and each reached the targets that work. *)
Definition delivers (s s' : Impl) (W : list string) : Prop :=
  written_records s' = written_records s ++ W /\
  (target_has_console (log_target s) = true ->
   console_lines s' = console_lines s ++ W) /\
  (target_has_file (log_target s) = true -> file_target_ok s ->
   file_lines s' = file_lines s ++ W).

(** The state in which [writeLogMessage] looks at the file size: the
    record is on the console and in the file, nothing is rotated yet. *)
Definition after_write (message : string) (s : Impl) : Impl :=
  let s0 := emit [EWrite message] s in
  let s1 := if target_has_console (log_target s0)
            then emit [EConsole message] s0 else s0 in
  emit [EFileLine (log_file_path s1) message; EFileFlush]
    (set_fs (Fs.append_line (log_file_path s1) message (fs (world s1))) s1).

(** What the active file holds, nothing when it does not exist. *)
Definition active_content (s : Impl) : list string :=
  default [] (Fs.files (fs (world s)) !! log_file_path s).

(** The worker writing the records [ms] one after the other. *)
Definition write_all (tid : string) (ms : list string) (s : Impl) : Impl :=
  foldl (fun s m => writeLogMessage tid m s) s ms.

(** The file target is in use, no operation on a file is refused and the
    directory of the log file can be created. *)
Definition file_target_sound (s : Impl) : Prop :=
  target_has_file (log_target s) = true /\
  log_file s = true /\
  Fs.denied (fs (world s)) = ∅ /\
  (log_file_path s ∉ Fs.no_parent (fs (world s))).

(** ** Concrete situations used in examples *)

Definition demo_now : time_point :=
  mk_time_point 1704164645006 (mk_tm 124 0 2 3 4 5).

(** The directories a set of files lies in. *)
Definition dirs_of (fls : gmap string (list string)) : gset string :=
  list_to_set
    (concat (map (fun p => Fs.directory_chain (Fs.parent_path p))
               (map fst (map_to_list fls)))).

(** A world with the given files in their directories, the given faulty
    paths, and a clock that stands still. *)
Definition demo_world (fls : gmap string (list string)) (bad : gset string) : World :=
  mkWorld (Fs.mk fls (dirs_of fls) bad ∅) [] (fun _ => demo_now) 0.

(** The engine after a successful [initialize] called by thread "main",
    with "worker" as the id of the thread it starts. *)
Definition started (w : World) (level : LogLevel) (target : LogTarget)
    (path : string) (mb backups : Z) : Impl :=
  default (new_Impl w) (initialize "main" "worker" level target path mb backups (new_Impl w)).

(** The first record [initialize] enqueues at level INFO or below. *)
Definition first_record : string :=
  formatLogMessage demo_now "main" INFO "LOGGER" "Logging system initialized".

(** A line that leaves room for exactly [first_record] below one MiB. *)
Definition filler : string :=
  Stream.repeat_char (Z.to_nat (1048576 - Fs.line_bytes first_record - 1)) "x"%char.

(** What one move, of the worker or of another thread, may change. *)
Definition move_effect (s s' : Impl) : Prop :=
  same_setup s s' /\
  (should_stop s = true -> should_stop s' = true) /\
  (file_target_ok s -> file_target_ok s') /\
  joinable (logging_thread s') = joinable (logging_thread s) /\
  exists W added, delivers s s' W /\ W ++ pending s' = pending s ++ added.

(** The worker reads the queue in the outer condition only after it has
    seen the stop flag set. *)
Definition stop_seen (s : Impl) : Prop :=
  worker_pc s = Some PcOuterQueue -> should_stop s = true.

(** A console-only engine right after [initialize], three records queued. *)
Definition console_engine : Impl :=
  started (demo_world ∅ ∅) INFO CONSOLE "logs/app.log" 10 5.

(** A file-only engine above level INFO, so that nothing is queued. *)
Definition quiet_file_engine : Impl :=
  started (demo_world ∅ ∅) WARN FILE "logs/app.log" 1 5.

(** A file-only engine whose file is one record short of the ceiling. *)
Definition nearly_full_engine : Impl :=
  started (demo_world {[ "logs/app.log" := [filler] ]} ∅) INFO FILE "logs/app.log" 1 5.

(** The same with the first backup path refusing every operation. *)
Definition blocked_backup_engine : Impl :=
  started (demo_world {[ "logs/app.log" := [filler] ]} {[ "logs/app.log.1" ]})
    INFO FILE "logs/app.log" 1 5.

(** The engine [k] milliseconds into a timed wait under [sched]. *)
Fixpoint state_after (sched : list Tick) (k : nat) (s : Impl) : Impl :=
  match k with
  | O => s
  | S k' =>
      state_after (tl sched) k'
        (worker_steps (tick_worker_moves (hd idle_tick sched)) s)
  end.

(** Whether the waiting thread looks at its predicate [k] milliseconds
    into the wait: on entry, and then after each wake-up. *)
Definition observes (first : bool) (sched : list Tick) (k : nat) : bool :=
  match k with
  | O => first
  | S k' => tick_wakeup (nth k' sched idle_tick)
  end.

(** The console engine after [shutdown], and after one more record has
    been logged on it. *)
Definition stopped_engine : Impl :=
  default console_engine (shutdown 20 [] false console_engine).

Definition late_engine : Impl :=
  logMessage "main" WARN "APP" "late" stopped_engine.

(** The records [initialize] passes to [logMessage], as they come out of
    the level filter, formatted with the clock readings from the [n]-th on. *)
Definition bootstrap_records (tid : string) (level : LogLevel) (target : LogTarget)
    (path : string) (clk : nat -> time_point) (n : nat) : list string :=
  if level_lt INFO level then []
  else
    [formatLogMessage (clk n) tid INFO "LOGGER" "Logging system initialized";
     formatLogMessage (clk (S n)) tid INFO "LOGGER"
       ("Log level: " +:+ logLevelToString level);
     formatLogMessage (clk (S (S n))) tid INFO "LOGGER"
       ("Log target: " +:+ logTargetToString target)] ++
    (if decide (target = CONSOLE) then []
     else [formatLogMessage (clk (S (S (S n)))) tid INFO "LOGGER"
             ("Log file: " +:+ path)]).

(** The state in which [initialize] opens the file: the configuration is
    stored, nothing else has happened. *)
Definition configured (level : LogLevel) (target : LogTarget) (path : string)
    (mb backups : Z) (s : Impl) : Impl :=
  set_config level target path (size_t_wrap (mb * 1024 * 1024)) backups s.

(** A file-only engine with a ceiling of zero bytes and two backups. *)
Definition two_backup_engine : Impl :=
  started (demo_world ∅ ∅) INFO FILE "logs/app.log" 0 2.

(** The worker never enqueues anything itself: no file is written, or the
    record of a rotation is below the threshold. *)
Definition worker_adds_nothing (s : Impl) : Prop :=
  target_has_file (log_target s) = false \/
  level_lt INFO (current_log_level s) = true.

(** The moves the worker still makes before it returns, once the stop flag
    is set and nothing more is enqueued. *)
Definition moves_to_exit (s : Impl) : nat :=
  let n := length (log_queue s) in
  match worker_pc s with
  | Some PcOuter => match n with O => 2 | _ => 2 * n + 6 end
  | Some PcOuterQueue => match n with O => 1 | _ => 2 * n + 5 end
  | Some PcWait => 2 * n + 4
  | Some PcInner => 2 * n + 3
  | Some (PcWrite _) => 2 * n + 4
  | Some PcExit => 0
  | None => 0
  end%nat.

(** ** Vocabulary of the further properties *)

(** The lines that reached the standard error stream, in order. *)
Definition cerr_event (e : Event) : option Diag :=
  match e with ECerr d => Some d | _ => None end.

Definition cerr_lines (s : Impl) : list Diag := omap cerr_event (events (world s)).

(** A file-only engine whose log file cannot be opened. *)
Definition unopened_engine : Impl :=
  started (demo_world ∅ {[ "logs/app.log" ]}) INFO FILE "logs/app.log" 10 5.

(** A file-only engine above level INFO with three backups configured and
    two of them present. *)
Definition chain_engine : Impl :=
  started (demo_world {[ "logs/app.log" := ["a"]; "logs/app.log.1" := ["b"];
                         "logs/app.log.2" := ["c"] ]} ∅) WARN FILE "logs/app.log" 1 3.

(** Every write to the file is followed by a rotation whose record passes
    the filter: the file target works, the ceiling is zero bytes and the
    threshold is INFO or lower. *)
Definition rotates_on_every_write (s : Impl) : Prop :=
  target_has_file (log_target s) = true /\
  log_file s = true /\
  (log_file_path s ∉ Fs.denied (fs (world s))) /\
  (log_file_path s ∉ Fs.no_parent (fs (world s))) /\
  max_file_size_bytes s = 0 /\
  level_lt INFO (current_log_level s) = false.

(** The worker is running and has a record in hand or in the queue. *)
Definition has_work (s : Impl) : Prop :=
  match worker_pc s with
  | Some (PcWrite _) => True
  | Some PcExit => False
  | Some _ => log_queue s <> []
  | None => False
  end.

(** A file-only engine with a ceiling of zero bytes. *)
Definition zero_ceiling_engine : Impl :=
  started (demo_world ∅ ∅) INFO FILE "logs/app.log" 0 5.

(** ** [ModuleLogger]: the per-module front of the logger *)

Module ModuleLogger.

Record t := mk { module_name_ : string }.

Definition trace (thread_id worker_id : string) (self : t) (message : string)
    (lg : Logger) : option Logger :=
  Logger_log thread_id worker_id TRACE (module_name_ self) message lg.

Definition debug (thread_id worker_id : string) (self : t) (message : string)
    (lg : Logger) : option Logger :=
  Logger_log thread_id worker_id DEBUG (module_name_ self) message lg.

Definition info (thread_id worker_id : string) (self : t) (message : string)
    (lg : Logger) : option Logger :=
  Logger_log thread_id worker_id INFO (module_name_ self) message lg.

Definition warn (thread_id worker_id : string) (self : t) (message : string)
    (lg : Logger) : option Logger :=
  Logger_log thread_id worker_id WARN (module_name_ self) message lg.

Definition error (thread_id worker_id : string) (self : t) (message : string)
    (lg : Logger) : option Logger :=
  Logger_log thread_id worker_id ERROR (module_name_ self) message lg.

Definition critical (thread_id worker_id : string) (self : t) (message : string)
    (lg : Logger) : option Logger :=
  Logger_log thread_id worker_id CRITICAL (module_name_ self) message lg.

End ModuleLogger.

(** ** The log-level endpoint of [WebApiServer], in
    [include/performance_monitor.hpp] *)

Module WebApiServer.

(** The double quote, and the line end of an HTTP header. *)
Definition dq : string := String "034"%char EmptyString.
Definition crlf : string := String "013"%char (String "010"%char EmptyString).

(** [std::string::find(pattern, from)]; [None] is [npos]. *)
Definition find (pattern : string) (from : nat) (s : string) : option nat :=
  String.index from pattern s.

(** The member set by the constructor. *)
Definition logger_ : ModuleLogger.t := ModuleLogger.mk "WEBAPI".

Definition logLevelToString (level : LogLevel) : string :=
  match level with
  | TRACE => "TRACE"
  | DEBUG => "DEBUG"
  | INFO => "INFO"
  | WARN => "WARN"
  | ERROR => "ERROR"
  | CRITICAL => "CRITICAL"
  end.

Definition stringToLogLevel (level_str : string) : LogLevel :=
  if decide (level_str = "TRACE") then TRACE
  else if decide (level_str = "DEBUG") then DEBUG
  else if decide (level_str = "INFO") then INFO
  else if decide (level_str = "WARN") then WARN
  else if decide (level_str = "ERROR") then ERROR
  else if decide (level_str = "CRITICAL") then CRITICAL
  else INFO.

Definition status_text (status_code : Z) : string :=
  if status_code =? 200 then "OK"
  else if status_code =? 400 then "Bad Request"
  else if status_code =? 404 then "Not Found"
  else if status_code =? 500 then "Internal Server Error"
  else "Unknown".

Definition createJsonResponse (status_code : Z) (json_body : string) : string :=
  "HTTP/1.1 " +:+ pretty status_code +:+ " " +:+ status_text status_code +:+ crlf +:+
  "Content-Type: application/json" +:+ crlf +:+
  "Content-Length: " +:+ pretty (Z.of_nat (String.length json_body)) +:+ crlf +:+
  "Access-Control-Allow-Origin: *" +:+ crlf +:+
  "Connection: close" +:+ crlf +:+
  crlf +:+
  json_body.

(** The key looked for in the body of a POST: the word level in double
    quotes, followed by a colon. *)
Definition level_key : string := dq +:+ "level" +:+ dq +:+ ":".

(** The parsing block of the POST branch; [start + 1] wraps to zero when
    [start] is [npos]. *)
Definition parse_level (body : string) : string :=
  match find level_key 0 body with
  | None => ""
  | Some pos =>
      let start := find dq (pos + 8) body in
      let end_ := find dq (match start with Some st => st + 1 | None => 0 end) body in
      match start, end_ with
      | Some st, Some en => String.substring (st + 1) (en - st - 1) body
      | _, _ => ""
      end
  end%nat.

(** The JSON text of the GET branch. *)
Definition level_json (level_str : string) : string :=
  "{" +:+
  dq +:+ "current_level" +:+ dq +:+ ":" +:+ dq +:+ level_str +:+ dq +:+ "," +:+
  dq +:+ "available_levels" +:+ dq +:+ ":[" +:+
  dq +:+ "TRACE" +:+ dq +:+ "," +:+ dq +:+ "DEBUG" +:+ dq +:+ "," +:+
  dq +:+ "INFO" +:+ dq +:+ "," +:+ dq +:+ "WARN" +:+ dq +:+ "," +:+
  dq +:+ "ERROR" +:+ dq +:+ "," +:+ dq +:+ "CRITICAL" +:+ dq +:+ "]" +:+
  "}".

(** The JSON text of the POST branch. *)
Definition changed_json (level_str : string) : string :=
  "{" +:+
  dq +:+ "message" +:+ dq +:+ ":" +:+ dq +:+ "Log level changed to " +:+ level_str +:+
    dq +:+ "," +:+
  dq +:+ "new_level" +:+ dq +:+ ":" +:+ dq +:+ level_str +:+ dq +:+
  "}".

Definition not_allowed_json : string :=
  "{" +:+ dq +:+ "error" +:+ dq +:+ ":" +:+ dq +:+ "Method not allowed" +:+ dq +:+ "}".

(** The response and the logger afterwards. *)
Definition handleLogLevelRequest (thread_id worker_id : string)
    (method body : string) (lg : Logger) : option (string * Logger) :=
  if decide (method = "GET") then
    let current_level := getLogLevel lg in
    let level_str := logLevelToString current_level in
    Some (createJsonResponse 200 (level_json level_str), lg)
  else if decide (method = "POST") then
    let level_str := parse_level body in
    let new_level := stringToLogLevel level_str in
    let lg1 := setLogLevel new_level lg in
    match ModuleLogger.info thread_id worker_id logger_
            ("Log level changed to: " +:+ level_str) lg1 with
    | Some lg2 => Some (createJsonResponse 200 (changed_json level_str), lg2)
    | None => None
    end
  else Some (createJsonResponse 400 not_allowed_json, lg).

(** Whether the character occurs in the text. *)
Fixpoint has_char (c : ascii) (s : string) : bool :=
  match s with
  | EmptyString => false
  | String a s' => Ascii.eqb a c || has_char c s'
  end.

(** A body of the documented shape: the key, then the level name in double
    quotes, with texts around that hold no double quote. *)
Definition level_body (before between level_str rest : string) : string :=
  before +:+ level_key +:+ between +:+ dq +:+ level_str +:+ dq +:+ rest.

End WebApiServer.

(** ** The two mutexes

    [writeLogMessage] runs under [log_mutex] and, when it rotates, calls
    [logMessage], which takes [queue_mutex]; [flush] takes [queue_mutex]
    and then, still holding it, [log_mutex].  The moves of the worker from
    the call of [writeLogMessage] back to the inner loop condition, and
    those of a thread inside [flush], are given here lock by lock. *)

(** [rotateLogFile] up to the call of [logMessage]. *)
Definition rotate_reopen (s : Impl) : Impl :=
  let s1 := emit [EFileClose] (set_file_open false s) in
  let '(f, ok) := rotate_files (log_file_path s1) (max_backup_files s1) (fs (world s1)) in
  let s2 := set_fs f s1 in
  let s3 := if ok then s2 else emit [ECerr DiagRotationFailed] s2 in
  openLogFile s3.

Inductive Who := Worker | Flusher.

(** Where the worker stands between the call of [writeLogMessage] and the
    inner loop condition. *)
Inductive WritePc :=
| WEnter (message : string)   (* at lock_guard lock(log_mutex) *)
| WWrite (message : string)   (* log_mutex held, nothing written yet *)
| WRotate                     (* needsRotation() was true *)
| WPush (record : string)     (* in logMessage, at lock_guard lock(queue_mutex) *)
| WLeave                      (* log_mutex released, at lock.lock() *)
| WInner.                     (* queue_mutex held, at the inner loop condition *)

(** Where the other thread stands in [flush]. *)
Inductive FlushPc :=
| FEnter      (* at unique_lock lock(queue_mutex) *)
| FWait       (* in wait_for, queue_mutex held, looking at the predicate *)
| FSleep      (* in wait_for, queue_mutex released *)
| FLockLog    (* wait_for has returned, at lock_guard file_lock(log_mutex) *)
| FFlush      (* both mutexes held *)
| FDone.

Record Sys := mkSys {
  engine : Impl;
  queue_mutex : option Who;
  log_mutex : option Who;
  writer : WritePc;
  flusher : FlushPc
}.

Definition free (m : option Who) : bool :=
  match m with None => true | Some _ => false end.

(** One move of the worker, [thread_id] being its id. *)
Definition writer_step (thread_id : string) (y : Sys) : option Sys :=
  match writer y with
  | WEnter message =>
      if free (log_mutex y)
      then Some (mkSys (engine y) (queue_mutex y) (Some Worker) (WWrite message) (flusher y))
      else None
  | WWrite message =>
      let s := engine y in
      let s2 := write_targets message s in
      if target_has_file (log_target s) && log_file s && needsRotation s2
      then Some (mkSys s2 (queue_mutex y) (log_mutex y) WRotate (flusher y))
      else Some (mkSys s2 (queue_mutex y) None WLeave (flusher y))
  | WRotate =>
      let s3 := rotate_reopen (engine y) in
      if level_lt INFO (current_log_level s3)
      then Some (mkSys s3 (queue_mutex y) None WLeave (flusher y))
      else
        let '(now, s4) := read_clock s3 in
        Some (mkSys s4 (queue_mutex y) (log_mutex y)
                (WPush (formatLogMessage now thread_id INFO "LOGGER" "Log file rotated"))
                (flusher y))
  | WPush record =>
      if free (queue_mutex y)
      then Some (mkSys (emit [ENotifyOne]
                          (set_queue (log_queue (engine y) ++ [record]) (engine y)))
                   None None WLeave (flusher y))
      else None
  | WLeave =>
      if free (queue_mutex y)
      then Some (mkSys (set_pc PcInner (engine y)) (Some Worker) (log_mutex y)
                   WInner (flusher y))
      else None
  | WInner => None
  end.

(** One move of the thread in [flush]. *)
Definition flusher_step (y : Sys) : option Sys :=
  match flusher y with
  | FEnter =>
      if free (queue_mutex y)
      then Some (mkSys (engine y) (Some Flusher) (log_mutex y) (writer y) FWait)
      else None
  | FWait =>
      if flush_wait_pred (engine y)
      then Some (mkSys (engine y) (queue_mutex y) (log_mutex y) (writer y) FLockLog)
      else Some (mkSys (engine y) None (log_mutex y) (writer y) FSleep)
  | FSleep =>
      if free (queue_mutex y)
      then Some (mkSys (engine y) (Some Flusher) (log_mutex y) (writer y) FWait)
      else None
  | FLockLog =>
      if free (log_mutex y)
      then Some (mkSys (engine y) (queue_mutex y) (Some Flusher) (writer y) FFlush)
      else None
  | FFlush =>
      Some (mkSys (if log_file (engine y) then emit [EFileFlush] (engine y) else engine y)
              None None (writer y) FDone)
  | FDone => None
  end.

(** The timeout of [wait_for]: the mutex is taken again and the wait is over. *)
Definition flusher_timeout (y : Sys) : option Sys :=
  match flusher y with
  | FSleep =>
      if free (queue_mutex y)
      then Some (mkSys (engine y) (Some Flusher) (log_mutex y) (writer y) FLockLog)
      else None
  | _ => None
  end.

Inductive lstep (thread_id : string) : Sys -> Sys -> Prop :=
| lstep_writer y y' : writer_step thread_id y = Some y' -> lstep thread_id y y'
| lstep_flusher y y' : flusher_step y = Some y' -> lstep thread_id y y'
| lstep_timeout y y' : flusher_timeout y = Some y' -> lstep thread_id y y'.

Inductive lsteps (thread_id : string) : Sys -> Sys -> Prop :=
| lsteps_refl y : lsteps thread_id y y
| lsteps_step y1 y2 y3 :
    lstep thread_id y1 y2 -> lsteps thread_id y2 y3 -> lsteps thread_id y1 y3.

(** No thread can move. *)
Definition blocked (thread_id : string) (y : Sys) : Prop :=
  forall y', ~ lstep thread_id y y'.

(** Who holds each mutex, read off the two positions. *)
Definition log_holder (w : WritePc) (f : FlushPc) : option Who :=
  match w with
  | WWrite _ | WRotate | WPush _ => Some Worker
  | _ => match f with FFlush => Some Flusher | _ => None end
  end.

Definition queue_holder (w : WritePc) (f : FlushPc) : option Who :=
  match w with
  | WInner => Some Worker
  | _ => match f with FWait | FLockLog | FFlush => Some Flusher | _ => None end
  end.

(** No mutex has two holders. *)
Definition exclusive (w : WritePc) (f : FlushPc) : bool :=
  match w, f with
  | (WWrite _ | WRotate | WPush _), FFlush => false
  | WInner, (FWait | FLockLog | FFlush) => false
  | _, _ => true
  end.

(** What holds in every state the two threads reach from an engine [s]. *)
Definition locks_inv (s : Impl) (y : Sys) : Prop :=
  log_mutex y = log_holder (writer y) (flusher y) /\
  queue_mutex y = queue_holder (writer y) (flusher y) /\
  exclusive (writer y) (flusher y) = true /\
  current_log_level (engine y) = current_log_level s /\
  log_target (engine y) = log_target s /\
  match writer y with
  | WRotate => target_has_file (log_target s) = true
  | WPush _ =>
      target_has_file (log_target s) = true /\
      level_lt INFO (current_log_level s) = false
  | _ => True
  end.

(** At most [n] moves of the worker alone. *)
Fixpoint writer_steps (thread_id : string) (n : nat) (y : Sys) : Sys :=
  match n with
  | O => y
  | S n' => match writer_step thread_id y with
            | Some y' => writer_steps thread_id n' y'
            | None => y
            end
  end.

(** A file-only engine with a ceiling of zero bytes whose worker has
    popped the only record of the queue. *)
Definition last_record_engine : Impl :=
  worker_steps 3
    (logMessage "main" INFO "APP" "hello"
       (set_level INFO (started (demo_world ∅ ∅) WARN FILE "logs/app.log" 0 5))).

Definition last_record : string :=
  formatLogMessage demo_now "main" INFO "APP" "hello".



(** * Properties *)

(** ** The formatter *)

Lemma logLevelToString_literal level :
  logLevelToString level ∈ ["TRACE"; "DEBUG"; "INFO"; "WARN"; "ERROR"; "CRITICAL"].
Proof. destruct level; simpl; set_solver. Qed.

Lemma string_app_nil_l (s : string) : "" +:+ s = s.
Proof. reflexivity. Qed.

Lemma string_app_cons (c : ascii) (s1 s2 : string) :
  String c s1 +:+ s2 = String c (s1 +:+ s2).
Proof. reflexivity. Qed.

Lemma string_app_length (s1 s2 : string) :
  String.length (s1 +:+ s2) = (String.length s1 + String.length s2)%nat.
Proof.
  induction s1 as [|c s1 IH]; [done|].
  rewrite string_app_cons. simpl. by rewrite IH.
Qed.

Lemma string_app_assoc (s1 s2 s3 : string) :
  (s1 +:+ s2) +:+ s3 = s1 +:+ (s2 +:+ s3).
Proof.
  induction s1 as [|c s1 IH]; [done|].
  rewrite !string_app_cons. by rewrite IH.
Qed.

Lemma repeat_char_length n c : String.length (Stream.repeat_char n c) = n.
Proof. induction n as [|n IH]; simpl; [done | by rewrite IH]. Qed.

Lemma pad_length c w s :
  String.length (Stream.pad c w s) = Nat.max w (String.length s).
Proof.
  unfold Stream.pad. rewrite string_app_length, repeat_char_length. lia.
Qed.

Lemma pad_zero c s : Stream.pad c 0 s = s.
Proof. unfold Stream.pad. rewrite Nat.sub_0_l. reflexivity. Qed.

Lemma formatLogMessage_unfold now tid level module message :
  formatLogMessage now tid level module message =
  put_time (local_time now) +:+ "." +:+
  Stream.pad "0"%char 3 (pretty (ms_count now)) +:+
  " [" +:+ tid +:+ "] [" +:+
  Stream.pad "0"%char 8 (logLevelToString level) +:+ "] [" +:+
  Stream.pad "0"%char 15 module +:+ "] " +:+ message.
Proof.
  unfold formatLogMessage.
  cbn [Stream.str Stream.put Stream.setw Stream.setfill Stream.init Stream.buf].
  rewrite !pad_zero, string_app_nil_l, !string_app_assoc.
  reflexivity.
Qed.

(** C7 (as amended). The formatter yields the fields in the fixed order
    time stamp, milliseconds on three zero-filled columns, thread id,
    level, module, message.  The level name is one of the six literals.
    The level field is at least 8 wide and the module field at least 15
    wide, and in both the padding comes before the text: the text is
    flush right, and a longer text is kept whole. *)
Theorem formatLogMessage_layout now tid level module message :
  exists level_field module_field level_padding module_padding,
    formatLogMessage now tid level module message =
      put_time (local_time now) +:+ "." +:+
      Stream.pad "0"%char 3 (pretty (ms_count now)) +:+
      " [" +:+ tid +:+ "] [" +:+ level_field +:+ "] [" +:+
      module_field +:+ "] " +:+ message /\
    level_field = level_padding +:+ logLevelToString level /\
    String.length level_field = Nat.max 8 (String.length (logLevelToString level)) /\
    module_field = module_padding +:+ module /\
    String.length module_field = Nat.max 15 (String.length module) /\
    logLevelToString level ∈ ["TRACE"; "DEBUG"; "INFO"; "WARN"; "ERROR"; "CRITICAL"].
Proof.
  exists (Stream.pad "0"%char 8 (logLevelToString level)),
         (Stream.pad "0"%char 15 module),
         (Stream.repeat_char (8 - String.length (logLevelToString level)) "0"%char),
         (Stream.repeat_char (15 - String.length module) "0"%char).
  split; [apply formatLogMessage_unfold|].
  split; [reflexivity|].
  split; [apply pad_length|].
  split; [reflexivity|].
  split; [apply pad_length|].
  apply logLevelToString_literal.
Qed.

(** C7, the claim as worded fails: the fill character set for the
    milliseconds stays in force, and the padding precedes the text. *)
Lemma formatLogMessage_not_right_padded :
  formatLogMessage demo_now "140" INFO "LOGGER" "x" =
    "2024-01-02 03:04:05.006 [140] [0000INFO] [000000000LOGGER] x" /\
  spec_formatLogMessage demo_now "140" INFO "LOGGER" "x" =
    "2024-01-02 03:04:05.006 [140] [INFO    ] [LOGGER         ] x" /\
  formatLogMessage demo_now "140" INFO "LOGGER" "x" <>
    spec_formatLogMessage demo_now "140" INFO "LOGGER" "x".
Proof.
  split; [by vm_compute|]. split; [by vm_compute|].
  intros H. vm_compute in H. discriminate H.
Qed.

Opaque formatLogMessage.

(** ** What each operation leaves alone *)

Lemma same_setup_refl s : same_setup s s.
Proof. by unfold same_setup. Qed.

Lemma same_setup_trans s1 s2 s3 :
  same_setup s1 s2 -> same_setup s2 s3 -> same_setup s1 s3.
Proof. unfold same_setup. intuition congruence. Qed.

Lemma quiet_app es1 es2 : quiet es1 -> quiet es2 -> quiet (es1 ++ es2).
Proof. unfold quiet. apply Forall_app_2. Qed.

Lemma quiet_no_output es : quiet es -> no_output es.
Proof. unfold quiet, no_output. intros H. eapply Forall_impl; [exact H|]. by intros e [? _]. Qed.

Lemma quiet_no_lifecycle es : quiet es -> no_lifecycle es.
Proof. unfold quiet, no_lifecycle. intros H. eapply Forall_impl; [exact H|]. by intros e [_ ?]. Qed.

Lemma no_output_omap {A} (f : Event -> option A) es :
  (forall e, is_output e = false -> f e = None) ->
  no_output es -> omap f es = [].
Proof.
  intros Hf. induction 1 as [|e es He _ IH]; [done|].
  change (omap f (e :: es))
    with (match f e with Some y => y :: omap f es | None => omap f es end).
  by rewrite (Hf e He).
Qed.

Lemma quiet_written es : quiet es -> omap written es = [].
Proof. intros H. apply no_output_omap; [by intros [] | by apply quiet_no_output]. Qed.

Lemma quiet_console es : quiet es -> omap console_line es = [].
Proof. intros H. apply no_output_omap; [by intros [] | by apply quiet_no_output]. Qed.

Lemma quiet_file es : quiet es -> omap file_line es = [].
Proof. intros H. apply no_output_omap; [by intros [] | by apply quiet_no_output]. Qed.

Lemma logMessage_below tid level module message s :
  level_lt level (current_log_level s) = true ->
  logMessage tid level module message s = s.
Proof. intros H. unfold logMessage. by rewrite H. Qed.

Lemma logMessage_queue tid level module message s :
  log_queue (logMessage tid level module message s) =
  log_queue s ++ enqueued_by tid level module message s.
Proof.
  unfold logMessage, enqueued_by, record_of.
  destruct (level_lt level (current_log_level s)); simpl.
  - by rewrite app_nil_r.
  - reflexivity.
Qed.

Lemma logMessage_frame tid level module message s :
  same_setup s (logMessage tid level module message s) /\
  current_log_level (logMessage tid level module message s) = current_log_level s /\
  log_file (logMessage tid level module message s) = log_file s /\
  logging_thread (logMessage tid level module message s) = logging_thread s /\
  should_stop (logMessage tid level module message s) = should_stop s /\
  fs (world (logMessage tid level module message s)) = fs (world s).
Proof.
  unfold logMessage, same_setup.
  destruct (level_lt level (current_log_level s)); simpl; repeat split; reflexivity.
Qed.

Lemma logMessage_events tid level module message s :
  exists es,
    events (world (logMessage tid level module message s)) = events (world s) ++ es /\
    quiet es.
Proof.
  unfold logMessage.
  destruct (level_lt level (current_log_level s)); simpl.
  - exists []. split; [by rewrite app_nil_r | constructor].
  - exists [ENotifyOne]. split; [done | by repeat constructor].
Qed.

Lemma openLogFile_frame s :
  same_setup s (openLogFile s) /\
  current_log_level (openLogFile s) = current_log_level s /\
  log_queue (openLogFile s) = log_queue s /\
  logging_thread (openLogFile s) = logging_thread s /\
  should_stop (openLogFile s) = should_stop s /\
  clock (world (openLogFile s)) = clock (world s) /\
  clock_reads (world (openLogFile s)) = clock_reads (world s).
Proof.
  unfold openLogFile, same_setup, Fs.create_directories, Fs.open_append.
  repeat (case_decide || case_match); simplify_eq; simpl; repeat split; reflexivity.
Qed.

Lemma openLogFile_events s :
  exists es, events (world (openLogFile s)) = events (world s) ++ es /\ quiet es.
Proof.
  unfold openLogFile, Fs.create_directories, Fs.open_append.
  case_decide; simpl.
  { eexists. split; [done | by repeat constructor]. }
  destruct (log_file s); simpl.
  { exists []. split; [by rewrite app_nil_r | constructor]. }
  case_decide; simpl.
  { eexists. split; [done | by repeat constructor]. }
  destruct (Fs.files (fs (world s)) !! log_file_path s); simpl;
    eexists; (split; [done | by repeat constructor]).
Qed.

(** Reopening succeeds on a path without faults; a new file is empty and an
    existing one keeps its content. *)
Lemma openLogFile_ok s :
  log_file s = false ->
  log_file_path s ∉ Fs.denied (fs (world s)) ->
  log_file_path s ∉ Fs.no_parent (fs (world s)) ->
  log_file (openLogFile s) = true /\
  Fs.files (fs (world (openLogFile s))) !! log_file_path s =
    Some (default [] (Fs.files (fs (world s)) !! log_file_path s)).
Proof.
  intros Hc Hd Hp.
  unfold openLogFile, Fs.create_directories, Fs.open_append.
  rewrite decide_False by done. rewrite Hc.
  cbn [Fs.denied Fs.files Fs.with_dirs].
  rewrite decide_False by done.
  destruct (Fs.files (fs (world s)) !! log_file_path s) eqn:E; simpl.
  - by rewrite E.
  - by rewrite lookup_insert_eq.
Qed.

Lemma openLogFile_other s q :
  q <> log_file_path s ->
  Fs.files (fs (world (openLogFile s))) !! q = Fs.files (fs (world s)) !! q.
Proof.
  intros Hq. unfold openLogFile, Fs.create_directories, Fs.open_append.
  repeat (case_decide || case_match); simplify_eq; simpl; try done.
  by rewrite lookup_insert_ne.
Qed.

Lemma openLogFile_keeps s q c :
  Fs.files (fs (world s)) !! q = Some c ->
  Fs.files (fs (world (openLogFile s))) !! q = Some c.
Proof.
  intros Hq. unfold openLogFile, Fs.create_directories, Fs.open_append.
  repeat (case_decide || case_match); simplify_eq; simpl in *; try done.
  rewrite lookup_insert_ne; [done|]. intros <-. congruence.
Qed.

(** The directories above the file exist afterwards, whether the file can
    be opened or not. *)
Lemma openLogFile_dirs s :
  log_file_path s ∉ Fs.no_parent (fs (world s)) ->
  Fs.dirs (fs (world (openLogFile s))) =
    Fs.dirs (fs (world s)) ∪
    list_to_set (Fs.directory_chain (Fs.parent_path (log_file_path s))).
Proof.
  intros Hp. unfold openLogFile, Fs.create_directories, Fs.open_append.
  rewrite decide_False by done.
  destruct (log_file s); [done|].
  cbn [Fs.denied Fs.files Fs.with_dirs fs world set_fs set_world].
  case_decide; [done|].
  by destruct (Fs.files (fs (world s)) !! log_file_path s).
Qed.

(** A path without a parent: [create_directories] throws, nothing is
    created or opened and the exception is reported. *)
Lemma openLogFile_no_parent s :
  log_file_path s ∈ Fs.no_parent (fs (world s)) ->
  log_file (openLogFile s) = log_file s /\
  fs (world (openLogFile s)) = fs (world s) /\
  cerr_lines (openLogFile s) = cerr_lines s ++ [DiagOpenException].
Proof.
  intros Hp. unfold openLogFile, Fs.create_directories, cerr_lines.
  rewrite decide_True by done. simpl. by rewrite omap_app.
Qed.

(** The directories can be created but the file cannot be opened. *)
Lemma openLogFile_refused s :
  log_file s = false ->
  log_file_path s ∉ Fs.no_parent (fs (world s)) ->
  log_file_path s ∈ Fs.denied (fs (world s)) ->
  log_file (openLogFile s) = false /\
  Fs.files (fs (world (openLogFile s))) = Fs.files (fs (world s)) /\
  cerr_lines (openLogFile s) = cerr_lines s ++ [DiagOpenFailed (log_file_path s)].
Proof.
  intros Hc Hp Hd. unfold openLogFile, Fs.create_directories, Fs.open_append, cerr_lines.
  rewrite decide_False by done. rewrite Hc.
  cbn [Fs.denied Fs.files Fs.with_dirs].
  rewrite decide_True by done. simpl. by rewrite omap_app.
Qed.

Lemma openLogFile_succeeds_quietly s :
  log_file s = false ->
  log_file_path s ∉ Fs.denied (fs (world s)) ->
  log_file_path s ∉ Fs.no_parent (fs (world s)) ->
  cerr_lines (openLogFile s) = cerr_lines s.
Proof.
  intros Hc Hd Hp. unfold openLogFile, Fs.create_directories, Fs.open_append, cerr_lines.
  rewrite decide_False by done. rewrite Hc.
  cbn [Fs.denied Fs.files Fs.with_dirs].
  rewrite decide_False by done.
  destruct (Fs.files (fs (world s)) !! log_file_path s); simpl;
    rewrite omap_app; simpl; by rewrite app_nil_r.
Qed.

(** ** Rotation *)

Lemma backup_path_ne path i : backup_path path i <> path.
Proof.
  unfold backup_path. intros H.
  apply (f_equal String.length) in H.
  rewrite !string_app_length in H. simpl in H. lia.
Qed.

Lemma rotate_backups_S path last k f :
  rotate_backups path last (S k) f =
  let i := Z.of_nat (S k) in
  match Fs.exists_ (backup_path path i) f with
  | None => (f, false)
  | Some false => rotate_backups path last k f
  | Some true =>
      if i =? last then
        match Fs.remove (backup_path path i) f with
        | Some f' => rotate_backups path last k f'
        | None => (f, false)
        end
      else
        match Fs.rename (backup_path path i) (backup_path path (i + 1)) f with
        | Some f' => rotate_backups path last k f'
        | None => (f, false)
        end
  end.
Proof. reflexivity. Qed.

Lemma remove_spec p f f' :
  Fs.remove p f = Some f' ->
  Fs.denied f' = Fs.denied f /\ Fs.no_parent f' = Fs.no_parent f /\
  Fs.files f' = delete p (Fs.files f).
Proof. unfold Fs.remove. case_decide; [done|]. by intros [= <-]. Qed.

Lemma rename_spec old new f f' :
  Fs.rename old new f = Some f' ->
  Fs.denied f' = Fs.denied f /\ Fs.no_parent f' = Fs.no_parent f /\
  exists c, Fs.files f !! old = Some c /\
            Fs.files f' = <[new := c]> (delete old (Fs.files f)).
Proof.
  unfold Fs.rename. repeat case_decide; try done.
  destruct (Fs.files f !! old) as [c|] eqn:E; [|done].
  intros [= <-]. simpl. eauto.
Qed.

Lemma rename_ok old new f c :
  Fs.denied f = ∅ -> Fs.files f !! old = Some c ->
  Fs.rename old new f =
    Some (Fs.with_files (<[new := c]> (delete old (Fs.files f))) f).
Proof.
  intros Hd Hc. unfold Fs.rename. rewrite Hd, Hc.
  rewrite !decide_False by set_solver. reflexivity.
Qed.

(** The loop keeps the faults and the active file, and without faults it
    runs to its end. *)
Lemma rotate_backups_spec path last k : forall f f' ok,
  rotate_backups path last k f = (f', ok) ->
  Fs.denied f' = Fs.denied f /\ Fs.no_parent f' = Fs.no_parent f /\
  Fs.files f' !! path = Fs.files f !! path /\
  (Fs.denied f = ∅ -> ok = true).
Proof.
  induction k as [|k IH]; intros f f' ok.
  { simpl. by intros [= <- <-]. }
  rewrite rotate_backups_S. cbv zeta.
  unfold Fs.exists_. case_decide as Hden.
  { intros [= <- <-]. repeat split; try done. intros E. rewrite E in Hden. set_solver. }
  case_bool_decide as Hex.
  2:{ apply IH. }
  destruct Hex as [c Hc].
  destruct (Z.of_nat (S k) =? last).
  - destruct (Fs.remove _ f) as [f1|] eqn:Hrm.
    + destruct (remove_spec _ _ _ Hrm) as (Hd1 & Hp1 & Hf1).
      intros Hrec. destruct (IH _ _ _ Hrec) as (Hd & Hp & Hf & Hok).
      split; [congruence|]. split; [congruence|].
      split; [|intros E; apply Hok; congruence].
      rewrite Hf, Hf1. apply lookup_delete_ne, backup_path_ne.
    + unfold Fs.remove in Hrm. by rewrite decide_False in Hrm.
  - destruct (Fs.rename _ _ f) as [f1|] eqn:Hrn.
    + destruct (rename_spec _ _ _ _ Hrn) as (Hd1 & Hp1 & c' & Hc' & Hf1).
      intros Hrec. destruct (IH _ _ _ Hrec) as (Hd & Hp & Hf & Hok).
      split; [congruence|]. split; [congruence|].
      split; [|intros E; apply Hok; congruence].
      rewrite Hf, Hf1.
      rewrite lookup_insert_ne by apply backup_path_ne.
      apply lookup_delete_ne, backup_path_ne.
    + intros [= <- <-]. repeat split; try done.
      intros E. by rewrite (rename_ok _ _ _ _ E Hc) in Hrn.
Qed.

(** Without faults the whole [try] block succeeds: the active file has
    become the first backup and its path is free. *)
Lemma rotate_files_ok path n f c :
  Fs.denied f = ∅ -> Fs.files f !! path = Some c ->
  exists f',
    rotate_files path n f = (f', true) /\
    Fs.denied f' = ∅ /\ Fs.no_parent f' = Fs.no_parent f /\
    Fs.files f' !! path = None /\
    Fs.files f' !! backup_path path 1 = Some c.
Proof.
  intros Hd Hc. unfold rotate_files.
  destruct (rotate_backups path _ _ f) as [f1 ok] eqn:Hrb.
  destruct (rotate_backups_spec _ _ _ _ _ _ Hrb) as (Hd1 & Hp1 & Hf1 & Hok).
  rewrite (Hok Hd).
  assert (Hc1 : Fs.files f1 !! path = Some c) by congruence.
  assert (Hd1' : Fs.denied f1 = ∅) by congruence.
  rewrite (rename_ok _ _ _ _ Hd1' Hc1).
  eexists. split; [reflexivity|]. simpl.
  repeat split; try done.
  - rewrite lookup_insert_ne by (intros E; by apply (backup_path_ne path 1)).
    apply lookup_delete_eq.
  - apply lookup_insert_eq.
Qed.

Lemma rotate_files_faults path n f f' ok :
  rotate_files path n f = (f', ok) ->
  Fs.denied f' = Fs.denied f /\ Fs.no_parent f' = Fs.no_parent f.
Proof.
  unfold rotate_files.
  destruct (rotate_backups path _ _ f) as [f1 ok1] eqn:Hrb.
  destruct (rotate_backups_spec _ _ _ _ _ _ Hrb) as (Hd1 & Hp1 & _ & _).
  destruct ok1.
  - destruct (Fs.rename _ _ f1) as [f2|] eqn:Hrn.
    + destruct (rename_spec _ _ _ _ Hrn) as (Hd2 & Hp2 & _).
      intros [= <- <-]. split; congruence.
    + by intros [= <- <-].
  - by intros [= <- <-].
Qed.

Lemma rotateLogFile_frame tid s :
  same_setup s (rotateLogFile tid s) /\
  current_log_level (rotateLogFile tid s) = current_log_level s /\
  logging_thread (rotateLogFile tid s) = logging_thread s /\
  should_stop (rotateLogFile tid s) = should_stop s /\
  (exists added, log_queue (rotateLogFile tid s) = log_queue s ++ added) /\
  (exists es, events (world (rotateLogFile tid s)) = events (world s) ++ es /\ quiet es).
Proof.
  unfold rotateLogFile.
  set (s1 := emit [EFileClose] (set_file_open false s)).
  destruct (rotate_files (log_file_path s1) (max_backup_files s1) (fs (world s1)))
    as [f ok] eqn:Hrf.
  destruct (rotate_files_faults _ _ _ _ _ Hrf) as [Hd Hp].
  set (s3 := if ok then set_fs f s1 else emit [ECerr DiagRotationFailed] (set_fs f s1)).
  assert (H3 : same_setup s s3 /\
               current_log_level s3 = current_log_level s /\
               logging_thread s3 = logging_thread s /\
               should_stop s3 = should_stop s /\
               log_queue s3 = log_queue s /\
               exists es, events (world s3) = events (world s) ++ es /\ quiet es).
  { subst s3 s1. unfold same_setup. simpl in Hd, Hp.
    destruct ok; simpl; split_and!; try done;
      eexists; (split; [rewrite <- ?app_assoc; reflexivity | repeat constructor]). }
  destruct H3 as (Hs3 & Hl3 & Ht3 & Hst3 & Hq3 & es3 & He3 & Hqu3).
  destruct (openLogFile_frame s3) as (Hs4 & Hl4 & Hq4 & Ht4 & Hst4 & _).
  destruct (openLogFile_events s3) as (es4 & He4 & Hqu4).
  set (s4 := openLogFile s3) in *.
  destruct (logMessage_frame tid INFO "LOGGER" "Log file rotated" s4)
    as (Hs5 & Hl5 & _ & Ht5 & Hst5 & _).
  destruct (logMessage_events tid INFO "LOGGER" "Log file rotated" s4)
    as (es5 & He5 & Hqu5).
  pose proof (logMessage_queue tid INFO "LOGGER" "Log file rotated" s4) as Hq5.
  split; [eauto using same_setup_trans|].
  split; [congruence|]. split; [congruence|]. split; [congruence|].
  split.
  - eexists. rewrite Hq5, Hq4, Hq3. reflexivity.
  - exists (es3 ++ es4 ++ es5). split.
    + rewrite He5, He4, He3. by rewrite <- !app_assoc.
    + auto using quiet_app.
Qed.

(** A rotation reopens the active file whenever its path has no fault,
    even when the renaming failed. *)
Lemma rotateLogFile_reopens tid s :
  log_file_path s ∉ Fs.denied (fs (world s)) ->
  log_file_path s ∉ Fs.no_parent (fs (world s)) ->
  log_file (rotateLogFile tid s) = true.
Proof.
  intros Hnd Hnp. unfold rotateLogFile.
  set (s1 := emit [EFileClose] (set_file_open false s)).
  destruct (rotate_files (log_file_path s1) (max_backup_files s1) (fs (world s1)))
    as [f ok] eqn:Hrf.
  destruct (rotate_files_faults _ _ _ _ _ Hrf) as [Hd Hp].
  set (s3 := if ok then set_fs f s1 else emit [ECerr DiagRotationFailed] (set_fs f s1)).
  assert (H3 : log_file s3 = false /\ log_file_path s3 = log_file_path s /\
               fs (world s3) = f).
  { subst s3 s1. destruct ok; simpl; done. }
  destruct H3 as (Hc3 & Hpath3 & Hfs3).
  destruct (logMessage_frame tid INFO "LOGGER" "Log file rotated" (openLogFile s3))
    as (_ & _ & -> & _).
  apply openLogFile_ok; [done | |]; rewrite Hpath3, Hfs3.
  - by rewrite Hd.
  - by rewrite Hp.
Qed.

(** Without faults a rotation moves the active file to the first backup
    and starts an empty active file. *)
Lemma rotateLogFile_ok tid s c :
  Fs.denied (fs (world s)) = ∅ ->
  log_file_path s ∉ Fs.no_parent (fs (world s)) ->
  Fs.files (fs (world s)) !! log_file_path s = Some c ->
  Fs.files (fs (world (rotateLogFile tid s))) !! log_file_path s = Some [] /\
  Fs.files (fs (world (rotateLogFile tid s))) !! backup_path (log_file_path s) 1 = Some c.
Proof.
  intros Hd Hnp Hc. unfold rotateLogFile.
  set (s1 := emit [EFileClose] (set_file_open false s)).
  destruct (rotate_files_ok (log_file_path s) (max_backup_files s) _ _ Hd Hc)
    as (f' & Hrf & Hd' & Hp' & Hgone & Hb1).
  change (rotate_files (log_file_path s1) (max_backup_files s1) (fs (world s1)))
    with (rotate_files (log_file_path s) (max_backup_files s) (fs (world s))).
  rewrite Hrf.
  set (s3 := set_fs f' s1).
  destruct (logMessage_frame tid INFO "LOGGER" "Log file rotated" (openLogFile s3))
    as (_ & _ & _ & _ & _ & ->).
  destruct (openLogFile_ok s3) as [_ Hfile].
  { done. }
  { change (log_file_path s3) with (log_file_path s).
    change (fs (world s3)) with f'. rewrite Hd'. set_solver. }
  { change (log_file_path s3) with (log_file_path s).
    change (fs (world s3)) with f'. by rewrite Hp'. }
  change (log_file_path s3) with (log_file_path s) in Hfile.
  change (fs (world s3)) with f' in Hfile.
  split.
  - by rewrite Hfile, Hgone.
  - rewrite openLogFile_other by apply backup_path_ne.
    exact Hb1.
Qed.

(** ** Writing one record *)

Lemma content_bytes_app c1 c2 :
  Fs.content_bytes (c1 ++ c2) = Fs.content_bytes c1 + Fs.content_bytes c2.
Proof.
  unfold Fs.content_bytes. induction c1 as [|l c1 IH]; simpl; [done|].
  rewrite IH. lia.
Qed.

Lemma content_bytes_nonneg c : 0 <= Fs.content_bytes c.
Proof.
  unfold Fs.content_bytes, Fs.line_bytes. induction c as [|l c IH]; simpl; lia.
Qed.

Lemma writeLogMessage_file tid message s :
  target_has_file (log_target s) = true -> log_file s = true ->
  writeLogMessage tid message s =
  if needsRotation (after_write message s)
  then rotateLogFile tid (after_write message s)
  else after_write message s.
Proof.
  intros Hf Ho. unfold writeLogMessage, after_write.
  destruct (target_has_console (log_target s)) eqn:Hc; simpl;
    rewrite Hc; simpl; rewrite Hf, Ho; reflexivity.
Qed.

Lemma writeLogMessage_no_file tid message s :
  target_has_file (log_target s) && log_file s = false ->
  writeLogMessage tid message s =
  if target_has_console (log_target s)
  then emit [EConsole message] (emit [EWrite message] s)
  else emit [EWrite message] s.
Proof.
  intros Hf. unfold writeLogMessage.
  destruct (target_has_console (log_target s)) eqn:Hc; simpl;
    rewrite Hc; simpl; rewrite Hf; reflexivity.
Qed.

Lemma after_write_frame message s :
  same_setup s (after_write message s) /\
  current_log_level (after_write message s) = current_log_level s /\
  logging_thread (after_write message s) = logging_thread s /\
  should_stop (after_write message s) = should_stop s /\
  log_queue (after_write message s) = log_queue s /\
  log_file (after_write message s) = log_file s /\
  Fs.files (fs (world (after_write message s))) =
    <[log_file_path s :=
        default [] (Fs.files (fs (world s)) !! log_file_path s) ++ [message]]>
      (Fs.files (fs (world s))) /\
  events (world (after_write message s)) =
    events (world s) ++ EWrite message ::
      (if target_has_console (log_target s) then [EConsole message] else []) ++
      [EFileLine (log_file_path s) message; EFileFlush].
Proof.
  unfold after_write, same_setup.
  destruct (target_has_console (log_target s)) eqn:Hc; simpl; rewrite Hc; simpl;
    repeat split; try reflexivity; by rewrite <- !app_assoc.
Qed.

Lemma writeLogMessage_frame tid message s :
  same_setup s (writeLogMessage tid message s) /\
  current_log_level (writeLogMessage tid message s) = current_log_level s /\
  logging_thread (writeLogMessage tid message s) = logging_thread s /\
  should_stop (writeLogMessage tid message s) = should_stop s /\
  (exists added, log_queue (writeLogMessage tid message s) = log_queue s ++ added).
Proof.
  destruct (target_has_file (log_target s) && log_file s) eqn:Hf.
  - apply andb_true_iff in Hf as [Hf Ho].
    rewrite (writeLogMessage_file _ _ _ Hf Ho).
    destruct (after_write_frame message s) as (Hs & Hl & Ht & Hst & Hq & _).
    destruct (needsRotation (after_write message s)).
    + destruct (rotateLogFile_frame tid (after_write message s))
        as (Hs' & Hl' & Ht' & Hst' & [added Hq'] & _).
      split; [eauto using same_setup_trans|].
      split; [congruence|]. split; [congruence|]. split; [congruence|].
      exists added. congruence.
    + split_and!; try done. exists []. by rewrite app_nil_r.
  - rewrite (writeLogMessage_no_file _ _ _ Hf).
    destruct (target_has_console (log_target s)); unfold same_setup; simpl;
      split_and!; try done; exists []; by rewrite app_nil_r.
Qed.

Lemma writeLogMessage_events tid message s :
  exists es,
    quiet es /\
    events (world (writeLogMessage tid message s)) =
      events (world s) ++ EWrite message ::
        (if target_has_console (log_target s) then [EConsole message] else []) ++
        (if target_has_file (log_target s) && log_file s
         then [EFileLine (log_file_path s) message] else []) ++ es.
Proof.
  destruct (target_has_file (log_target s) && log_file s) eqn:Hf.
  - apply andb_true_iff in Hf as [Hf Ho].
    rewrite (writeLogMessage_file _ _ _ Hf Ho).
    destruct (after_write_frame message s) as (_ & _ & _ & _ & _ & _ & _ & He).
    destruct (needsRotation (after_write message s)).
    + destruct (rotateLogFile_frame tid (after_write message s))
        as (_ & _ & _ & _ & _ & es & He' & Hqu).
      exists (EFileFlush :: es). split; [by constructor|].
      rewrite He', He.
      destruct (target_has_console (log_target s)); simpl;
        by rewrite <- !app_assoc.
    + exists [EFileFlush]. split; [by repeat constructor|].
      rewrite He. reflexivity.
  - rewrite (writeLogMessage_no_file _ _ _ Hf).
    exists []. split; [constructor|].
    destruct (target_has_console (log_target s)); simpl;
      by rewrite <- ?app_assoc.
Qed.

Lemma writeLogMessage_file_ok tid message s :
  file_target_ok s -> file_target_ok (writeLogMessage tid message s).
Proof.
  intros (Ho & Hnd & Hnp).
  destruct (writeLogMessage_frame tid message s) as ((_ & Hpath & _ & _ & Hd & Hp) & _).
  unfold file_target_ok. rewrite Hpath, Hd, Hp.
  split; [|done].
  destruct (target_has_file (log_target s)) eqn:Hf.
  - rewrite (writeLogMessage_file _ _ _ Hf Ho).
    destruct (after_write_frame message s)
      as ((_ & Hpath' & _ & _ & Hd' & Hp') & _ & _ & _ & _ & Ho' & _).
    destruct (needsRotation (after_write message s)).
    + apply rotateLogFile_reopens; by rewrite Hpath', ?Hd', ?Hp'.
    + congruence.
  - rewrite writeLogMessage_no_file by (by rewrite Hf).
    by destruct (target_has_console (log_target s)).
Qed.

Lemma writeLogMessage_delivers tid message s :
  delivers s (writeLogMessage tid message s) [message].
Proof.
  destruct (writeLogMessage_events tid message s) as (es & Hqu & He).
  unfold delivers, written_records, console_lines, file_lines. rewrite He.
  rewrite !omap_app. cbn [omap list_omap written console_line file_line].
  rewrite !omap_app.
  rewrite (quiet_written es Hqu), (quiet_console es Hqu), (quiet_file es Hqu).
  split; [|split].
  - by destruct (target_has_console (log_target s)),
         (target_has_file (log_target s) && log_file s).
  - intros ->.
    by destruct (target_has_file (log_target s) && log_file s).
  - intros -> (-> & _). simpl.
    by destruct (target_has_console (log_target s)).
Qed.

(** ** The size check *)

Lemma active_size_content s : active_size s = Fs.content_bytes (active_content s).
Proof. reflexivity. Qed.

Lemma needsRotation_iff s :
  needsRotation s = true <->
  log_file s = true /\
  exists sz, Fs.file_size (log_file_path s) (fs (world s)) = Some sz /\
             max_file_size_bytes s <= sz.
Proof.
  unfold needsRotation. destruct (log_file s); simpl.
  - destruct (Fs.file_size _ _) as [sz|].
    + rewrite Z.leb_le. split.
      * intros H. split; [done|]. by exists sz.
      * intros (_ & sz' & [= <-] & H). done.
    + split; [done|]. by intros (_ & sz' & ? & _).
  - split; [done|]. by intros [? _].
Qed.

Lemma after_write_content message s :
  active_content (after_write message s) = active_content s ++ [message].
Proof.
  destruct (after_write_frame message s) as ((_ & Hpath & _) & _ & _ & _ & _ & _ & Hf & _).
  unfold active_content. rewrite Hpath, Hf. by rewrite lookup_insert_eq.
Qed.

Lemma after_write_size message s :
  active_size (after_write message s) = active_size s + Fs.line_bytes message.
Proof.
  rewrite !active_size_content, after_write_content, content_bytes_app.
  simpl. lia.
Qed.

Lemma needsRotation_after_write message s :
  log_file s = true ->
  log_file_path s ∉ Fs.denied (fs (world s)) ->
  needsRotation (after_write message s) =
  (max_file_size_bytes s <=? active_size s + Fs.line_bytes message).
Proof.
  intros Ho Hnd.
  pose proof (after_write_size message s) as Hsz.
  destruct (after_write_frame message s)
    as ((_ & Hpath & Hmax & _ & Hd & _) & _ & _ & _ & _ & Ho' & Hf & _).
  unfold needsRotation, Fs.file_size. rewrite Ho', Ho, Hpath, Hd, Hmax.
  cbn [negb]. rewrite decide_False by done.
  rewrite Hf, lookup_insert_eq. cbn [fmap option_fmap option_map].
  rewrite <- Hsz, active_size_content, after_write_content. reflexivity.
Qed.

Lemma file_target_sound_ok s : file_target_sound s -> file_target_ok s.
Proof.
  intros (_ & Ho & Hd & Hp). unfold file_target_ok.
  rewrite Hd. split; [done|]. split; [set_solver | done].
Qed.

Lemma writeLogMessage_sound tid message s :
  file_target_sound s -> file_target_sound (writeLogMessage tid message s).
Proof.
  intros Hs. pose proof (file_target_sound_ok s Hs) as Hok.
  destruct Hs as (Hf & Ho & Hd & Hp).
  destruct (writeLogMessage_frame tid message s)
    as ((Ht & Hpath' & _ & _ & Hd' & Hp') & _).
  destruct (writeLogMessage_file_ok tid message s Hok) as (Ho' & _).
  unfold file_target_sound. rewrite Ht, Hpath', Hd', Hp'. done.
Qed.

Lemma write_all_sound tid ms : forall s,
  file_target_sound s ->
  file_target_sound (write_all tid ms s) /\ same_setup s (write_all tid ms s).
Proof.
  induction ms as [|m ms IH]; intros s Hs; simpl.
  - split; [done | apply same_setup_refl].
  - destruct (IH _ (writeLogMessage_sound tid m s Hs)) as [H1 H2].
    split; [done|].
    destruct (writeLogMessage_frame tid m s) as (H3 & _).
    eauto using same_setup_trans.
Qed.

(** One write with a working file target: the size that is compared with
    the ceiling includes the record just written, and the comparison
    decides between keeping the file and rotating it. *)
Lemma writeLogMessage_rotation tid message s :
  file_target_sound s ->
  (max_file_size_bytes s <= active_size s + Fs.line_bytes message ->
   Fs.files (fs (world (writeLogMessage tid message s))) !! log_file_path s = Some [] /\
   Fs.files (fs (world (writeLogMessage tid message s))) !!
     backup_path (log_file_path s) 1 = Some (active_content s ++ [message])) /\
  (active_size s + Fs.line_bytes message < max_file_size_bytes s ->
   Fs.files (fs (world (writeLogMessage tid message s))) !! log_file_path s =
     Some (active_content s ++ [message])).
Proof.
  intros (Hf & Ho & Hd & Hp).
  rewrite (writeLogMessage_file _ _ _ Hf Ho).
  rewrite needsRotation_after_write by (rewrite ?Hd; set_solver).
  destruct (after_write_frame message s)
    as ((_ & Hpath & _ & _ & Hd' & Hp') & _ & _ & _ & _ & _ & Hfiles & _).
  assert (Hc : Fs.files (fs (world (after_write message s))) !! log_file_path s =
               Some (active_content s ++ [message])).
  { rewrite Hfiles. by rewrite lookup_insert_eq. }
  split; intros Hcmp.
  - rewrite (proj2 (Z.leb_le _ _) Hcmp).
    rewrite <- Hpath.
    apply rotateLogFile_ok; rewrite ?Hpath, ?Hd', ?Hp', ?Hd; done.
  - rewrite (proj2 (Z.leb_gt _ _) Hcmp). done.
Qed.

(** C3 (as amended). With a working file target and no failing file
    operation, after any number of writes: the size compared with the
    ceiling is the one measured after the record has been written; the file
    is rotated exactly when that size is at least the ceiling (equality
    included), which leaves an empty active file and the old content in
    the first backup; so after every completed write the active file is
    below the ceiling or empty, and in particular within one record of the
    ceiling.  A write that does not touch the file checks and rotates
    nothing. *)
Theorem rotation_check_follows_write tid ms message s :
  file_target_sound s ->
  0 <= max_file_size_bytes s ->
  let s1 := write_all tid ms s in
  let s2 := writeLogMessage tid message s1 in
  let measured := active_size s1 + Fs.line_bytes message in
  active_size (after_write message s1) = measured /\
  needsRotation (after_write message s1) = (max_file_size_bytes s <=? measured) /\
  (max_file_size_bytes s <= measured ->
   Fs.files (fs (world s2)) !! log_file_path s = Some [] /\
   Fs.files (fs (world s2)) !! backup_path (log_file_path s) 1 =
     Some (active_content s1 ++ [message])) /\
  (measured < max_file_size_bytes s ->
   Fs.files (fs (world s2)) !! log_file_path s =
     Some (active_content s1 ++ [message])) /\
  (active_size s2 < max_file_size_bytes s \/ active_size s2 = 0) /\
  active_size s2 <= max_file_size_bytes s + Fs.line_bytes message /\
  (forall s0, target_has_file (log_target s0) && log_file s0 = false ->
     fs (world (writeLogMessage tid message s0)) = fs (world s0) /\
     log_file (writeLogMessage tid message s0) = log_file s0).
Proof.
  intros Hs Hmax s1 s2 measured.
  destruct (write_all_sound tid ms s Hs) as (Hs1 & _ & Hpath & Hceil & _).
  fold s1 in Hs1, Hpath, Hceil.
  destruct (writeLogMessage_rotation tid message s1 Hs1) as [Hrot Hkeep].
  fold s2 in Hrot, Hkeep. rewrite Hpath, Hceil in Hrot, Hkeep.
  assert (Hpath2 : log_file_path s2 = log_file_path s).
  { destruct (writeLogMessage_frame tid message s1) as ((_ & Hp2 & _) & _).
    fold s2 in Hp2. congruence. }
  assert (Hbytes : 0 < Fs.line_bytes message) by (unfold Fs.line_bytes; lia).
  assert (Hsize : active_size s2 < max_file_size_bytes s \/ active_size s2 = 0).
  { unfold active_size. rewrite Hpath2.
    destruct (Z_lt_le_dec (active_size s1 + Fs.line_bytes message)
                (max_file_size_bytes s)) as [Hlt|Hge].
    - left. rewrite (Hkeep Hlt). simpl.
      rewrite content_bytes_app. rewrite active_size_content in Hlt.
      simpl. unfold measured in *. lia.
    - right. destruct (Hrot Hge) as [-> _]. reflexivity. }
  split; [apply after_write_size|].
  split.
  { rewrite <- Hceil. apply needsRotation_after_write.
    - by destruct Hs1 as (_ & ? & _).
    - destruct Hs1 as (_ & _ & -> & _). set_solver. }
  split; [exact Hrot|]. split; [exact Hkeep|]. split; [exact Hsize|].
  split; [lia|].
  intros s0 H0. rewrite (writeLogMessage_no_file _ _ _ H0).
  by destruct (target_has_console (log_target s0)).
Qed.

Lemma rotation_check_follows_write_witness :
  file_target_sound quiet_file_engine /\
  0 <= max_file_size_bytes quiet_file_engine /\
  Fs.files (fs (world (writeLogMessage "worker" "c"
                         (write_all "worker" ["a"; "b"] quiet_file_engine))))
    !! "logs/app.log" = Some ["a"; "b"; "c"].
Proof.
  assert (Hs : file_target_sound quiet_file_engine).
  { unfold file_target_sound. split_and!; compute_done. }
  assert (Hmax : 0 <= max_file_size_bytes quiet_file_engine)
    by (vm_compute; discriminate).
  split; [exact Hs|]. split; [exact Hmax|].
  destruct (rotation_check_follows_write "worker" ["a"; "b"] "c"
              quiet_file_engine Hs Hmax) as (_ & _ & _ & Hkeep & _).
  apply Hkeep. vm_compute. reflexivity.
Defined.

(** C3, the claim as worded fails twice.  First run: the file reaches
    exactly the ceiling of one MiB with the first record, which does not
    exceed it, and the worker rotates.  Second run: the same with the first
    backup path refusing every operation; the rotation fails and after
    three records the active file is above the ceiling by more than the
    last record. *)
Lemma rotation_claim_fails :
  (hd "" (log_queue nearly_full_engine) = first_record /\
   max_file_size_bytes nearly_full_engine = 1048576 /\
   active_size nearly_full_engine + Fs.line_bytes first_record =
     max_file_size_bytes nearly_full_engine /\
   written_records (worker_steps 4 nearly_full_engine) = [first_record] /\
   active_size (worker_steps 4 nearly_full_engine) = 0 /\
   Fs.file_size "logs/app.log.1" (fs (world (worker_steps 4 nearly_full_engine))) =
     Some 1048576) /\
  (length (written_records (worker_steps 8 blocked_backup_engine)) = 3%nat /\
   max_file_size_bytes (worker_steps 8 blocked_backup_engine) +
     Fs.line_bytes (List.last (written_records (worker_steps 8 blocked_backup_engine)) "") <
   active_size (worker_steps 8 blocked_backup_engine)).
Proof.
  split.
  - vm_compute. repeat split; reflexivity.
  - vm_compute. split; reflexivity.
Qed.

(** ** Moves of the worker and of the other threads *)

Lemma delivers_refl s : delivers s s [].
Proof. unfold delivers. by rewrite !app_nil_r. Qed.

Lemma delivers_quiet s s' es :
  events (world s') = events (world s) ++ es -> no_output es -> delivers s s' [].
Proof.
  intros He Hq. unfold delivers, written_records, console_lines, file_lines.
  rewrite He, !omap_app.
  rewrite !(no_output_omap _ es) by (done || by intros []).
  by rewrite !app_nil_r.
Qed.

Lemma delivers_trans s1 s2 s3 W1 W2 :
  log_target s2 = log_target s1 ->
  (file_target_ok s1 -> file_target_ok s2) ->
  delivers s1 s2 W1 -> delivers s2 s3 W2 -> delivers s1 s3 (W1 ++ W2).
Proof.
  intros Ht Hok (Hw1 & Hc1 & Hf1) (Hw2 & Hc2 & Hf2).
  unfold delivers. rewrite Ht in Hc2, Hf2. split_and!.
  - by rewrite Hw2, Hw1, app_assoc.
  - intros Hc. by rewrite (Hc2 Hc), (Hc1 Hc), app_assoc.
  - intros Hf Hok1. by rewrite (Hf2 Hf (Hok Hok1)), (Hf1 Hf Hok1), app_assoc.
Qed.

Lemma set_pc_frame pc s :
  same_setup s (set_pc pc s) /\
  current_log_level (set_pc pc s) = current_log_level s /\
  log_file (set_pc pc s) = log_file s /\
  log_queue (set_pc pc s) = log_queue s /\
  should_stop (set_pc pc s) = should_stop s /\
  world (set_pc pc s) = world s /\
  joinable (logging_thread (set_pc pc s)) = joinable (logging_thread s) /\
  (joinable (logging_thread s) = true -> worker_pc (set_pc pc s) = Some pc).
Proof.
  unfold set_pc, same_setup, worker_pc.
  destruct (logging_thread s) eqn:E; simpl; rewrite ?E; repeat split; done.
Qed.

Lemma move_effect_refl s : move_effect s s.
Proof.
  unfold move_effect.
  split; [apply same_setup_refl|]. split; [done|]. split; [done|]. split; [done|].
  exists [], []. split; [apply delivers_refl | by rewrite app_nil_r].
Qed.

Lemma move_effect_trans s1 s2 s3 :
  move_effect s1 s2 -> move_effect s2 s3 -> move_effect s1 s3.
Proof.
  intros (Hs1 & Hst1 & Hok1 & Hj1 & W1 & a1 & Hd1 & Hp1)
         (Hs2 & Hst2 & Hok2 & Hj2 & W2 & a2 & Hd2 & Hp2).
  unfold move_effect.
  split; [eauto using same_setup_trans|]. split; [auto|]. split; [auto|].
  split; [congruence|].
  exists (W1 ++ W2), (a1 ++ a2). split.
  - apply delivers_trans with s2; try done. by destruct Hs1 as (-> & _).
  - rewrite <- app_assoc, Hp2, !app_assoc, Hp1. done.
Qed.

(** A move that only relabels the program counter between points that
    hold no record. *)
Lemma move_effect_pc pc s :
  in_flight (set_pc pc s) = in_flight s ->
  move_effect s (set_pc pc s).
Proof.
  intros Hin.
  destruct (set_pc_frame pc s) as (Hs & _ & Ho & Hq & Hst & Hw & Hj & _).
  unfold move_effect.
  split; [done|]. split; [congruence|]. split; [|split; [done|]].
  - unfold file_target_ok. destruct Hs as (_ & -> & _). by rewrite Ho, Hw.
  - exists [], []. split.
    + apply delivers_quiet with []; [by rewrite Hw, app_nil_r | constructor].
    + unfold pending. by rewrite Hin, Hq, app_nil_r.
Qed.

Lemma worker_step_effect s s' : worker_step s = Some s' -> move_effect s s'.
Proof.
  unfold worker_step.
  destruct (logging_thread s) as [|tid pc] eqn:Hth; [done|].
  assert (Hj : joinable (logging_thread s) = true) by by rewrite Hth.
  assert (Hin : forall pc', (forall m, pc' <> PcWrite m) ->
                  in_flight (set_pc pc' s) = []).
  { intros pc' Hpc'. unfold in_flight.
    destruct (set_pc_frame pc' s) as (_ & _ & _ & _ & _ & _ & _ & Hpc).
    rewrite (Hpc Hj).
    destruct pc'; try done. by destruct (Hpc' message). }
  assert (Hin0 : (forall m, pc <> PcWrite m) -> in_flight s = []).
  { intros Hpc. unfold in_flight, worker_pc. rewrite Hth.
    destruct pc; try done. by destruct (Hpc message). }
  destruct pc.
  - intros [= <-]. apply move_effect_pc.
    rewrite Hin0 by done. destruct (should_stop s); by apply Hin.
  - intros [= <-]. apply move_effect_pc.
    rewrite Hin0 by done. destruct (queue_empty s); by apply Hin.
  - destruct (worker_wait_pred s); [|done].
    intros [= <-]. apply move_effect_pc. rewrite Hin0 by done. by apply Hin.
  - destruct (log_queue s) as [|m rest] eqn:Hq.
    + intros [= <-]. apply move_effect_pc. rewrite Hin0 by done. by apply Hin.
    + intros [= <-].
      destruct (set_pc_frame (PcWrite m) (set_queue rest s))
        as (Hs & _ & Ho & Hq' & Hst & Hw & Hj' & Hpc).
      unfold same_setup in Hs. simpl in Hs, Ho, Hq', Hst, Hw, Hj', Hpc.
      fold (same_setup s (set_pc (PcWrite m) (set_queue rest s))) in Hs.
      unfold move_effect.
      split; [done|]. split; [congruence|]. split; [|split; [done|]].
      * unfold file_target_ok. destruct Hs as (_ & -> & _). by rewrite Ho, Hw.
      * exists [], []. split.
        -- apply delivers_quiet with []; [by rewrite Hw, app_nil_r | constructor].
        -- unfold pending, in_flight. rewrite Hpc by done.
           rewrite Hq'. simpl. unfold worker_pc. rewrite Hth, Hq.
           by rewrite app_nil_r.
  - intros [= <-].
    destruct (writeLogMessage_frame tid message s)
      as (Hs & Hl & Ht & Hst & added & Hq).
    pose proof (writeLogMessage_delivers tid message s) as Hd.
    pose proof (writeLogMessage_file_ok tid message s) as Hok.
    set (s1 := writeLogMessage tid message s) in *.
    assert (Hj1 : joinable (logging_thread s1) = true) by by rewrite Ht.
    destruct (set_pc_frame PcInner s1)
      as (Hs' & _ & Ho' & Hq' & Hst' & Hw' & Hj' & Hpc).
    unfold move_effect.
    split; [eauto using same_setup_trans|]. split; [congruence|].
    split; [|split; [congruence|]].
    + intros H. specialize (Hok H). unfold file_target_ok in *.
      destruct Hs' as (_ & -> & _). by rewrite Ho', Hw'.
    + exists [message], added. split.
      * destruct Hd as (Hd1 & Hd2 & Hd3).
        unfold delivers, written_records, console_lines, file_lines.
        rewrite Hw'. done.
      * unfold pending, in_flight. rewrite Hpc by done.
        rewrite Hq', Hq. unfold worker_pc. rewrite Hth. done.
  - done.
Qed.

Lemma logMessage_effect tid level module message s :
  move_effect s (logMessage tid level module message s).
Proof.
  destruct (logMessage_frame tid level module message s)
    as (Hs & Hl & Ho & Ht & Hst & Hfs).
  destruct (logMessage_events tid level module message s) as (es & He & Hqu).
  pose proof (logMessage_queue tid level module message s) as Hq.
  unfold move_effect.
  split; [done|]. split; [congruence|]. split; [|split; [congruence|]].
  - unfold file_target_ok. destruct Hs as (_ & -> & _). by rewrite Ho, Hfs.
  - exists [], (enqueued_by tid level module message s). split.
    + apply delivers_quiet with es; [done | by apply quiet_no_output].
    + unfold pending, in_flight, worker_pc. rewrite Ht, Hq.
      simpl. by rewrite app_assoc.
Qed.

Lemma step_effect s s' : step s s' -> move_effect s s'.
Proof.
  destruct 1 as [s s' Hw | tid level module message s Hfree | level s | s | s Ho].
  - by apply worker_step_effect.
  - apply logMessage_effect.
  - unfold move_effect.
    split; [by unfold same_setup|]. split; [done|]. split; [done|]. split; [done|].
    exists [], []. split; [|by rewrite app_nil_r].
    apply delivers_quiet with []; [by rewrite app_nil_r | constructor].
  - unfold move_effect.
    split; [by unfold same_setup|]. split; [done|]. split; [done|]. split; [done|].
    exists [], []. split; [|by rewrite app_nil_r].
    apply delivers_quiet with [EStopRequested; ENotifyAll].
    + simpl. by rewrite <- app_assoc.
    + by repeat constructor.
  - unfold move_effect.
    split; [by unfold same_setup|]. split; [done|]. split; [done|]. split; [done|].
    exists [], []. split; [|by rewrite app_nil_r].
    apply delivers_quiet with [EFileFlush]; [done | by repeat constructor].
Qed.

Lemma steps_effect s s' : steps s s' -> move_effect s s'.
Proof.
  induction 1 as [s | s1 s2 s3 _ IH Hstep].
  - apply move_effect_refl.
  - eapply move_effect_trans; [exact IH | by apply step_effect].
Qed.

Lemma steps_trans s1 s2 s3 : steps s1 s2 -> steps s2 s3 -> steps s1 s3.
Proof.
  intros H12 H23. induction H23 as [s | s2 s3 s4 _ IH Hstep]; [done|].
  eapply steps_step; [by apply IH | done].
Qed.

Lemma worker_steps_steps n : forall s, steps s (worker_steps n s).
Proof.
  induction n as [|n IH]; intros s; simpl; [constructor|].
  destruct (worker_step s) as [s'|] eqn:Hw; [|constructor].
  eapply steps_trans; [|apply IH].
  eapply steps_step; [constructor | by apply step_worker].
Qed.

(** ** The worker loop *)

Lemma worker_step_pc s s' :
  worker_step s = Some s' ->
  exists tid pc pc',
    logging_thread s = Thread tid pc /\ logging_thread s' = Thread tid pc' /\
    match pc with
    | PcOuter => pc' = (if should_stop s then PcOuterQueue else PcWait) /\ s' = set_pc pc' s
    | PcOuterQueue => pc' = (if queue_empty s then PcExit else PcWait) /\ s' = set_pc pc' s
    | PcWait => pc' = PcInner
    | PcInner => pc' = PcOuter \/ exists m, pc' = PcWrite m
    | PcWrite _ => pc' = PcInner
    | PcExit => False
    end.
Proof.
  unfold worker_step.
  destruct (logging_thread s) as [|tid pc] eqn:Hth; [done|].
  assert (Hset : forall pc0 s0, logging_thread s0 = logging_thread s ->
                   logging_thread (set_pc pc0 s0) = Thread tid pc0).
  { intros pc0 s0 H0. unfold set_pc. by rewrite H0, Hth. }
  intros Hstep. exists tid, pc. destruct pc.
  - injection Hstep as <-. eexists. by rewrite Hset.
  - injection Hstep as <-. eexists. by rewrite Hset.
  - destruct (worker_wait_pred s); [|done].
    injection Hstep as <-. eexists. by rewrite Hset.
  - destruct (log_queue s); injection Hstep as <-; eexists;
      (rewrite Hset by done); eauto.
  - injection Hstep as <-. eexists. rewrite Hset; [done|].
    by destruct (writeLogMessage_frame tid message s) as (_ & _ & -> & _).
  - done.
Qed.

(** Only the worker moves its own program counter. *)
Lemma step_thread s s' :
  step s s' -> logging_thread s' = logging_thread s \/ worker_step s = Some s'.
Proof.
  destruct 1 as [s s' Hw | tid level module message s Hfree | level s | s | s Ho];
    [by right | left ..]; try done.
  by destruct (logMessage_frame tid level module message s) as (_ & _ & _ & -> & _).
Qed.

Lemma step_stop_seen s s' : step s s' -> stop_seen s -> stop_seen s'.
Proof.
  intros Hstep Hinv.
  destruct (step_effect s s' Hstep) as (_ & Hmono & _).
  destruct (step_thread s s' Hstep) as [Hsame | Hw].
  - unfold stop_seen, worker_pc in *. rewrite Hsame. auto.
  - destruct (worker_step_pc s s' Hw) as (tid & pc & pc' & Hth & Hth' & Hpc).
    unfold stop_seen, worker_pc. rewrite Hth'. intros [= ->].
    destruct pc; try (by destruct Hpc as [?|[? ?]]); try done.
    + destruct Hpc as [Hpc ->].
      destruct (should_stop s) eqn:Hst; [|done].
      by destruct (set_pc_frame PcOuterQueue s) as (_ & _ & _ & _ & -> & _).
    + destruct Hpc as [Hpc _]. by destruct (queue_empty s).
Qed.

Lemma steps_stop_seen s s' : steps s s' -> stop_seen s -> stop_seen s'.
Proof.
  induction 1 as [s | s1 s2 s3 _ IH Hstep]; [done|].
  intros H. eapply step_stop_seen; eauto.
Qed.

(** The move that makes the worker return. *)
Lemma exit_step s s' :
  step s s' -> worker_pc s <> Some PcExit -> worker_pc s' = Some PcExit ->
  worker_pc s = Some PcOuterQueue /\ log_queue s = [] /\ s' = set_pc PcExit s.
Proof.
  intros Hstep Hbefore Hafter.
  destruct (step_thread s s' Hstep) as [Hsame | Hw].
  { unfold worker_pc in *. by rewrite Hsame in Hafter. }
  destruct (worker_step_pc s s' Hw) as (tid & pc & pc' & Hth & Hth' & Hpc).
  unfold worker_pc in Hafter |- *. rewrite Hth' in Hafter. rewrite Hth.
  injection Hafter as ->.
  destruct pc; try (by destruct Hpc as [?|[? ?]]); try done.
  - destruct Hpc as [Hpc _]. by destruct (should_stop s).
  - destruct Hpc as [Hpc ->]. unfold queue_empty in Hpc.
    destruct (log_queue s); [done|discriminate Hpc].
Qed.

(** C2. Started at the top of [loggingWorker] and interleaved in any way
    with logging threads, level changes and the stop request, the worker
    returns only from a state in which the stop flag is set and the queue
    is empty; at that moment nothing is queued or in flight, and every
    record that was pending at any earlier moment [s1] of the run (for
    instance when the stop was requested) has been handed to
    [writeLogMessage], in queue order, and has reached the working targets. *)
Theorem worker_exits_only_when_drained s0 s1 s s' :
  worker_pc s0 = Some PcOuter ->
  steps s0 s1 -> steps s1 s -> step s s' ->
  worker_pc s <> Some PcExit -> worker_pc s' = Some PcExit ->
  should_stop s = true /\
  log_queue s = [] /\
  pending s' = [] /\
  exists later, delivers s1 s' (pending s1 ++ later).
Proof.
  intros Hstart H01 H1 Hstep Hbefore Hafter.
  destruct (exit_step s s' Hstep Hbefore Hafter) as (Hpc & Hq & ->).
  assert (Hinv : stop_seen s).
  { eapply steps_stop_seen; [exact (steps_trans _ _ _ H01 H1)|].
    unfold stop_seen. by rewrite Hstart. }
  assert (Hpend : pending (set_pc PcExit s) = []).
  { unfold pending, in_flight. rewrite Hafter.
    by destruct (set_pc_frame PcExit s) as (_ & _ & _ & -> & _). }
  split; [by apply Hinv|]. split; [done|]. split; [done|].
  destruct (steps_effect s1 (set_pc PcExit s))
    as (_ & _ & _ & _ & W & added & Hd & Hp).
  { eapply steps_step; eauto. }
  rewrite Hpend, app_nil_r in Hp. subst W. by exists added.
Qed.

Lemma worker_exits_only_when_drained_witness :
  worker_pc console_engine = Some PcOuter /\
  steps console_engine (request_stop console_engine) /\
  steps (request_stop console_engine)
    (worker_steps 11 (request_stop console_engine)) /\
  step (worker_steps 11 (request_stop console_engine))
    (worker_steps 12 (request_stop console_engine)) /\
  worker_pc (worker_steps 11 (request_stop console_engine)) <> Some PcExit /\
  worker_pc (worker_steps 12 (request_stop console_engine)) = Some PcExit /\
  length (pending (request_stop console_engine)) = 3%nat /\
  should_stop (worker_steps 11 (request_stop console_engine)) = true /\
  log_queue (worker_steps 11 (request_stop console_engine)) = [] /\
  exists later,
    delivers (request_stop console_engine)
      (worker_steps 12 (request_stop console_engine))
      (pending (request_stop console_engine) ++ later).
Proof.
  assert (Hstart : worker_pc console_engine = Some PcOuter)
    by (vm_compute; reflexivity).
  assert (H01 : steps console_engine (request_stop console_engine)).
  { eapply steps_step; [constructor | apply step_request_stop]. }
  assert (H1 : steps (request_stop console_engine)
                 (worker_steps 11 (request_stop console_engine)))
    by apply worker_steps_steps.
  assert (Hstep : step (worker_steps 11 (request_stop console_engine))
                    (worker_steps 12 (request_stop console_engine))).
  { apply step_worker. vm_compute. reflexivity. }
  assert (Hbefore : worker_pc (worker_steps 11 (request_stop console_engine))
                    <> Some PcExit) by (vm_compute; discriminate).
  assert (Hafter : worker_pc (worker_steps 12 (request_stop console_engine))
                   = Some PcExit) by (vm_compute; reflexivity).
  destruct (worker_exits_only_when_drained _ _ _ _ Hstart H01 H1 Hstep Hbefore Hafter)
    as (Hstop & Hq & _ & Hd).
  split; [exact Hstart|]. split; [exact H01|]. split; [exact H1|].
  split; [exact Hstep|]. split; [exact Hbefore|]. split; [exact Hafter|].
  split; [vm_compute; reflexivity|]. split; [exact Hstop|]. split; [exact Hq|].
  exact Hd.
Defined.

(** ** The pieces of [writeLogMessage] *)

Lemma writeLogMessage_split tid message s :
  writeLogMessage tid message s =
  if target_has_file (log_target s) && log_file s &&
     needsRotation (write_targets message s)
  then logMessage tid INFO "LOGGER" "Log file rotated"
         (rotate_reopen (write_targets message s))
  else write_targets message s.
Proof.
  unfold writeLogMessage, write_targets, rotateLogFile, rotate_reopen.
  destruct (target_has_console (log_target s)) eqn:Hc; simpl; rewrite Hc; simpl;
    destruct (target_has_file (log_target s) && log_file s); simpl; try done;
    match goal with |- context [needsRotation ?x] => destruct (needsRotation x) end;
    try done;
    match goal with |- context [rotate_files ?a ?b ?c] => destruct (rotate_files a b c) end;
    done.
Qed.

Lemma rotate_reopen_level s :
  current_log_level (rotate_reopen s) = current_log_level s.
Proof.
  unfold rotate_reopen.
  set (s1 := emit [EFileClose] (set_file_open false s)).
  destruct (rotate_files (log_file_path s1) (max_backup_files s1) (fs (world s1)))
    as [f ok].
  set (s3 := if ok then set_fs f s1 else emit [ECerr DiagRotationFailed] (set_fs f s1)).
  assert (H3 : current_log_level s3 = current_log_level s) by (subst s3 s1; by destruct ok).
  destruct (openLogFile_frame s3) as (_ & Hl & _). by rewrite Hl.
Qed.

Lemma write_targets_level message s :
  current_log_level (write_targets message s) = current_log_level s.
Proof.
  unfold write_targets.
  destruct (target_has_console (log_target s)) eqn:Hc; simpl; rewrite ?Hc; simpl;
    by destruct (target_has_file (log_target s) && log_file s).
Qed.

Lemma write_targets_target message s :
  log_target (write_targets message s) = log_target s.
Proof.
  unfold write_targets.
  destruct (target_has_console (log_target s)) eqn:Hc; simpl; rewrite ?Hc; simpl;
    by destruct (target_has_file (log_target s) && log_file s).
Qed.

Lemma rotate_reopen_target s : log_target (rotate_reopen s) = log_target s.
Proof.
  unfold rotate_reopen.
  set (s1 := emit [EFileClose] (set_file_open false s)).
  destruct (rotate_files (log_file_path s1) (max_backup_files s1) (fs (world s1)))
    as [f ok].
  set (s3 := if ok then set_fs f s1 else emit [ECerr DiagRotationFailed] (set_fs f s1)).
  assert (H3 : log_target s3 = log_target s) by (subst s3 s1; by destruct ok).
  destruct (openLogFile_frame s3) as ((Ht & _) & _). by rewrite Ht.
Qed.


(** ** Timed wait and [flush] *)

Lemma worker_step_events s s' :
  worker_step s = Some s' ->
  should_stop s' = should_stop s /\
  exists es, events (world s') = events (world s) ++ es /\ no_lifecycle es.
Proof.
  unfold worker_step.
  destruct (logging_thread s) as [|tid pc] eqn:Hth; [done|].
  assert (Hset : forall pc0, should_stop (set_pc pc0 s) = should_stop s /\
            exists es, events (world (set_pc pc0 s)) = events (world s) ++ es /\
                       no_lifecycle es).
  { intros pc0. destruct (set_pc_frame pc0 s) as (_ & _ & _ & _ & Hst & Hw & _).
    split; [done|]. exists []. rewrite Hw, app_nil_r. split; [done | constructor]. }
  destruct pc; try (intros [= <-]; apply Hset); try done.
  - destruct (worker_wait_pred s); [|done]. intros [= <-]. apply Hset.
  - destruct (log_queue s) as [|m rest]; intros [= <-]; [apply Hset|].
    destruct (set_pc_frame (PcWrite m) (set_queue rest s))
      as (_ & _ & _ & _ & Hst & Hw & _).
    split; [done|]. exists []. rewrite Hw, app_nil_r. split; [done | constructor].
  - intros [= <-].
    destruct (writeLogMessage_frame tid message s) as (_ & _ & _ & Hst & _).
    destruct (writeLogMessage_events tid message s) as (es & Hqu & He).
    destruct (set_pc_frame PcInner (writeLogMessage tid message s))
      as (_ & _ & _ & _ & Hst' & Hw & _).
    split; [congruence|]. rewrite Hw, He. eexists. split; [reflexivity|].
    apply quiet_no_lifecycle in Hqu. unfold no_lifecycle in *.
    constructor; [done|].
    apply Forall_app_2; [by destruct (target_has_console _); repeat constructor|].
    apply Forall_app_2; [|done].
    by destruct (target_has_file _ && log_file _); repeat constructor.
Qed.

Lemma worker_steps_events n : forall s,
  should_stop (worker_steps n s) = should_stop s /\
  exists es, events (world (worker_steps n s)) = events (world s) ++ es /\
             no_lifecycle es.
Proof.
  induction n as [|n IH]; intros s; simpl.
  { split; [done|]. exists []. rewrite app_nil_r. split; [done | constructor]. }
  destruct (worker_step s) as [s1|] eqn:Hw.
  - destruct (worker_step_events s s1 Hw) as (Hst1 & es1 & He1 & Hn1).
    destruct (IH s1) as (Hst2 & es2 & He2 & Hn2).
    split; [congruence|]. exists (es1 ++ es2).
    rewrite He2, He1, app_assoc. split; [done | by apply Forall_app_2].
  - split; [done|]. exists []. rewrite app_nil_r. split; [done | constructor].
Qed.

Lemma state_after_events sched k : forall sched' s,
  sched' = sched ->
  should_stop (state_after sched' k s) = should_stop s /\
  steps s (state_after sched' k s) /\
  exists es, events (world (state_after sched' k s)) = events (world s) ++ es /\
             no_lifecycle es.
Proof.
  revert sched. induction k as [|k IH]; intros sched sched' s ->; simpl.
  { split; [done|]. split; [constructor|].
    exists []. rewrite app_nil_r. split; [done | constructor]. }
  set (s1 := worker_steps (tick_worker_moves (hd idle_tick sched)) s).
  destruct (worker_steps_events (tick_worker_moves (hd idle_tick sched)) s)
    as (Hst1 & es1 & He1 & Hn1).
  destruct (IH (tl sched) (tl sched) s1 eq_refl) as (Hst2 & Hsteps & es2 & He2 & Hn2).
  fold s1 in Hst1, He1.
  split; [congruence|]. split.
  - eapply steps_trans; [apply worker_steps_steps | exact Hsteps].
  - exists (es1 ++ es2). rewrite He2, He1, app_assoc.
    split; [done | by apply Forall_app_2].
Qed.

(** A timed wait returns at the first moment at which the thread looks at
    its predicate and finds it true, or when the time is over. *)
Lemma wait_for_first pred r : forall sched first s,
  exists e,
    (e <= r)%nat /\
    wait_for pred r sched first s = (state_after sched e s, (r - e)%nat) /\
    (e = r \/ (observes first sched e = true /\ pred (state_after sched e s) = true)) /\
    (forall k, (k < e)%nat ->
       ~ (observes first sched k = true /\ pred (state_after sched k s) = true)).
Proof.
  induction r as [|r IH]; intros sched first s.
  - exists O. simpl. split; [lia|].
    destruct (first && pred s); (split; [done|]); (split; [by left | intros k Hk; lia]).
  - simpl. destruct (first && pred s) eqn:Hnow.
    + exists O. simpl. apply andb_true_iff in Hnow as [-> ->].
      split; [lia|]. split; [done|]. split; [by right | intros k Hk; lia].
    + destruct (IH (tl sched) (tick_wakeup (hd idle_tick sched))
                  (worker_steps (tick_worker_moves (hd idle_tick sched)) s))
        as (e & He & Hw & Hend & Hfirst).
      exists (S e). simpl. split; [lia|]. split; [exact Hw|]. split.
      * destruct Hend as [-> | [Hobs Hp]]; [by left | right].
        split; [|done]. destruct e; simpl in *; [by destruct sched|].
        by destruct sched; [destruct e|].
      * intros [|k] Hk; simpl.
        -- intros [Hf Hp]. by rewrite Hf, Hp in Hnow.
        -- intros [Hobs Hp]. apply (Hfirst k); [lia|]. split; [|done].
           destruct k; simpl in *; [by destruct sched|].
           by destruct sched; [destruct k|].
Qed.

(** [flush] from the moment at which its wait ends. *)
Lemma flush_unfold sched inside s :
  exists e,
    (e <= flush_timeout)%nat /\
    wait_for flush_wait_pred flush_timeout sched true s =
      (state_after sched e s, (flush_timeout - e)%nat) /\
    (e = flush_timeout \/
     (observes true sched e = true /\ flush_wait_pred (state_after sched e s) = true)) /\
    (forall k, (k < e)%nat ->
       ~ (observes true sched k = true /\ flush_wait_pred (state_after sched k s) = true)) /\
    flush sched inside s =
      match logging_thread (state_after sched e s) with
      | Thread _ (PcWrite message) =>
          if inside then
            if rotation_record_queued message (state_after sched e s) then None
            else Some (flush_file (default (state_after sched e s)
                                     (worker_step (state_after sched e s))))
          else Some (flush_file (state_after sched e s))
      | _ => Some (flush_file (state_after sched e s))
      end.
Proof.
  destruct (wait_for_first flush_wait_pred flush_timeout sched true s)
    as (e & He & Hw & Hend & Hfirst).
  exists e. split; [exact He|]. split; [exact Hw|]. split; [exact Hend|].
  split; [exact Hfirst|]. unfold flush. rewrite Hw. reflexivity.
Qed.

Lemma flush_file_spec s :
  should_stop (flush_file s) = should_stop s /\
  logging_thread (flush_file s) = logging_thread s /\
  log_file (flush_file s) = log_file s /\
  log_queue (flush_file s) = log_queue s /\
  current_log_level (flush_file s) = current_log_level s /\
  log_target (flush_file s) = log_target s /\
  fs (world (flush_file s)) = fs (world s) /\
  events (world (flush_file s)) =
    events (world s) ++ (if log_file s then [EFileFlush] else []) /\
  steps s (flush_file s).
Proof.
  unfold flush_file. destruct (log_file s) eqn:Ho; simpl; split_and!; try done.
  - eapply steps_step; [apply steps_refl | by apply step_file_flush].
  - by rewrite app_nil_r.
  - apply steps_refl.
Qed.

(** When [flush] returns, the worker has made some moves, the last of
    them possibly the write the caller had to wait for, and then the file
    has been flushed. *)
Lemma flush_returns_spec sched inside s s2 :
  flush sched inside s = Some s2 ->
  exists s1,
    s2 = flush_file s1 /\
    steps s s1 /\
    should_stop s1 = should_stop s /\
    exists es, events (world s1) = events (world s) ++ es /\ no_lifecycle es.
Proof.
  destruct (flush_unfold sched inside s) as (e & _ & _ & _ & _ & ->).
  destruct (state_after_events sched e sched s eq_refl) as (Hst & Hsteps & es & He & Hn).
  set (s1 := state_after sched e s) in *.
  assert (Hhere : forall s2, Some (flush_file s1) = Some s2 ->
            exists s1',
              s2 = flush_file s1' /\ steps s s1' /\ should_stop s1' = should_stop s /\
              exists es', events (world s1') = events (world s) ++ es' /\ no_lifecycle es').
  { intros ? [= <-]. exists s1. split; [done|]. split; [done|]. split; [done|].
    by exists es. }
  destruct (logging_thread s1) as [|tid pc]; [apply Hhere|].
  destruct pc; try apply Hhere.
  destruct inside; [|apply Hhere].
  destruct (rotation_record_queued message s1); [done|].
  intros [= <-].
  destruct (worker_step s1) as [s1'|] eqn:Hw; simpl.
  - destruct (worker_step_events s1 s1' Hw) as (Hst' & es' & He' & Hn').
    exists s1'. split; [done|]. split.
    { eapply steps_step; [exact Hsteps | by apply step_worker]. }
    split; [congruence|]. exists (es ++ es').
    rewrite He', He, app_assoc. split; [done | by apply Forall_app_2].
  - exists s1. split; [done|]. split; [done|]. split; [done|]. by exists es.
Qed.





(** ** The worker returns *)

Lemma rotateLogFile_filtered tid s :
  level_lt INFO (current_log_level s) = true ->
  log_queue (rotateLogFile tid s) = log_queue s.
Proof.
  intros Hlt. unfold rotateLogFile.
  set (s1 := emit [EFileClose] (set_file_open false s)).
  destruct (rotate_files (log_file_path s1) (max_backup_files s1) (fs (world s1)))
    as [f ok].
  set (s3 := if ok then set_fs f s1 else emit [ECerr DiagRotationFailed] (set_fs f s1)).
  assert (H3 : current_log_level s3 = current_log_level s /\ log_queue s3 = log_queue s).
  { subst s3 s1. by destruct ok. }
  destruct H3 as [Hl3 Hq3].
  destruct (openLogFile_frame s3) as (_ & Hl4 & Hq4 & _).
  rewrite logMessage_below by (by rewrite Hl4, Hl3).
  by rewrite Hq4, Hq3.
Qed.

Lemma writeLogMessage_adds_nothing tid message s :
  worker_adds_nothing s -> log_queue (writeLogMessage tid message s) = log_queue s.
Proof.
  intros Hquiet.
  destruct (target_has_file (log_target s) && log_file s) eqn:Hf.
  - apply andb_true_iff in Hf as [Hf Ho].
    destruct Hquiet as [Hno | Hlt]; [by rewrite Hno in Hf|].
    rewrite (writeLogMessage_file _ _ _ Hf Ho).
    destruct (after_write_frame message s) as (_ & Hl & _ & _ & Hq & _).
    destruct (needsRotation (after_write message s)); [|done].
    rewrite rotateLogFile_filtered by (by rewrite Hl). done.
  - rewrite (writeLogMessage_no_file _ _ _ Hf).
    by destruct (target_has_console (log_target s)).
Qed.

(** With the stop flag set and nothing more enqueued, every move of the
    worker brings its return closer. *)
Lemma worker_step_progress s :
  joinable (logging_thread s) = true ->
  should_stop s = true ->
  worker_adds_nothing s ->
  worker_pc s <> Some PcExit ->
  exists s1,
    worker_step s = Some s1 /\
    joinable (logging_thread s1) = true /\
    should_stop s1 = true /\
    worker_adds_nothing s1 /\
    (moves_to_exit s1 < moves_to_exit s)%nat.
Proof.
  intros Hj Hstop Hquiet Hpc.
  unfold worker_step, moves_to_exit, worker_pc in *.
  destruct (logging_thread s) as [|tid pc] eqn:Hth; [done|].
  assert (Hset : forall pc0 s0,
            logging_thread s0 = Thread tid pc -> should_stop s0 = true ->
            worker_adds_nothing s0 ->
            joinable (logging_thread (set_pc pc0 s0)) = true /\
            should_stop (set_pc pc0 s0) = true /\
            worker_adds_nothing (set_pc pc0 s0) /\
            logging_thread (set_pc pc0 s0) = Thread tid pc0 /\
            log_queue (set_pc pc0 s0) = log_queue s0).
  { intros pc0 s0 H0 Hs0 Hq0. unfold set_pc, worker_adds_nothing in *.
    rewrite H0. simpl. by split_and!. }
  destruct pc.
  - rewrite Hstop. eexists. split; [reflexivity|].
    destruct (Hset PcOuterQueue s Hth Hstop Hquiet) as (? & ? & ? & Hth1 & Hq1); rewrite Hth1, ?Hq1.
    split_and!; try done. destruct (log_queue s); simpl; lia.
  - destruct (log_queue s) as [|m rest] eqn:Hq; unfold queue_empty; rewrite Hq.
    + eexists. split; [reflexivity|].
      destruct (Hset PcExit s Hth Hstop Hquiet) as (? & ? & ? & Hth1 & Hq1); rewrite Hth1, ?Hq1.
      split_and!; try done. rewrite ?Hq. simpl. lia.
    + eexists. split; [reflexivity|].
      destruct (Hset PcWait s Hth Hstop Hquiet) as (? & ? & ? & Hth1 & Hq1); rewrite Hth1, ?Hq1.
      split_and!; try done. rewrite ?Hq. simpl. lia.
  - unfold worker_wait_pred. rewrite Hstop, orb_true_r.
    eexists. split; [reflexivity|].
    destruct (Hset PcInner s Hth Hstop Hquiet) as (? & ? & ? & Hth1 & Hq1); rewrite Hth1, ?Hq1.
    split_and!; try done. simpl. lia.
  - destruct (log_queue s) as [|m rest] eqn:Hq.
    + eexists. split; [reflexivity|].
      destruct (Hset PcOuter s Hth Hstop Hquiet) as (? & ? & ? & Hth1 & Hq1); rewrite Hth1, ?Hq1.
      split_and!; try done. rewrite ?Hq. simpl. lia.
    + eexists. split; [reflexivity|].
      destruct (Hset (PcWrite m) (set_queue rest s)) as (? & ? & ? & Hth1 & Hq1);
        try done.
      rewrite Hth1, ?Hq1. split_and!; try done. simpl. lia.
  - eexists. split; [reflexivity|].
    destruct (writeLogMessage_frame tid message s)
      as ((Htg & _) & Hl & Ht & Hst & _).
    pose proof (writeLogMessage_adds_nothing tid message s Hquiet) as Hq.
    destruct (Hset PcInner (writeLogMessage tid message s)) as (? & ? & ? & Hth1 & Hq1).
    + by rewrite Ht.
    + by rewrite Hst.
    + unfold worker_adds_nothing. by rewrite Htg, Hl.
    + rewrite Hth1, Hq1, Hq. split_and!; try done. simpl. lia.
  - done.
Qed.

Lemma loggingWorker_returns fuel : forall s,
  joinable (logging_thread s) = true ->
  should_stop s = true ->
  worker_adds_nothing s ->
  (moves_to_exit s <= fuel)%nat ->
  exists s', loggingWorker fuel s = Some s'.
Proof.
  induction fuel as [|fuel IH]; intros s Hj Hstop Hquiet Hfuel.
  - destruct (decide (worker_pc s = Some PcExit)) as [Hpc | Hpc].
    + exists s. simpl. by rewrite Hpc.
    + destruct (worker_step_progress s Hj Hstop Hquiet Hpc) as (s1 & _ & _ & _ & _ & Hlt).
      lia.
  - destruct (decide (worker_pc s = Some PcExit)) as [Hpc | Hpc].
    + exists s. simpl. by rewrite Hpc.
    + destruct (worker_step_progress s Hj Hstop Hquiet Hpc)
        as (s1 & Hstep & Hj1 & Hstop1 & Hquiet1 & Hlt).
      destruct (IH s1 Hj1 Hstop1 Hquiet1) as [s' Hrun]; [lia|].
      exists s'. simpl. rewrite Hstep.
      destruct (worker_pc s) as [[]|]; try done.
Qed.

(** ** [shutdown] *)

Lemma loggingWorker_spec fuel : forall s s',
  loggingWorker fuel s = Some s' ->
  worker_pc s' = Some PcExit /\
  steps s s' /\
  should_stop s' = should_stop s /\
  exists es, events (world s') = events (world s) ++ es /\ no_lifecycle es.
Proof.
  assert (Hdone : forall s, worker_pc s = Some PcExit ->
            worker_pc s = Some PcExit /\ steps s s /\ should_stop s = should_stop s /\
            exists es, events (world s) = events (world s) ++ es /\ no_lifecycle es).
  { intros s H. split; [done|]. split; [constructor|]. split; [done|].
    exists []. rewrite app_nil_r. split; [done | constructor]. }
  assert (Hmove : forall s s1 s',
            worker_step s = Some s1 ->
            (worker_pc s' = Some PcExit /\ steps s1 s' /\
             should_stop s' = should_stop s1 /\
             exists es, events (world s') = events (world s1) ++ es /\ no_lifecycle es) ->
            worker_pc s' = Some PcExit /\ steps s s' /\
            should_stop s' = should_stop s /\
            exists es, events (world s') = events (world s) ++ es /\ no_lifecycle es).
  { intros s s1 s' Hw (Hpc & Hsteps & Hst & es & He & Hn).
    destruct (worker_step_events s s1 Hw) as (Hst1 & es1 & He1 & Hn1).
    split; [done|]. split.
    - eapply steps_trans; [|exact Hsteps].
      eapply steps_step; [constructor | by apply step_worker].
    - split; [congruence|]. exists (es1 ++ es).
      rewrite He, He1, app_assoc. split; [done | by apply Forall_app_2]. }
  induction fuel as [|fuel IH]; intros s s'; simpl.
  - destruct (worker_pc s) as [[]|] eqn:Hpc; try done.
    intros [= <-]. by apply Hdone.
  - destruct (worker_pc s) as [[]|] eqn:Hpc;
      try (destruct (worker_step s) as [s1|] eqn:Hw; [|done];
           intros Hrun; by apply (Hmove s s1 s' Hw), IH).
    intros [= <-]. by apply Hdone.
Qed.

Lemma request_stop_spec s :
  logging_thread (request_stop s) = logging_thread s /\
  should_stop (request_stop s) = true /\
  events (world (request_stop s)) = events (world s) ++ [EStopRequested; ENotifyAll].
Proof. unfold request_stop. simpl. by rewrite <- app_assoc. Qed.


Lemma worker_step_config s s' :
  worker_step s = Some s' ->
  current_log_level s' = current_log_level s /\ log_target s' = log_target s.
Proof.
  unfold worker_step.
  destruct (logging_thread s) as [|tid pc] eqn:Hth; [done|].
  assert (Hset : forall pc0 s0,
            current_log_level (set_pc pc0 s0) = current_log_level s0 /\
            log_target (set_pc pc0 s0) = log_target s0).
  { intros pc0 s0. by destruct (set_pc_frame pc0 s0) as ((? & _) & ? & _). }
  destruct pc; try (intros [= <-]; apply Hset); try done.
  - destruct (worker_wait_pred s); [|done]. intros [= <-]. apply Hset.
  - destruct (log_queue s); intros [= <-]; [apply Hset|].
    by destruct (Hset (PcWrite s0) (set_queue l s)).
  - intros [= <-].
    destruct (writeLogMessage_frame tid message s) as ((Htg & _) & Hl & _).
    destruct (Hset PcInner (writeLogMessage tid message s)) as [-> ->]. done.
Qed.

Lemma worker_steps_config n : forall s,
  current_log_level (worker_steps n s) = current_log_level s /\
  log_target (worker_steps n s) = log_target s.
Proof.
  induction n as [|n IH]; intros s; simpl; [done|].
  destruct (worker_step s) as [s1|] eqn:Hw; [|done].
  destruct (worker_step_config s s1 Hw) as [<- <-]. apply IH.
Qed.

Lemma state_after_config k : forall sched s,
  current_log_level (state_after sched k s) = current_log_level s /\
  log_target (state_after sched k s) = log_target s.
Proof.
  induction k as [|k IH]; intros sched s; simpl; [done|].
  destruct (worker_steps_config (tick_worker_moves (hd idle_tick sched)) s)
    as [<- <-].
  apply IH.
Qed.

Lemma worker_exit_move s s1 :
  worker_step s = Some s1 -> worker_pc s1 = Some PcExit -> pending s1 = [].
Proof.
  intros Hstep Hexit.
  destruct (worker_step_pc s s1 Hstep) as (tid & pc & pc' & Ht & Ht1 & Hpc).
  assert (pc' = PcExit) as ->
    by (unfold worker_pc in Hexit; rewrite Ht1 in Hexit; congruence).
  unfold pending, in_flight. rewrite Hexit. simpl.
  destruct pc.
  - destruct Hpc as [Hpc _]. by destruct (should_stop s).
  - destruct Hpc as [Hpc Hs1].
    destruct (queue_empty s) eqn:Hq; [|done].
    rewrite Hs1.
    destruct (set_pc_frame PcExit s) as (_ & _ & _ & Hq' & _).
    rewrite Hq'. unfold queue_empty in Hq. by destruct (log_queue s).
  - done.
  - by destruct Hpc as [|[m ?]].
  - done.
  - done.
Qed.


(** What [shutdown] did when it returns from an engine with a worker. *)
Lemma shutdown_unfold fuel sched inside s s' :
  joinable (logging_thread s) = true ->
  shutdown fuel sched inside s = Some s' ->
  exists s1 s4,
    flush sched inside s = Some s1 /\
    loggingWorker fuel (request_stop s1) = Some s4 /\
    s' = (if log_file s4
          then emit [EFileFlush; EFileClose]
                 (set_file_open false (emit [EJoin] (set_thread NoThread s4)))
          else emit [EJoin] (set_thread NoThread s4)).
Proof.
  intros Hj. unfold shutdown. rewrite Hj.
  destruct (flush sched inside s) as [s1|] eqn:Hflush; [|done].
  destruct (flush_returns_spec _ _ _ _ Hflush) as (s0 & -> & Hsteps & _).
  destruct (steps_effect _ _ Hsteps) as (_ & _ & _ & Hj0 & _).
  destruct (flush_file_spec s0) as (_ & Ht1 & _).
  destruct (request_stop_spec (flush_file s0)) as (Hrt & _).
  cbv zeta. rewrite Hrt, Ht1, Hj0, Hj. unfold join.
  destruct (loggingWorker fuel (request_stop (flush_file s0))) as [s4|] eqn:Hrun;
    [|done].
  change (log_file (emit [EJoin] (set_thread NoThread s4))) with (log_file s4).
  intros Hsd. exists (flush_file s0), s4. split; [done|]. split; [done|].
  destruct (log_file s4); by injection Hsd as <-.
Qed.

Lemma shutdown_post fuel sched inside s s' :
  shutdown fuel sched inside s = Some s' ->
  logging_thread s' = NoThread /\ log_file s' = false.
Proof.
  destruct (joinable (logging_thread s)) eqn:Hj.
  - intros Hsd.
    destruct (shutdown_unfold _ _ _ _ _ Hj Hsd) as (s1 & s4 & _ & _ & ->).
    by destruct (log_file s4) eqn:Ho.
  - unfold shutdown. rewrite Hj.
    destruct (logging_thread s) eqn:Ht; [|done].
    destruct (log_file s) eqn:Ho; intros [= <-]; by split.
Qed.





(** ** [initialize] *)


Lemma logMessage_pass tid level module message s :
  level_lt level (current_log_level s) = false ->
  logMessage tid level module message s =
  emit [ENotifyOne]
    (set_queue (log_queue s ++
                [formatLogMessage (clock (world s) (clock_reads (world s)))
                   tid level module message])
       (snd (read_clock s))).
Proof. intros H. unfold logMessage. by rewrite H. Qed.

Lemma initialize_fresh tid wid level target path mb backups s :
  logging_thread s = NoThread ->
  exists s',
    initialize tid wid level target path mb backups s = Some s' /\
    current_log_level s' = level /\
    log_target s' = target /\
    log_file_path s' = path /\
    max_file_size_bytes s' = size_t_wrap (mb * 1024 * 1024) /\
    max_backup_files s' = backups /\
    should_stop s' = false /\
    logging_thread s' = Thread wid PcOuter /\
    log_file s' =
      log_file (if target_has_file target
                then openLogFile (configured level target path mb backups s)
                else s) /\
    fs (world s') =
      fs (world (if target_has_file target
                 then openLogFile (configured level target path mb backups s)
                 else s)) /\
    log_queue s' =
      log_queue s ++
      bootstrap_records tid level target path (clock (world s)) (clock_reads (world s)).
Proof.
  intros Ht. unfold initialize.
  fold (configured level target path mb backups s).
  set (s1 := configured level target path mb backups s).
  change (log_target s1) with target.
  set (s2 := if target_has_file target then openLogFile s1 else s1).
  assert (H2 : current_log_level s2 = level /\ log_target s2 = target /\
               log_file_path s2 = path /\
               max_file_size_bytes s2 = size_t_wrap (mb * 1024 * 1024) /\
               max_backup_files s2 = backups /\
               log_queue s2 = log_queue s /\
               logging_thread s2 = NoThread /\
               clock (world s2) = clock (world s) /\
               clock_reads (world s2) = clock_reads (world s) /\
               log_file s2 = log_file (if target_has_file target
                                       then openLogFile s1 else s) /\
               fs (world s2) = fs (world (if target_has_file target
                                          then openLogFile s1 else s))).
  { subst s2. destruct (target_has_file target); [|by subst s1].
    destruct (openLogFile_frame s1)
      as ((H1 & H2 & H3 & H4 & _) & H5 & H6 & H7 & _ & H8 & H9).
    by rewrite H1, H2, H3, H4, H5, H6, H7, H8, H9. }
  destruct H2 as (Hl & Htg & Hp & Hm & Hb & Hq & Hth & Hclk & Hrd & Ho & Hfs).
  clearbody s2 s1.
  cbn [set_stop logging_thread]. rewrite Hth.
  set (s4 := emit [EThreadStart wid]
               (set_thread (Thread wid PcOuter) (set_stop false s2))).
  assert (Hl4 : current_log_level s4 = level) by exact Hl.
  unfold bootstrap_records.
  destruct (level_lt INFO level) eqn:Hlt.
  - rewrite !(logMessage_below tid INFO "LOGGER" _ s4) by (by rewrite Hl4).
    change (log_target s4) with (log_target s2). rewrite Htg.
    assert (Hfin : exists s', Some s4 = Some s' /\ current_log_level s' = level /\
              log_target s' = target /\ log_file_path s' = path /\
              max_file_size_bytes s' = size_t_wrap (mb * 1024 * 1024) /\
              max_backup_files s' = backups /\ should_stop s' = false /\
              logging_thread s' = Thread wid PcOuter /\
              log_file s' = log_file (if target_has_file target
                                      then openLogFile s1 else s) /\
              fs (world s') = fs (world (if target_has_file target
                                         then openLogFile s1 else s)) /\
              log_queue s' = log_queue s ++ []).
    { exists s4. subst s4. rewrite app_nil_r.
      cbn [emit set_thread set_stop set_world current_log_level log_target
           log_file_path max_file_size_bytes max_backup_files log_file log_queue
           logging_thread should_stop world fs].
      by split_and!. }
    destruct (decide (target = CONSOLE)); exact Hfin.
  - rewrite (logMessage_pass tid INFO "LOGGER" "Logging system initialized" s4)
      by (by rewrite Hl4).
    set (s5 := emit [ENotifyOne] _).
    assert (Hl5 : current_log_level s5 = level) by exact Hl.
    rewrite (logMessage_pass tid INFO "LOGGER" _ s5) by (by rewrite Hl5).
    set (s6 := emit [ENotifyOne] _).
    assert (Hl6 : current_log_level s6 = level) by exact Hl.
    rewrite (logMessage_pass tid INFO "LOGGER" _ s6) by (by rewrite Hl6).
    set (s7 := emit [ENotifyOne] _).
    assert (Hl7 : current_log_level s7 = level) by exact Hl.
    change (log_target s7) with (log_target s2). rewrite Htg.
    destruct (decide (target = CONSOLE)).
    + exists s7. subst s7 s6 s5 s4.
      cbn [emit set_thread set_stop set_world set_queue read_clock snd
           current_log_level log_target log_file_path max_file_size_bytes
           max_backup_files log_file log_queue logging_thread should_stop
           world fs clock clock_reads].
      rewrite Hq, Hclk, Hrd, app_nil_r, <- !app_assoc. by split_and!.
    + rewrite (logMessage_pass tid INFO "LOGGER" _ s7) by (by rewrite Hl7).
      eexists. split; [reflexivity|]. subst s7 s6 s5 s4.
      cbn [emit set_thread set_stop set_world set_queue read_clock snd
           current_log_level log_target log_file_path max_file_size_bytes
           max_backup_files log_file log_queue logging_thread should_stop
           world fs clock clock_reads].
      rewrite Hq, Hclk, Hrd, <- !app_assoc. by split_and!.
Qed.

(** ** An engine without a worker *)

Lemma logMessage_events_exact tid level module message s :
  events (world (logMessage tid level module message s)) =
  events (world s) ++
  (if level_lt level (current_log_level s) then [] else [ENotifyOne]).
Proof.
  unfold logMessage.
  destruct (level_lt level (current_log_level s)); simpl; [by rewrite app_nil_r | done].
Qed.

Lemma logMessage_cerr tid level module message s :
  cerr_lines (logMessage tid level module message s) = cerr_lines s.
Proof.
  unfold cerr_lines. rewrite logMessage_events_exact, omap_app.
  destruct (level_lt level (current_log_level s)); simpl; by rewrite app_nil_r.
Qed.

Lemma initialize_cerr tid wid level target path mb backups s s' :
  initialize tid wid level target path mb backups s = Some s' ->
  cerr_lines s' =
  cerr_lines (if target_has_file target
              then openLogFile (configured level target path mb backups s)
              else s).
Proof.
  unfold initialize. fold (configured level target path mb backups s).
  set (s1 := configured level target path mb backups s).
  change (log_target s1) with target.
  set (s2 := if target_has_file target then openLogFile s1 else s1).
  assert (H2 : cerr_lines s2 =
               cerr_lines (if target_has_file target then openLogFile s1 else s)).
  { subst s2. by destruct (target_has_file target). }
  clearbody s2. cbn [set_stop logging_thread].
  destruct (logging_thread s2); [|done].
  intros [= <-].
  destruct (decide _); rewrite !logMessage_cerr;
    unfold cerr_lines; simpl; rewrite omap_app; simpl; by rewrite app_nil_r.
Qed.

Lemma step_no_thread s s' :
  step s s' -> logging_thread s = NoThread ->
  logging_thread s' = NoThread /\
  log_file s' = log_file s /\
  fs (world s') = fs (world s) /\
  written_records s' = written_records s /\
  console_lines s' = console_lines s /\
  file_lines s' = file_lines s /\
  exists added, log_queue s' = log_queue s ++ added.
Proof.
  intros Hstep Ht.
  assert (Hquiet : forall es s1, events (world s1) = events (world s) ++ es ->
            no_output es ->
            written_records s1 = written_records s /\
            console_lines s1 = console_lines s /\ file_lines s1 = file_lines s).
  { intros es s1 He Hno. unfold written_records, file_lines, console_lines.
    rewrite He, !omap_app.
    rewrite !(no_output_omap _ es) by (done || by intros []).
    by rewrite !app_nil_r. }
  destruct Hstep as [s s' Hw | tid level module message s Hfree | level s | s | s Ho].
  - unfold worker_step in Hw. by rewrite Ht in Hw.
  - destruct (logMessage_frame tid level module message s)
      as (_ & _ & Ho & Hth & _ & Hfs).
    pose proof (logMessage_events_exact tid level module message s) as He.
    destruct (Hquiet _ _ He) as (Hwr & Hcons & Hf).
    { by destruct (level_lt level (current_log_level s)); repeat constructor. }
    rewrite Hth, Ho, Hfs, logMessage_queue. split_and!; try done. by eexists.
  - split_and!; try done. exists []. simpl. by rewrite app_nil_r.
  - destruct (Hquiet [EStopRequested; ENotifyAll] (request_stop s)) as (Hwr & Hcons & Hf).
    + simpl. by rewrite <- app_assoc.
    + by repeat constructor.
    + split_and!; try done. exists []. simpl. by rewrite app_nil_r.
  - destruct (Hquiet [EFileFlush] (emit [EFileFlush] s)) as (Hwr & Hcons & Hf).
    + done.
    + by repeat constructor.
    + split_and!; try done. exists []. simpl. by rewrite app_nil_r.
Qed.

Lemma steps_no_thread s s' :
  steps s s' -> logging_thread s = NoThread ->
  logging_thread s' = NoThread /\
  log_file s' = log_file s /\
  fs (world s') = fs (world s) /\
  written_records s' = written_records s /\
  console_lines s' = console_lines s /\
  file_lines s' = file_lines s /\
  exists added, log_queue s' = log_queue s ++ added.
Proof.
  induction 1 as [s | s1 s2 s3 H12 IH Hstep]; intros Ht.
  { split_and!; try done. exists []. by rewrite app_nil_r. }
  destruct (IH Ht) as (Ht2 & Ho2 & Hfs2 & Hw2 & Hc2 & Hf2 & a2 & Hq2).
  destruct (step_no_thread s2 s3 Hstep Ht2) as (Ht3 & Ho3 & Hfs3 & Hw3 & Hc3 & Hf3 & a3 & Hq3).
  split; [done|]. split; [congruence|]. split; [congruence|]. split; [congruence|].
  split; [congruence|]. split; [congruence|].
  exists (a2 ++ a3). by rewrite Hq3, Hq2, app_assoc.
Qed.


(** ** The level filter *)







(** ** The singleton before and after the engine exists *)

(** C9 (as amended). Once the engine exists, [setLogLevel L] followed by
    [getLogLevel] returns [L] at once, whatever is queued; the update
    changes the threshold and nothing else; the calls filtered afterwards
    use [L]; and the records already pending are all written however the
    threshold is changed later. *)
Theorem setLogLevel_getLogLevel level impl :
  getLogLevel (setLogLevel level (Engine impl)) = level /\
  setLogLevel level (Engine impl) = Engine (set_level level impl) /\
  log_queue (set_level level impl) = log_queue impl /\
  pending (set_level level impl) = pending impl /\
  world (set_level level impl) = world impl /\
  logging_thread (set_level level impl) = logging_thread impl /\
  log_file (set_level level impl) = log_file impl /\
  (forall tid l module message,
     log_queue (logMessage tid l module message (set_level level impl)) =
     log_queue impl ++
     (if level_lt l level then []
      else [record_of tid l module message impl])) /\
  (forall s2, steps (set_level level impl) s2 -> pending s2 = [] ->
     exists later, delivers (set_level level impl) s2 (pending impl ++ later)).
Proof.
  split_and!; try done.
  - intros tid l module message. by rewrite logMessage_queue.
  - intros s2 Hsteps Hdrained.
    destruct (steps_effect _ _ Hsteps) as (_ & _ & _ & _ & W & added & Hd & Hp).
    rewrite Hdrained, app_nil_r in Hp. subst W. by exists added.
Qed.

(** C9, the claim as worded fails: while there is no engine the update is
    dropped, and the level read back is INFO. *)
Lemma setLogLevel_without_engine :
  getLogLevel (setLogLevel DEBUG (Null (demo_world ∅ ∅))) = INFO /\
  getLogLevel (setLogLevel DEBUG (Null (demo_world ∅ ∅))) <> DEBUG.
Proof. split; [reflexivity | discriminate]. Qed.

(** C10. While the singleton holds no engine, [getLogLevel] answers INFO
    and [setLogLevel] changes nothing, so that INFO is still the answer
    afterwards.  The first [log] call creates the engine with threshold
    INFO and the console as its only target: no file is opened and the
    file system is left as it was.  [initialize] called with its default
    arguments creates it with target Both instead. *)
Theorem logger_before_engine w :
  getLogLevel (Null w) = INFO /\
  (forall level,
     setLogLevel level (Null w) = Null w /\
     getLogLevel (setLogLevel level (Null w)) = INFO) /\
  (forall tid wid level module message,
     exists impl,
       Logger_log tid wid level module message (Null w) = Some (Engine impl) /\
       current_log_level impl = INFO /\
       log_target impl = CONSOLE /\
       log_file impl = false /\
       fs (world impl) = fs w /\
       logging_thread impl = Thread wid PcOuter) /\
  (forall tid wid,
     exists impl,
       Logger_initialize_default tid wid (Null w) = Some (Engine impl) /\
       current_log_level impl = INFO /\
       log_target impl = BOTH).
Proof.
  split; [reflexivity|]. split; [by intros level|]. split.
  - intros tid wid level module message. unfold Logger_log.
    destruct (initialize_fresh tid wid INFO CONSOLE "inference_service.log" 10 5
                (new_Impl w) eq_refl)
      as (s' & Hi & Hl & Htg & _ & _ & _ & _ & Hth & Ho & Hfs & _).
    rewrite Hi. eexists. split; [reflexivity|].
    destruct (logMessage_frame tid level module message s')
      as ((Htg' & _) & Hl' & Ho' & Hth' & _ & Hfs').
    rewrite Htg', Hl', Ho', Hth', Hfs'. by split_and!.
  - intros tid wid. unfold Logger_initialize_default, Logger_initialize.
    destruct (initialize_fresh tid wid INFO BOTH "inference_service.log" 10 5
                (new_Impl w) eq_refl)
      as (s' & Hi & Hl & Htg & _).
    rewrite Hi. by exists s'.
Qed.

(** ** The backup chain *)

Lemma backup_path_inj path i j : backup_path path i = backup_path path j -> i = j.
Proof.
  unfold backup_path. intros H.
  apply String.app_inj in H. apply String.app_inj in H.
  by apply pretty_Z_inj in H.
Qed.

(** The loop never touches a slot above [last]. *)
Lemma rotate_backups_above path last k : forall f f' ok,
  Z.of_nat k <= last ->
  rotate_backups path last k f = (f', ok) ->
  forall j, last < j ->
    Fs.files f' !! backup_path path j = Fs.files f !! backup_path path j.
Proof.
  induction k as [|k IH]; intros f f' ok Hk.
  { simpl. by intros [= <- <-]. }
  rewrite rotate_backups_S. cbv zeta.
  unfold Fs.exists_. case_decide as Hden; [by intros [= <- <-]|].
  case_bool_decide as Hex; [|apply IH; lia].
  destruct (Z.of_nat (S k) =? last) eqn:Hlast.
  - destruct (Fs.remove _ f) as [f1|] eqn:Hrm; [|by intros [= <- <-]].
    destruct (remove_spec _ _ _ Hrm) as (_ & _ & Hf1).
    intros Hrec j Hj. rewrite (IH _ _ _ ltac:(lia) Hrec j Hj), Hf1.
    apply lookup_delete_ne. intros E. apply backup_path_inj in E. lia.
  - destruct (Fs.rename _ _ f) as [f1|] eqn:Hrn; [|by intros [= <- <-]].
    destruct (rename_spec _ _ _ _ Hrn) as (_ & _ & c & _ & Hf1).
    apply Z.eqb_neq in Hlast.
    intros Hrec j Hj. rewrite (IH _ _ _ ltac:(lia) Hrec j Hj), Hf1.
    rewrite lookup_insert_ne by (intros E; apply backup_path_inj in E; lia).
    apply lookup_delete_ne. intros E. apply backup_path_inj in E. lia.
Qed.

(** For a backup count [n] of two or more, a rotation never creates or
    changes the slot [path.n]: the chain it maintains ends at [path.(n-1)]. *)
Lemma rotate_files_leaves_last_slot path n f f' ok :
  2 <= n < 2 ^ 31 ->
  rotate_files path n f = (f', ok) ->
  Fs.files f' !! backup_path path n = Fs.files f !! backup_path path n.
Proof.
  intros Hn. unfold rotate_files.
  assert (Hlast : size_t_wrap (n - 1) = n - 1).
  { unfold size_t_wrap. apply Z.mod_small. lia. }
  assert (Hint : to_int (n - 1) = n - 1).
  { unfold to_int. rewrite Z.mod_small by lia.
    destruct (n - 1 <? 2 ^ 31) eqn:E; [done|]. apply Z.ltb_ge in E. lia. }
  rewrite Hlast, Hint.
  destruct (rotate_backups path (n - 1) (Z.to_nat (n - 1)) f) as [f1 ok1] eqn:Hrb.
  assert (H1 : Fs.files f1 !! backup_path path n = Fs.files f !! backup_path path n).
  { eapply rotate_backups_above; [|exact Hrb|]; lia. }
  destruct ok1; [|by intros [= <- <-]].
  destruct (Fs.rename _ _ f1) as [f2|] eqn:Hrn; [|by intros [= <- <-]].
  destruct (rename_spec _ _ _ _ Hrn) as (_ & _ & c & _ & Hf2).
  intros [= <- <-]. rewrite Hf2, <- H1.
  rewrite lookup_insert_ne by (intros E; apply backup_path_inj in E; lia).
  apply lookup_delete_ne. intros E. symmetry in E. by apply backup_path_ne in E.
Qed.

(** C4, the code at a backup count of two.  The engine is the result of
    [initialize] with the path [logs/app.log], whose directory is created
    and whose file is opened, and with a ceiling of zero bytes, so that
    every write rotates.  After the first rotation the first record is in
    [logs/app.log.1]; after the second rotation [logs/app.log.1] holds the
    second record, no [logs/app.log.2] exists, and the two files
    [logs/app.log] and [logs/app.log.1] are all there is: the first backup
    was deleted, it was not moved to index 2. *)
Theorem two_backups_keep_only_one :
  initialize "main" "worker" INFO FILE "logs/app.log" 0 2 (new_Impl (demo_world ∅ ∅)) =
    Some two_backup_engine /\
  log_file two_backup_engine = true /\
  steps two_backup_engine (worker_steps 6 two_backup_engine) /\
  max_backup_files two_backup_engine = 2 /\
  max_file_size_bytes two_backup_engine = 0 /\
  Fs.files (fs (world (worker_steps 4 two_backup_engine))) !! "logs/app.log.1" =
    Some ["2024-01-02 03:04:05.006 [main] [0000INFO] [000000000LOGGER] Logging system initialized"] /\
  Fs.files (fs (world (worker_steps 6 two_backup_engine))) !! "logs/app.log.1" =
    Some ["2024-01-02 03:04:05.006 [main] [0000INFO] [000000000LOGGER] Log level: INFO"] /\
  Fs.files (fs (world (worker_steps 6 two_backup_engine))) !! "logs/app.log" = Some [] /\
  Fs.files (fs (world (worker_steps 6 two_backup_engine))) !! "logs/app.log.2" = None /\
  size (Fs.files (fs (world (worker_steps 6 two_backup_engine)))) = 2%nat.
Proof.
  split; [vm_compute; reflexivity|]. split; [vm_compute; reflexivity|].
  split; [apply worker_steps_steps|].
  vm_compute. repeat split; reflexivity.
Qed.

(** ** A change of threshold with records pending *)

Lemma setLogLevel_getLogLevel_witness :
  getLogLevel (setLogLevel ERROR (Engine console_engine)) = ERROR /\
  steps (set_level ERROR console_engine)
    (worker_steps 10 (set_level ERROR console_engine)) /\
  pending (worker_steps 10 (set_level ERROR console_engine)) = [] /\
  console_lines (worker_steps 10 (set_level ERROR console_engine)) =
    log_queue console_engine.
Proof.
  destruct (setLogLevel_getLogLevel ERROR console_engine)
    as (Hget & _ & _ & _ & _ & _ & _ & _ & Hdrain).
  assert (Hp : pending (worker_steps 10 (set_level ERROR console_engine)) = [])
    by (vm_compute; reflexivity).
  destruct (Hdrain _ (worker_steps_steps 10 _) Hp) as (later & _ & Hcons & _).
  split; [exact Hget|]. split; [apply worker_steps_steps|]. split; [exact Hp|].
  vm_compute. reflexivity.
Defined.

(** * Further properties of the engine *)

(** ** Order of the records *)

(** X1. In every execution the records handed to [writeLogMessage] so
    far, followed by the ones still pending, are what they were at any
    earlier moment, extended at the end: the worker drops, repeats and
    reorders nothing, and a configured console shows the records in that
    same order. *)
Theorem worker_keeps_queue_order s s' :
  steps s s' ->
  exists W added,
    written_records s' = written_records s ++ W /\
    W ++ pending s' = pending s ++ added /\
    (written_records s' ++ pending s' = (written_records s ++ pending s) ++ added) /\
    (target_has_console (log_target s) = true ->
     console_lines s' = console_lines s ++ W).
Proof.
  intros Hsteps.
  destruct (steps_effect s s' Hsteps) as (_ & _ & _ & _ & W & added & Hd & Hp).
  destruct Hd as (Hw & Hc & _).
  exists W, added. split; [exact Hw|]. split; [exact Hp|]. split; [|exact Hc].
  by rewrite Hw, <- !app_assoc, Hp.
Qed.

Lemma worker_keeps_queue_order_witness :
  steps console_engine (worker_steps 5 console_engine) /\
  exists W added,
    written_records (worker_steps 5 console_engine) =
      written_records console_engine ++ W /\
    W ++ pending (worker_steps 5 console_engine) = pending console_engine ++ added.
Proof.
  assert (H : steps console_engine (worker_steps 5 console_engine))
    by apply worker_steps_steps.
  destruct (worker_keeps_queue_order _ _ H) as (W & added & Hw & Hp & _).
  split; [exact H|]. exists W, added. split; [exact Hw | exact Hp].
Defined.

(** ** A file that is not open *)

Lemma step_file_closed s s' :
  step s s' -> log_file s = false ->
  log_file s' = false /\
  fs (world s') = fs (world s) /\
  file_lines s' = file_lines s /\
  cerr_lines s' = cerr_lines s /\
  (target_has_console (log_target s) = false -> console_lines s' = console_lines s).
Proof.
  intros Hstep Hc.
  assert (Hquiet : forall es s1, events (world s1) = events (world s) ++ es ->
            Forall (fun e => is_output e = false /\ cerr_event e = None) es ->
            file_lines s1 = file_lines s /\ console_lines s1 = console_lines s /\
            cerr_lines s1 = cerr_lines s).
  { intros es s1 He Hno. unfold file_lines, console_lines, cerr_lines.
    rewrite He, !omap_app.
    assert (Hout : no_output es).
    { eapply Forall_impl; [exact Hno|]. by intros e [? _]. }
    rewrite !(no_output_omap _ es) by (done || by intros []).
    assert (Hcerr : omap cerr_event es = []).
    { clear -Hno. induction Hno as [|e es [_ He] _ IH]; [done|].
      change (omap cerr_event (e :: es))
        with (match cerr_event e with
              | Some y => y :: omap cerr_event es
              | None => omap cerr_event es end).
      by rewrite He. }
    by rewrite Hcerr, !app_nil_r. }
  destruct Hstep as [s s' Hw | tid level module message s Hfree | level s | s | s Ho].
  - unfold worker_step in Hw.
    destruct (logging_thread s) as [|tid pc] eqn:Hth; [done|].
    assert (Hset : forall pc0 s0,
              log_file (set_pc pc0 s0) = log_file s0 /\
              world (set_pc pc0 s0) = world s0).
    { intros pc0 s0. by destruct (set_pc_frame pc0 s0) as (_ & _ & ? & _ & _ & ? & _). }
    assert (Hsame : forall pc0,
              log_file (set_pc pc0 s) = false /\
              fs (world (set_pc pc0 s)) = fs (world s) /\
              file_lines (set_pc pc0 s) = file_lines s /\
              cerr_lines (set_pc pc0 s) = cerr_lines s /\
              (target_has_console (log_target s) = false ->
               console_lines (set_pc pc0 s) = console_lines s)).
    { intros pc0. destruct (Hset pc0 s) as [Ho Hw'].
      unfold file_lines, console_lines, cerr_lines. by rewrite Ho, Hw'. }
    destruct pc; try (injection Hw as <-; apply Hsame); try done.
    + destruct (worker_wait_pred s); [|done]. injection Hw as <-. apply Hsame.
    + destruct (log_queue s) as [|m rest]; injection Hw as <-; [apply Hsame|].
      destruct (Hset (PcWrite m) (set_queue rest s)) as [Ho Hw'].
      unfold file_lines, console_lines, cerr_lines. by rewrite Ho, Hw'.
    + injection Hw as <-.
      destruct (Hset PcInner (writeLogMessage tid message s)) as [Ho Hw'].
      unfold file_lines, console_lines, cerr_lines. rewrite Ho, Hw'.
      rewrite writeLogMessage_no_file by (by rewrite Hc, andb_false_r).
      destruct (target_has_console (log_target s)); simpl;
        rewrite ?omap_app; simpl; rewrite ?app_nil_r; by split_and!.
  - destruct (logMessage_frame tid level module message s)
      as (_ & _ & Ho & _ & _ & Hfs).
    pose proof (logMessage_events_exact tid level module message s) as He.
    destruct (Hquiet _ _ He) as (Hf & Hcons & Hce).
    { by destruct (level_lt level (current_log_level s)); repeat constructor. }
    rewrite Ho, Hfs. by split_and!.
  - by split_and!.
  - destruct (Hquiet [EStopRequested; ENotifyAll] (request_stop s)) as (Hf & Hcons & Hce).
    + simpl. by rewrite <- app_assoc.
    + by repeat constructor.
    + by split_and!.
  - congruence.
Qed.

(** X2. A file that is not open is never opened again by logging: in
    every execution that starts with the handle closed (the open failed,
    or the target is the console) the handle stays closed, the file system
    is not touched, no line goes to the file and nothing is reported on the
    standard error stream.  With the file as the only target the console
    gets nothing either, although the worker keeps taking the records out
    of the queue: they are lost without any diagnostic. *)
Theorem closed_file_is_never_reopened s s' :
  steps s s' -> log_file s = false ->
  log_file s' = false /\
  fs (world s') = fs (world s) /\
  file_lines s' = file_lines s /\
  cerr_lines s' = cerr_lines s /\
  (target_has_console (log_target s) = false -> console_lines s' = console_lines s).
Proof.
  induction 1 as [s | s1 s2 s3 H12 IH Hstep]; intros Hc.
  { by split_and!. }
  destruct (IH Hc) as (Hc2 & Hfs2 & Hf2 & Hce2 & Hcons2).
  destruct (step_file_closed s2 s3 Hstep Hc2) as (Hc3 & Hfs3 & Hf3 & Hce3 & Hcons3).
  destruct (steps_effect s1 s2 H12) as ((Htg & _) & _).
  split; [done|]. split; [congruence|]. split; [congruence|]. split; [congruence|].
  intros Hno. rewrite Htg in Hcons3. rewrite (Hcons3 Hno). by apply Hcons2.
Qed.

Lemma closed_file_is_never_reopened_witness :
  steps unopened_engine (worker_steps 10 unopened_engine) /\
  log_file unopened_engine = false /\
  target_has_console (log_target unopened_engine) = false /\
  length (written_records (worker_steps 10 unopened_engine)) = 4%nat /\
  log_queue (worker_steps 10 unopened_engine) = [] /\
  console_lines (worker_steps 10 unopened_engine) = [] /\
  file_lines (worker_steps 10 unopened_engine) = [] /\
  log_file (worker_steps 10 unopened_engine) = false.
Proof.
  assert (H : steps unopened_engine (worker_steps 10 unopened_engine))
    by apply worker_steps_steps.
  assert (Hc : log_file unopened_engine = false) by (vm_compute; reflexivity).
  assert (Hno : target_has_console (log_target unopened_engine) = false)
    by (vm_compute; reflexivity).
  destruct (closed_file_is_never_reopened _ _ H Hc) as (Hc' & _ & Hf & _ & Hcons).
  split; [exact H|]. split; [exact Hc|]. split; [exact Hno|].
  split; [vm_compute; reflexivity|]. split; [vm_compute; reflexivity|].
  split; [rewrite (Hcons Hno); vm_compute; reflexivity|].
  split; [rewrite Hf; vm_compute; reflexivity|]. exact Hc'.
Defined.

(** ** Opening the file *)

(** X3. A log file that cannot be opened does not stop [initialize]: the
    call returns, the worker is started and the bootstrap records are
    queued as usual, no file is created or changed, the handle is not
    open, and exactly one diagnostic is written to the standard error
    stream.  When [create_directories] throws it is the exception text;
    it throws for every path without a parent directory, as every bare
    file name is, and the file system is then left as it was.  When the
    directories can be created and the open itself is refused it is the
    "failed to open" text, and the directories above the file exist
    afterwards.  The target setting is kept. *)
Theorem initialize_survives_open_failure tid wid level target path mb backups s :
  logging_thread s = NoThread ->
  log_file s = false ->
  target_has_file target = true ->
  path ∈ Fs.denied (fs (world s)) \/ path ∈ Fs.no_parent (fs (world s)) ->
  exists s',
    initialize tid wid level target path mb backups s = Some s' /\
    log_file s' = false /\
    Fs.files (fs (world s')) = Fs.files (fs (world s)) /\
    (path ∉ Fs.no_parent (fs (world s)) ->
     Fs.dirs (fs (world s')) =
       Fs.dirs (fs (world s)) ∪
       list_to_set (Fs.directory_chain (Fs.parent_path path))) /\
    (Fs.parent_path path = "" ->
     path ∈ Fs.no_parent (fs (world s)) /\ fs (world s') = fs (world s)) /\
    log_target s' = target /\
    logging_thread s' = Thread wid PcOuter /\
    log_queue s' =
      log_queue s ++
      bootstrap_records tid level target path (clock (world s)) (clock_reads (world s)) /\
    cerr_lines s' =
      cerr_lines s ++
      [if decide (path ∈ Fs.no_parent (fs (world s)))
       then DiagOpenException else DiagOpenFailed path].
Proof.
  intros Ht Hc Hf Hbad.
  destruct (initialize_fresh tid wid level target path mb backups s Ht)
    as (s' & Hi & _ & Htg & _ & _ & _ & _ & Hth & Ho & Hfs & Hq).
  pose proof (initialize_cerr _ _ _ _ _ _ _ _ _ Hi) as Hce.
  rewrite Hf in Ho, Hfs, Hce.
  exists s'. split; [exact Hi|].
  destruct (decide (path ∈ Fs.no_parent (fs (world s)))) as [Hnp | Hnp].
  - destruct (openLogFile_no_parent (configured level target path mb backups s) Hnp)
      as (Ho' & Hfs' & Hce').
    change (fs (world (configured level target path mb backups s)))
      with (fs (world s)) in Hfs'.
    split; [by rewrite Ho, Ho'|]. split; [by rewrite Hfs, Hfs'|].
    split; [done|]. split; [by rewrite Hfs, Hfs'|].
    split; [exact Htg|]. split; [exact Hth|]. split; [exact Hq|].
    by rewrite Hce, Hce'.
  - destruct Hbad as [Hd | ?]; [|done].
    destruct (openLogFile_refused (configured level target path mb backups s) Hc Hnp Hd)
      as (Ho' & Hfs' & Hce').
    split; [by rewrite Ho|]. split; [by rewrite Hfs|].
    split; [intros _; rewrite Hfs;
            exact (openLogFile_dirs (configured level target path mb backups s) Hnp)|].
    split; [intros Hpp; exfalso; apply Hnp;
            unfold Fs.no_parent; rewrite elem_of_PropSet; by left|].
    split; [exact Htg|]. split; [exact Hth|]. split; [exact Hq|].
    by rewrite Hce.
Qed.

Lemma initialize_survives_open_failure_witness :
  logging_thread (new_Impl (demo_world ∅ {[ "logs/app.log" ]})) = NoThread /\
  log_file (new_Impl (demo_world ∅ {[ "logs/app.log" ]})) = false /\
  target_has_file BOTH = true /\
  ("logs/app.log" ∈ Fs.denied (fs (world (new_Impl (demo_world ∅ {[ "logs/app.log" ]}))))) /\
  ("app.log" ∈ Fs.no_parent (fs (world (new_Impl (demo_world ∅ ∅))))) /\
  (exists s',
    initialize "main" "worker" INFO BOTH "logs/app.log" 10 5
      (new_Impl (demo_world ∅ {[ "logs/app.log" ]})) = Some s' /\
    log_file s' = false /\
    Fs.files (fs (world s')) = ∅ /\
    Fs.dirs (fs (world s')) = {[ "logs" ]} /\
    cerr_lines s' = [DiagOpenFailed "logs/app.log"]) /\
  (exists s',
    initialize "main" "worker" INFO BOTH "app.log" 10 5
      (new_Impl (demo_world ∅ ∅)) = Some s' /\
    log_file s' = false /\
    fs (world s') = fs (demo_world ∅ ∅) /\
    cerr_lines s' = [DiagOpenException]).
Proof.
  assert (Hd : "logs/app.log" ∈
               Fs.denied (fs (world (new_Impl (demo_world ∅ {[ "logs/app.log" ]})))))
    by compute_done.
  assert (Hb : "app.log" ∈ Fs.no_parent (fs (world (new_Impl (demo_world ∅ ∅)))))
    by compute_done.
  destruct (initialize_survives_open_failure "main" "worker" INFO BOTH "logs/app.log" 10 5
              (new_Impl (demo_world ∅ {[ "logs/app.log" ]})) eq_refl eq_refl eq_refl
              (or_introl Hd))
    as (s' & Hi & Ho & Hfl & Hdr & _ & _ & _ & _ & Hce).
  destruct (initialize_survives_open_failure "main" "worker" INFO BOTH "app.log" 10 5
              (new_Impl (demo_world ∅ ∅)) eq_refl eq_refl eq_refl
              (or_intror Hb))
    as (s2 & Hi2 & Ho2 & _ & _ & Hfs2 & _ & _ & _ & Hce2).
  split; [reflexivity|]. split; [reflexivity|]. split; [reflexivity|].
  split; [exact Hd|]. split; [exact Hb|]. split.
  - exists s'. split; [exact Hi|]. split; [exact Ho|].
    split; [rewrite Hfl; reflexivity|].
    split; [rewrite Hdr by compute_done; vm_compute; reflexivity|].
    rewrite Hce. vm_compute. reflexivity.
  - exists s2. split; [exact Hi2|]. split; [exact Ho2|].
    split; [exact (proj2 (Hfs2 eq_refl))|].
    rewrite Hce2. vm_compute. reflexivity.
Defined.

(** X4. [initialize] opens the log file for appending: a file that exists
    keeps every record it holds, a missing one is created empty, no other
    file is touched and nothing is reported on the standard error stream. *)
Theorem initialize_keeps_existing_log tid wid level target path mb backups s :
  logging_thread s = NoThread ->
  log_file s = false ->
  target_has_file target = true ->
  path ∉ Fs.denied (fs (world s)) ->
  path ∉ Fs.no_parent (fs (world s)) ->
  exists s',
    initialize tid wid level target path mb backups s = Some s' /\
    log_file s' = true /\
    Fs.files (fs (world s')) !! path =
      Some (default [] (Fs.files (fs (world s)) !! path)) /\
    (forall q, q <> path ->
       Fs.files (fs (world s')) !! q = Fs.files (fs (world s)) !! q) /\
    cerr_lines s' = cerr_lines s.
Proof.
  intros Ht Hc Hf Hd Hp.
  destruct (initialize_fresh tid wid level target path mb backups s Ht)
    as (s' & Hi & _ & _ & _ & _ & _ & _ & _ & Ho & Hfs & _).
  pose proof (initialize_cerr _ _ _ _ _ _ _ _ _ Hi) as Hce.
  rewrite Hf in Ho, Hfs, Hce.
  destruct (openLogFile_ok (configured level target path mb backups s) Hc Hd Hp)
    as [Hopen Hfile].
  exists s'. split; [exact Hi|]. split; [congruence|].
  split; [by rewrite Hfs|]. split.
  - intros q Hq. rewrite Hfs.
    exact (openLogFile_other (configured level target path mb backups s) q Hq).
  - rewrite Hce.
    exact (openLogFile_succeeds_quietly
             (configured level target path mb backups s) Hc Hd Hp).
Qed.

Lemma initialize_keeps_existing_log_witness :
  logging_thread (new_Impl (demo_world {[ "logs/app.log" := ["old"] ]} ∅)) = NoThread /\
  log_file (new_Impl (demo_world {[ "logs/app.log" := ["old"] ]} ∅)) = false /\
  target_has_file FILE = true /\
  ("logs/app.log" ∉ Fs.denied (fs (world (new_Impl (demo_world {[ "logs/app.log" := ["old"] ]} ∅))))) /\
  ("logs/app.log" ∉ Fs.no_parent (fs (world (new_Impl (demo_world {[ "logs/app.log" := ["old"] ]} ∅))))) /\
  exists s',
    initialize "main" "worker" INFO FILE "logs/app.log" 10 5
      (new_Impl (demo_world {[ "logs/app.log" := ["old"] ]} ∅)) = Some s' /\
    Fs.files (fs (world s')) !! "logs/app.log" = Some ["old"].
Proof.
  assert (Hd : "logs/app.log" ∉
     Fs.denied (fs (world (new_Impl (demo_world {[ "logs/app.log" := ["old"] ]} ∅)))))
    by compute_done.
  assert (Hp : "logs/app.log" ∉
     Fs.no_parent (fs (world (new_Impl (demo_world {[ "logs/app.log" := ["old"] ]} ∅)))))
    by compute_done.
  destruct (initialize_keeps_existing_log "main" "worker" INFO FILE "logs/app.log" 10 5
              (new_Impl (demo_world {[ "logs/app.log" := ["old"] ]} ∅))
              eq_refl eq_refl eq_refl Hd Hp)
    as (s' & Hi & _ & Hfile & _).
  split; [reflexivity|]. split; [reflexivity|]. split; [reflexivity|].
  split; [exact Hd|]. split; [exact Hp|].
  exists s'. split; [exact Hi|]. rewrite Hfile. reflexivity.
Defined.

(** ** The backup chain *)

(** The loop only touches backup slots. *)
Lemma rotate_backups_only_slots path last k : forall f f' ok,
  rotate_backups path last k f = (f', ok) ->
  forall q, (forall j, q <> backup_path path j) ->
    Fs.files f' !! q = Fs.files f !! q.
Proof.
  induction k as [|k IH]; intros f f' ok.
  { simpl. by intros [= <- <-]. }
  rewrite rotate_backups_S. cbv zeta.
  unfold Fs.exists_. case_decide as Hden; [by intros [= <- <-]|].
  case_bool_decide as Hex; [|apply IH].
  destruct (Z.of_nat (S k) =? last).
  - destruct (Fs.remove _ f) as [f1|] eqn:Hrm; [|by intros [= <- <-]].
    destruct (remove_spec _ _ _ Hrm) as (_ & _ & Hf1).
    intros Hrec q Hq. rewrite (IH _ _ _ Hrec q Hq), Hf1.
    apply lookup_delete_ne. intros E. by apply (Hq (Z.of_nat (S k))).
  - destruct (Fs.rename _ _ f) as [f1|] eqn:Hrn; [|by intros [= <- <-]].
    destruct (rename_spec _ _ _ _ Hrn) as (_ & _ & c & _ & Hf1).
    intros Hrec q Hq. rewrite (IH _ _ _ Hrec q Hq), Hf1.
    rewrite lookup_insert_ne by (intros E; by apply (Hq (Z.of_nat (S k) + 1))).
    apply lookup_delete_ne. intros E. by apply (Hq (Z.of_nat (S k))).
Qed.

(** The loop from slot [k] down to slot 1, without faults: every slot up
    to [k] has moved one place up, the slot that was [last] is gone, and
    slot 1 is free. *)
Lemma rotate_backups_shift path last k : forall f f' ok,
  Fs.denied f = ∅ ->
  Z.of_nat k <= last ->
  (Z.of_nat k < last -> Fs.files f !! backup_path path (Z.of_nat k + 1) = None) ->
  rotate_backups path last k f = (f', ok) ->
  forall j,
    Fs.files f' !! backup_path path j =
    if decide (1 <= j <= Z.of_nat k + 1 /\ j <= last)
    then (if decide (j = 1) then None else Fs.files f !! backup_path path (j - 1))
    else Fs.files f !! backup_path path j.
Proof.
  induction k as [|k IH]; intros f f' ok Hd Hk Hfree.
  { simpl. intros [= <- <-] j.
    case_decide as Hj; [|done].
    assert (j = 1) as -> by lia. rewrite decide_True by done.
    apply Hfree. lia. }
  rewrite rotate_backups_S. cbv zeta.
  unfold Fs.exists_. rewrite decide_False by (rewrite Hd; set_solver).
  case_bool_decide as Hex.
  2:{ (* the slot is empty: nothing moves into the next one *)
    assert (Hnone : Fs.files f !! backup_path path (Z.of_nat (S k)) = None).
    { destruct (Fs.files f !! backup_path path (Z.of_nat (S k))) eqn:E; [|done].
      exfalso. apply Hex. by eexists. }
    intros Hrec j.
    rewrite (IH _ _ _ Hd ltac:(lia)
               ltac:(intros _; by replace (Z.of_nat k + 1) with (Z.of_nat (S k)) by lia)
               Hrec j).
    repeat case_decide; try done; try lia.
    - assert (j = Z.of_nat (S k) + 1) as -> by lia.
      replace (Z.of_nat (S k) + 1 - 1) with (Z.of_nat (S k)) by lia.
      rewrite Hnone. apply Hfree. lia. }
  destruct Hex as [c Hc].
  destruct (Z.of_nat (S k) =? last) eqn:Hlast.
  - apply Z.eqb_eq in Hlast.
    destruct (Fs.remove _ f) as [f1|] eqn:Hrm.
    2:{ unfold Fs.remove in Hrm. rewrite decide_False in Hrm by (rewrite Hd; set_solver).
        done. }
    destruct (remove_spec _ _ _ Hrm) as (Hd1 & _ & Hf1).
    intros Hrec j.
    assert (Hfree1 : Z.of_nat k < last ->
                     Fs.files f1 !! backup_path path (Z.of_nat k + 1) = None).
    { intros _. rewrite Hf1. replace (Z.of_nat k + 1) with (Z.of_nat (S k)) by lia.
      apply lookup_delete_eq. }
    rewrite (IH _ _ _ ltac:(by rewrite Hd1) ltac:(lia) Hfree1 Hrec j), Hf1.
    repeat case_decide; try done; try lia;
      apply lookup_delete_ne; intros E; apply backup_path_inj in E; lia.
  - apply Z.eqb_neq in Hlast.
    destruct (Fs.rename _ _ f) as [f1|] eqn:Hrn.
    2:{ by rewrite (rename_ok _ _ _ _ Hd Hc) in Hrn. }
    destruct (rename_spec _ _ _ _ Hrn) as (Hd1 & _ & c' & Hc' & Hf1).
    intros Hrec j.
    assert (Hfree1 : Z.of_nat k < last ->
                     Fs.files f1 !! backup_path path (Z.of_nat k + 1) = None).
    { intros _. rewrite Hf1. replace (Z.of_nat k + 1) with (Z.of_nat (S k)) by lia.
      rewrite lookup_insert_ne by (intros E; apply backup_path_inj in E; lia).
      apply lookup_delete_eq. }
    rewrite (IH _ _ _ ltac:(by rewrite Hd1) ltac:(lia) Hfree1 Hrec j), Hf1.
    destruct (decide (j = Z.of_nat (S k) + 1)) as [-> | Hne].
    + rewrite decide_False by lia. rewrite decide_True by lia.
      rewrite decide_False by lia.
      rewrite lookup_insert_eq.
      replace (Z.of_nat (S k) + 1 - 1) with (Z.of_nat (S k)) by lia. done.
    + repeat case_decide; try done; try lia;
        (rewrite lookup_insert_ne by (intros E; apply backup_path_inj in E; lia));
        apply lookup_delete_ne; intros E; apply backup_path_inj in E; lia.
Qed.

Lemma backup_count_int n :
  0 <= n < 2 ^ 31 ->
  Z.to_nat (to_int (size_t_wrap (n - 1))) = Z.to_nat (n - 1) /\
  (1 <= n -> size_t_wrap (n - 1) = n - 1) /\
  (n = 0 -> size_t_wrap (n - 1) = 2 ^ 64 - 1).
Proof.
  intros Hn. destruct (decide (n = 0)) as [-> | Hpos].
  - vm_compute. done.
  - assert (Hw : size_t_wrap (n - 1) = n - 1).
    { unfold size_t_wrap. apply Z.mod_small. lia. }
    rewrite Hw. split_and!; [|done|lia].
    unfold to_int. rewrite Z.mod_small by lia.
    destruct (n - 1 <? 2 ^ 31) eqn:E; [done|]. apply Z.ltb_ge in E. lia.
Qed.

(** The [try] block without faults. *)
Lemma rotate_files_shift path n f c :
  Fs.denied f = ∅ -> 0 <= n < 2 ^ 31 ->
  Fs.files f !! path = Some c ->
  exists f',
    rotate_files path n f = (f', true) /\
    Fs.denied f' = ∅ /\ Fs.no_parent f' = Fs.no_parent f /\
    Fs.files f' !! path = None /\
    (forall j,
       Fs.files f' !! backup_path path j =
       if decide (j = 1) then Some c
       else if decide (2 <= j <= n - 1) then Fs.files f !! backup_path path (j - 1)
       else Fs.files f !! backup_path path j) /\
    (forall q, q <> path -> (forall j, q <> backup_path path j) ->
       Fs.files f' !! q = Fs.files f !! q).
Proof.
  intros Hd Hn Hc. unfold rotate_files.
  destruct (backup_count_int n Hn) as (Hk & Hpos & Hzero).
  rewrite Hk.
  set (last := size_t_wrap (n - 1)).
  destruct (rotate_backups path last (Z.to_nat (n - 1)) f) as [f1 ok] eqn:Hrb.
  destruct (rotate_backups_spec _ _ _ _ _ _ Hrb) as (Hd1 & Hp1 & Hf1 & Hok).
  rewrite (Hok Hd) in *.
  assert (Hc1 : Fs.files f1 !! path = Some c) by congruence.
  assert (Hd1' : Fs.denied f1 = ∅) by congruence.
  rewrite (rename_ok _ _ _ _ Hd1' Hc1).
  eexists. split; [reflexivity|]. simpl.
  split; [done|]. split; [done|]. split.
  { rewrite lookup_insert_ne by (intros E; by apply (backup_path_ne path 1)).
    apply lookup_delete_eq. }
  split.
  - intros j. destruct (decide (j = 1)) as [-> | Hj1]; [apply lookup_insert_eq|].
    rewrite lookup_insert_ne by (intros E; apply backup_path_inj in E; lia).
    rewrite lookup_delete_ne by (intros E; symmetry in E; by apply backup_path_ne in E).
    destruct (decide (n = 0)) as [-> | Hn0].
    + simpl in Hrb. injection Hrb as <-. by rewrite decide_False by lia.
    + assert (Hlast : last = n - 1) by (apply Hpos; lia).
      rewrite (rotate_backups_shift path last (Z.to_nat (n - 1)) f f1 true Hd
                 ltac:(lia) ltac:(lia) Hrb j).
      rewrite Hlast, Z2Nat.id by lia.
      repeat case_decide; try done; lia.
  - intros q Hq Hslot.
    rewrite lookup_insert_ne by (intros E; by apply (Hslot 1)).
    rewrite lookup_delete_ne by done.
    by apply (rotate_backups_only_slots _ _ _ _ _ _ Hrb).
Qed.

(** X5. A rotation without faults, for a backup count [n] that fits an
    [int]: the active file becomes backup 1 and a new empty active file is
    opened; every backup from 1 to [n - 2] moves one slot up; what backup
    [n - 1] held is discarded; slots from [n] on and all other files are
    left alone.  With [n] equal to 0 or 1 the loop does not run and the
    old backup 1 is overwritten, so one backup is kept all the same. *)
Theorem rotateLogFile_shifts_backups tid s c :
  Fs.denied (fs (world s)) = ∅ ->
  log_file_path s ∉ Fs.no_parent (fs (world s)) ->
  0 <= max_backup_files s < 2 ^ 31 ->
  Fs.files (fs (world s)) !! log_file_path s = Some c ->
  Fs.files (fs (world (rotateLogFile tid s))) !! log_file_path s = Some [] /\
  (forall j,
     Fs.files (fs (world (rotateLogFile tid s))) !! backup_path (log_file_path s) j =
     if decide (j = 1) then Some c
     else if decide (2 <= j <= max_backup_files s - 1)
          then Fs.files (fs (world s)) !! backup_path (log_file_path s) (j - 1)
          else Fs.files (fs (world s)) !! backup_path (log_file_path s) j) /\
  (forall q, q <> log_file_path s ->
     (forall j, q <> backup_path (log_file_path s) j) ->
     Fs.files (fs (world (rotateLogFile tid s))) !! q = Fs.files (fs (world s)) !! q).
Proof.
  intros Hd Hnp Hn Hc. unfold rotateLogFile.
  set (s1 := emit [EFileClose] (set_file_open false s)).
  destruct (rotate_files_shift (log_file_path s) (max_backup_files s) _ _ Hd Hn Hc)
    as (f' & Hrf & Hd' & Hp' & Hgone & Hslots & Hrest).
  change (rotate_files (log_file_path s1) (max_backup_files s1) (fs (world s1)))
    with (rotate_files (log_file_path s) (max_backup_files s) (fs (world s))).
  rewrite Hrf.
  set (s3 := set_fs f' s1).
  destruct (logMessage_frame tid INFO "LOGGER" "Log file rotated" (openLogFile s3))
    as (_ & _ & _ & _ & _ & ->).
  unfold openLogFile, Fs.create_directories, Fs.open_append.
  change (log_file_path s3) with (log_file_path s).
  change (fs (world s3)) with f'. change (log_file s3) with false.
  rewrite decide_False by (by rewrite Hp').
  cbv beta iota. cbn [Fs.denied Fs.files Fs.with_dirs].
  rewrite decide_False by (rewrite Hd'; set_solver).
  rewrite Hgone. simpl.
  split; [apply lookup_insert_eq|]. split.
  - intros j.
    rewrite lookup_insert_ne by (intros E; symmetry in E; by apply backup_path_ne in E).
    apply Hslots.
  - intros q Hq Hslot. rewrite lookup_insert_ne by done. by apply Hrest.
Qed.

Lemma rotateLogFile_shifts_backups_witness :
  Fs.denied (fs (world chain_engine)) = ∅ /\
  (log_file_path chain_engine ∉ Fs.no_parent (fs (world chain_engine))) /\
  0 <= max_backup_files chain_engine < 2 ^ 31 /\
  Fs.files (fs (world chain_engine)) !! log_file_path chain_engine = Some ["a"] /\
  Fs.files (fs (world (rotateLogFile "worker" chain_engine))) !! "logs/app.log" = Some [] /\
  Fs.files (fs (world (rotateLogFile "worker" chain_engine))) !! "logs/app.log.1" = Some ["a"] /\
  Fs.files (fs (world (rotateLogFile "worker" chain_engine))) !! "logs/app.log.2" = Some ["b"] /\
  Fs.files (fs (world (rotateLogFile "worker" chain_engine))) !! "logs/app.log.3" = None.
Proof.
  assert (Hd : Fs.denied (fs (world chain_engine)) = ∅) by (vm_compute; reflexivity).
  assert (Hp : log_file_path chain_engine ∉ Fs.no_parent (fs (world chain_engine)))
    by compute_done.
  assert (Hn : 0 <= max_backup_files chain_engine < 2 ^ 31) by (vm_compute; split; congruence).
  assert (Hc : Fs.files (fs (world chain_engine)) !! log_file_path chain_engine = Some ["a"])
    by (vm_compute; reflexivity).
  destruct (rotateLogFile_shifts_backups "worker" chain_engine ["a"] Hd Hp Hn Hc)
    as (Ha & Hs & _).
  split; [exact Hd|]. split; [exact Hp|]. split; [exact Hn|]. split; [exact Hc|].
  split; [exact Ha|].
  pose proof (Hs 1) as H1. pose proof (Hs 2) as H2. pose proof (Hs 3) as H3.
  split; [exact H1|].
  split; [refine (eq_trans H2 _) | refine (eq_trans H3 _)]; vm_compute; reflexivity.
Defined.

(** ** What a rotation cannot lose *)

Lemma rotate_files_keeps_active path n f f' ok c :
  Fs.files f !! path = Some c ->
  rotate_files path n f = (f', ok) ->
  if ok then Fs.files f' !! backup_path path 1 = Some c
  else Fs.files f' !! path = Some c.
Proof.
  intros Hc. unfold rotate_files.
  destruct (rotate_backups path _ _ f) as [f1 ok1] eqn:Hrb.
  destruct (rotate_backups_spec _ _ _ _ _ _ Hrb) as (_ & _ & Hf1 & _).
  destruct ok1; [|intros [= <- <-]; congruence].
  destruct (Fs.rename _ _ f1) as [f2|] eqn:Hrn; [|intros [= <- <-]; congruence].
  destruct (rename_spec _ _ _ _ Hrn) as (_ & _ & c' & Hc' & Hf2).
  intros [= <- <-]. rewrite Hf2, lookup_insert_eq. congruence.
Qed.

Lemma rotateLogFile_keeps_active tid s c :
  Fs.files (fs (world s)) !! log_file_path s = Some c ->
  Fs.files (fs (world (rotateLogFile tid s))) !! log_file_path s = Some c \/
  Fs.files (fs (world (rotateLogFile tid s))) !! backup_path (log_file_path s) 1 = Some c.
Proof.
  intros Hc. unfold rotateLogFile.
  set (s1 := emit [EFileClose] (set_file_open false s)).
  destruct (rotate_files (log_file_path s1) (max_backup_files s1) (fs (world s1)))
    as [f ok] eqn:Hrf.
  pose proof (rotate_files_keeps_active _ _ _ _ _ _ Hc Hrf) as Hkeep.
  set (s3 := if ok then set_fs f s1 else emit [ECerr DiagRotationFailed] (set_fs f s1)).
  assert (H3 : fs (world s3) = f) by (subst s3; by destruct ok).
  destruct (logMessage_frame tid INFO "LOGGER" "Log file rotated" (openLogFile s3))
    as (_ & _ & _ & _ & _ & ->).
  destruct ok; [right | left]; apply openLogFile_keeps; by rewrite H3.
Qed.

(** X6. A record written to the file survives the rotation that may follow
    it, whatever fails in the file system during that rotation: after
    [writeLogMessage] the old content followed by the record is held by
    the active file or by backup 1. *)
Theorem written_record_survives_rotation tid message s :
  target_has_file (log_target s) = true -> log_file s = true ->
  Fs.files (fs (world (writeLogMessage tid message s))) !! log_file_path s =
    Some (active_content s ++ [message]) \/
  Fs.files (fs (world (writeLogMessage tid message s)))
    !! backup_path (log_file_path s) 1 = Some (active_content s ++ [message]).
Proof.
  intros Hf Ho. rewrite writeLogMessage_file by done.
  destruct (after_write_frame message s)
    as ((_ & Hpath & _) & _ & _ & _ & _ & _ & Hfiles & _).
  assert (Hc : Fs.files (fs (world (after_write message s)))
                 !! log_file_path (after_write message s) =
               Some (active_content s ++ [message])).
  { rewrite Hpath, Hfiles. apply lookup_insert_eq. }
  destruct (needsRotation (after_write message s)).
  - rewrite <- Hpath. by apply rotateLogFile_keeps_active.
  - left. by rewrite <- Hpath.
Qed.

Lemma written_record_survives_rotation_witness :
  target_has_file (log_target zero_ceiling_engine) = true /\
  log_file zero_ceiling_engine = true /\
  active_content zero_ceiling_engine = [] /\
  (Fs.files (fs (world (writeLogMessage "worker" "m" zero_ceiling_engine)))
     !! log_file_path zero_ceiling_engine = Some ([] ++ ["m"]) \/
   Fs.files (fs (world (writeLogMessage "worker" "m" zero_ceiling_engine)))
     !! backup_path (log_file_path zero_ceiling_engine) 1 = Some ([] ++ ["m"])).
Proof.
  assert (Hf : target_has_file (log_target zero_ceiling_engine) = true)
    by (vm_compute; reflexivity).
  assert (Ho : log_file zero_ceiling_engine = true) by (vm_compute; reflexivity).
  assert (Hc : active_content zero_ceiling_engine = [])
    by (vm_compute; reflexivity).
  split; [exact Hf|]. split; [exact Ho|]. split; [exact Hc|].
  rewrite <- Hc.
  exact (written_record_survives_rotation "worker" "m" zero_ceiling_engine Hf Ho).
Defined.

(** ** A ceiling of zero bytes *)

Lemma rotateLogFile_enqueues tid s :
  level_lt INFO (current_log_level s) = false ->
  exists m, log_queue (rotateLogFile tid s) = log_queue s ++ [m].
Proof.
  intros Hlt. unfold rotateLogFile.
  set (s1 := emit [EFileClose] (set_file_open false s)).
  destruct (rotate_files (log_file_path s1) (max_backup_files s1) (fs (world s1)))
    as [f ok].
  set (s3 := if ok then set_fs f s1 else emit [ECerr DiagRotationFailed] (set_fs f s1)).
  assert (H3 : current_log_level s3 = current_log_level s /\ log_queue s3 = log_queue s).
  { subst s3 s1. by destruct ok. }
  destruct H3 as [Hl3 Hq3].
  destruct (openLogFile_frame s3) as (_ & Hl4 & Hq4 & _).
  rewrite logMessage_queue. unfold enqueued_by.
  rewrite Hl4, Hl3, Hlt, Hq4, Hq3. by eexists.
Qed.

Lemma rotates_set_pc pc s :
  rotates_on_every_write s -> rotates_on_every_write (set_pc pc s).
Proof.
  intros (Hf & Ho & Hd & Hp & Hmax & Hl).
  destruct (set_pc_frame pc s)
    as ((Ht' & Hpath' & Hmax' & _ & Hd' & Hp') & Hl' & Ho' & _ & _ & Hw & _).
  unfold rotates_on_every_write.
  rewrite Ht', Hpath', Hmax', Hl', Ho', Hw. done.
Qed.

Lemma has_work_set_pc pc s :
  joinable (logging_thread s) = true ->
  match pc with
  | PcWrite _ => True
  | PcExit => False
  | _ => log_queue s <> []
  end ->
  has_work (set_pc pc s).
Proof.
  intros Hj Hpc.
  destruct (set_pc_frame pc s) as (_ & _ & _ & Hq & _ & _ & _ & Hpc').
  unfold has_work. rewrite (Hpc' Hj), Hq. exact Hpc.
Qed.

Lemma zero_ceiling_write tid message s :
  rotates_on_every_write s ->
  rotates_on_every_write (writeLogMessage tid message s) /\
  logging_thread (writeLogMessage tid message s) = logging_thread s /\
  log_queue (writeLogMessage tid message s) <> [].
Proof.
  intros (Hf & Ho & Hd & Hp & Hmax & Hl).
  rewrite writeLogMessage_file by done.
  rewrite needsRotation_after_write by done.
  rewrite Hmax.
  assert (Hsz : (0 <=? active_size s + Fs.line_bytes message) = true).
  { apply Z.leb_le. unfold active_size, Fs.line_bytes.
    pose proof (content_bytes_nonneg
                  (default [] (Fs.files (fs (world s)) !! log_file_path s))). lia. }
  rewrite Hsz.
  destruct (after_write_frame message s)
    as ((Ht1 & Hpath1 & Hmax1 & _ & Hd1 & Hp1) & Hl1 & Hth1 & _ & _ & Ho1 & _).
  destruct (rotateLogFile_frame tid (after_write message s))
    as ((Ht2 & Hpath2 & Hmax2 & _ & Hd2 & Hp2) & Hl2 & Hth2 & _).
  split; [|split].
  - unfold rotates_on_every_write.
    rewrite Ht2, Ht1, Hpath2, Hpath1, Hmax2, Hmax1, Hd2, Hd1, Hp2, Hp1, Hl2, Hl1.
    split_and!; try done.
    apply rotateLogFile_reopens.
    + by rewrite Hpath1, Hd1.
    + by rewrite Hpath1, Hp1.
  - by rewrite Hth2, Hth1.
  - destruct (rotateLogFile_enqueues tid (after_write message s)) as [m ->];
      [by rewrite Hl1|].
    intros E. by apply app_eq_nil in E as [_ ?].
Qed.

Lemma zero_ceiling_step s :
  rotates_on_every_write s -> has_work s ->
  exists s1, worker_step s = Some s1 /\ rotates_on_every_write s1 /\ has_work s1.
Proof.
  intros Hr Hw. unfold has_work, worker_pc in Hw. unfold worker_step.
  destruct (logging_thread s) as [|tid pc] eqn:Ht; [done|].
  assert (Hj : joinable (logging_thread s) = true) by (by rewrite Ht).
  destruct pc as [ | | | | m | ]; try done.
  - eexists. split; [reflexivity|]. split; [by apply rotates_set_pc|].
    apply has_work_set_pc; [done|]. by destruct (should_stop s).
  - eexists. split; [reflexivity|]. split; [by apply rotates_set_pc|].
    apply has_work_set_pc; [done|].
    unfold queue_empty. by destruct (log_queue s).
  - unfold worker_wait_pred, queue_empty.
    destruct (log_queue s) as [|m q] eqn:Hq; [done|]. simpl.
    eexists. split; [reflexivity|]. split; [by apply rotates_set_pc|].
    apply has_work_set_pc; [done|]. by rewrite Hq.
  - destruct (log_queue s) as [|m q] eqn:Hq; [done|].
    eexists. split; [reflexivity|]. split.
    + apply rotates_set_pc. exact Hr.
    + by apply has_work_set_pc.
  - destruct (zero_ceiling_write tid m s Hr) as (Hr1 & Ht1 & Hq1).
    eexists. split; [reflexivity|]. split; [by apply rotates_set_pc|].
    apply has_work_set_pc; [by rewrite Ht1|done].
Qed.

Lemma zero_ceiling_steps n : forall s,
  rotates_on_every_write s -> has_work s ->
  rotates_on_every_write (worker_steps n s) /\ has_work (worker_steps n s).
Proof.
  induction n as [|n IH]; intros s Hr Hw; [done|].
  destruct (zero_ceiling_step s Hr Hw) as (s1 & Hs & Hr1 & Hw1).
  simpl. rewrite Hs. by apply IH.
Qed.

Lemma has_work_running s : has_work s -> worker_pc s <> Some PcExit /\
  joinable (logging_thread s) = true.
Proof.
  unfold has_work, worker_pc. destruct (logging_thread s) as [|tid pc]; [done|].
  by destruct pc.
Qed.

Lemma zero_ceiling_worker fuel : forall s,
  rotates_on_every_write s -> has_work s -> loggingWorker fuel s = None.
Proof.
  induction fuel as [|fuel IH]; intros s Hr Hw;
    destruct (has_work_running s Hw) as [Hpc _].
  - simpl. destruct (worker_pc s) as [[]|]; done.
  - destruct (zero_ceiling_step s Hr Hw) as (s1 & Hs & Hr1 & Hw1).
    simpl. rewrite Hs, (IH s1 Hr1 Hw1).
    destruct (worker_pc s) as [[]|]; done.
Qed.

Lemma zero_ceiling_wait pred remaining : forall sched observe s,
  rotates_on_every_write s -> has_work s ->
  rotates_on_every_write (fst (wait_for pred remaining sched observe s)) /\
  has_work (fst (wait_for pred remaining sched observe s)).
Proof.
  induction remaining as [|r IH]; intros sched observe s Hr Hw.
  - simpl. by destruct (observe && pred s).
  - simpl. destruct (observe && pred s); [done|].
    apply IH; by apply zero_ceiling_steps.
Qed.

Lemma zero_ceiling_emit es s :
  rotates_on_every_write s -> has_work s ->
  rotates_on_every_write (emit es s) /\ has_work (emit es s).
Proof. done. Qed.

Lemma zero_ceiling_request_stop s :
  rotates_on_every_write s -> has_work s ->
  rotates_on_every_write (request_stop s) /\ has_work (request_stop s).
Proof. done. Qed.

Lemma zero_ceiling_flush_file s :
  rotates_on_every_write s -> has_work s ->
  rotates_on_every_write (flush_file s) /\ has_work (flush_file s).
Proof.
  intros Hr Hw. unfold flush_file.
  destruct (log_file s); [by apply zero_ceiling_emit | done].
Qed.

Lemma zero_ceiling_flush sched inside s s2 :
  rotates_on_every_write s -> has_work s ->
  flush sched inside s = Some s2 ->
  rotates_on_every_write s2 /\ has_work s2.
Proof.
  intros Hr Hw. unfold flush.
  destruct (zero_ceiling_wait flush_wait_pred flush_timeout sched true s Hr Hw)
    as [Hr1 Hw1].
  set (s1 := fst (wait_for flush_wait_pred flush_timeout sched true s)) in *.
  clearbody s1. cbv zeta.
  destruct (zero_ceiling_step s1 Hr1 Hw1) as (s1' & Hs & Hr' & Hw').
  rewrite Hs. cbn [default from_option].
  destruct (logging_thread s1) as [|t [ | | | | m | ]];
    try (intros [= <-]; by apply zero_ceiling_flush_file).
  destruct inside; [destruct (rotation_record_queued m s1); [done|]|];
    intros [= <-]; by apply zero_ceiling_flush_file.
Qed.

(** X7. With a ceiling of zero bytes, a working file target and a
    threshold of INFO or lower, every write is followed by a rotation and
    every rotation enqueues its own record: once the worker has a record
    to write it keeps moving for ever without reaching the end of
    [loggingWorker], so [join] and [shutdown] do not return. *)
Theorem zero_ceiling_never_drains s :
  rotates_on_every_write s -> has_work s ->
  (forall n, is_Some (worker_step (worker_steps n s)) /\
             worker_pc (worker_steps n s) <> Some PcExit) /\
  (forall fuel, loggingWorker fuel s = None) /\
  (forall fuel sched inside, shutdown fuel sched inside s = None).
Proof.
  intros Hr Hw. split; [|split].
  - intros n. destruct (zero_ceiling_steps n s Hr Hw) as [Hrn Hwn].
    destruct (zero_ceiling_step _ Hrn Hwn) as (s1 & -> & _).
    split; [by eexists|]. by apply has_work_running.
  - intros fuel. by apply zero_ceiling_worker.
  - intros fuel sched inside.
    destruct (shutdown fuel sched inside s) as [s'|] eqn:Hsd; [exfalso|done].
    destruct (has_work_running s Hw) as [_ Hj].
    destruct (shutdown_unfold _ _ _ _ _ Hj Hsd) as (s1 & s4 & Hfl & Hrun & _).
    destruct (zero_ceiling_flush _ _ _ _ Hr Hw Hfl) as [Hr1 Hw1].
    destruct (zero_ceiling_request_stop _ Hr1 Hw1) as [Hr3 Hw3].
    by rewrite (zero_ceiling_worker fuel _ Hr3 Hw3) in Hrun.
Qed.

Lemma zero_ceiling_never_drains_witness :
  rotates_on_every_write zero_ceiling_engine /\ has_work zero_ceiling_engine /\
  shutdown 1000 [] false zero_ceiling_engine = None /\
  shutdown 1000 [] true zero_ceiling_engine = None.
Proof.
  assert (Hr : rotates_on_every_write zero_ceiling_engine).
  { unfold rotates_on_every_write.
    split_and!; try (vm_compute; reflexivity); compute_done. }
  assert (Hw : has_work zero_ceiling_engine) by (vm_compute; discriminate).
  destruct (zero_ceiling_never_drains zero_ceiling_engine Hr Hw) as (_ & _ & Hs).
  split; [exact Hr|]. split; [exact Hw|]. split; apply Hs.
Defined.

(** ** Without a worker *)



(** X9. [initialize] may be called again after [shutdown]: it returns,
    clears the stop flag and starts a new worker, and the records queued
    since the shutdown stay in the queue ahead of the new bootstrap
    records. *)
Theorem initialize_after_shutdown fuel sched inside tid wid level target path mb backups
    s s1 s2 :
  shutdown fuel sched inside s = Some s1 ->
  steps s1 s2 ->
  exists s3,
    initialize tid wid level target path mb backups s2 = Some s3 /\
    should_stop s3 = false /\
    logging_thread s3 = Thread wid PcOuter /\
    current_log_level s3 = level /\
    log_queue s3 =
      log_queue s2 ++
      bootstrap_records tid level target path (clock (world s2)) (clock_reads (world s2)).
Proof.
  intros Hsd Hsteps.
  destruct (shutdown_post _ _ _ _ _ Hsd) as [Ht Ho].
  destruct (steps_no_thread _ _ Hsteps Ht) as (Ht2 & _).
  destruct (initialize_fresh tid wid level target path mb backups s2 Ht2)
    as (s3 & Hi & Hl & _ & _ & _ & _ & Hst & Hth & _ & _ & Hq).
  exists s3. by split_and!.
Qed.

Lemma initialize_after_shutdown_witness :
  shutdown 20 [] false console_engine = Some stopped_engine /\
  steps stopped_engine late_engine /\
  exists s3,
    initialize "main" "worker2" DEBUG CONSOLE "logs/app.log" 10 5 late_engine = Some s3 /\
    should_stop s3 = false /\
    length (log_queue s3) = 4%nat.
Proof.
  assert (H : shutdown 20 [] false console_engine = Some stopped_engine)
    by (vm_compute; reflexivity).
  assert (Hs : steps stopped_engine late_engine).
  { unfold late_engine. eapply steps_step; [apply steps_refl|].
    apply step_log. vm_compute. reflexivity. }
  destruct (initialize_after_shutdown 20 [] false "main" "worker2" DEBUG CONSOLE "logs/app.log" 10 5
              console_engine stopped_engine late_engine H Hs)
    as (s3 & Hi & Hst & _ & _ & Hq).
  split; [exact H|]. split; [exact Hs|].
  exists s3. split; [exact Hi|]. split; [exact Hst|].
  rewrite Hq. vm_compute. reflexivity.
Defined.

(** ** A running worker *)





(** ** The worker after the stop request *)

Lemma worker_step_drains s s1 :
  worker_step s = Some s1 -> worker_adds_nothing s ->
  exists W, delivers s s1 W /\ W ++ pending s1 = pending s.
Proof.
  unfold worker_step.
  destruct (logging_thread s) as [|tid pc] eqn:Hth; [done|].
  assert (Hj : joinable (logging_thread s) = true) by by rewrite Hth.
  assert (Hmove : forall pc', (forall m, pc' <> PcWrite m) ->
            (forall m, pc <> PcWrite m) ->
            exists W, delivers s (set_pc pc' s) W /\ W ++ pending (set_pc pc' s) = pending s).
  { intros pc' Hpc' Hpc. exists []. 
    destruct (set_pc_frame pc' s) as (_ & _ & _ & Hq & _ & Hw & _ & Hpc1).
    split.
    - apply delivers_quiet with []; [by rewrite Hw, app_nil_r | constructor].
    - unfold pending, in_flight. rewrite (Hpc1 Hj), Hq. unfold worker_pc. rewrite Hth.
      destruct pc'; try (by destruct (Hpc' message));
        destruct pc; try done; by destruct (Hpc message). }
  intros Hstep Hquiet. destruct pc.
  - injection Hstep as <-. apply Hmove; [by destruct (should_stop s)|done].
  - injection Hstep as <-. apply Hmove; [by destruct (queue_empty s)|done].
  - destruct (worker_wait_pred s); [|done]. injection Hstep as <-. by apply Hmove.
  - destruct (log_queue s) as [|m rest] eqn:Hq.
    + injection Hstep as <-. by apply Hmove.
    + injection Hstep as <-.
      destruct (set_pc_frame (PcWrite m) (set_queue rest s))
        as (_ & _ & _ & Hq' & _ & Hw & _ & Hpc).
      exists []. split.
      * apply delivers_quiet with []; [by rewrite Hw, app_nil_r | constructor].
      * unfold pending, in_flight. rewrite (Hpc Hj), Hq'. simpl.
        unfold worker_pc. by rewrite Hth, Hq.
  - injection Hstep as <-.
    destruct (writeLogMessage_frame tid message s) as (_ & _ & Ht & _).
    pose proof (writeLogMessage_adds_nothing tid message s Hquiet) as Hq.
    pose proof (writeLogMessage_delivers tid message s) as Hd.
    set (s1 := writeLogMessage tid message s) in *.
    assert (Hj1 : joinable (logging_thread s1) = true) by by rewrite Ht.
    destruct (set_pc_frame PcInner s1) as (_ & _ & _ & Hq' & _ & Hw' & _ & Hpc).
    exists [message]. split.
    + destruct Hd as (Hd1 & Hd2 & Hd3).
      unfold delivers, written_records, console_lines, file_lines.
      rewrite Hw'. done.
    + unfold pending, in_flight. rewrite (Hpc Hj1), Hq', Hq.
      unfold worker_pc. by rewrite Hth.
  - done.
Qed.

Lemma loggingWorker_drains fuel : forall s s',
  loggingWorker fuel s = Some s' ->
  worker_adds_nothing s ->
  worker_pc s <> Some PcExit ->
  delivers s s' (pending s) /\ pending s' = [].
Proof.
  induction fuel as [|fuel IH]; intros s s' Hrun Hquiet Hpc.
  { simpl in Hrun. destruct (worker_pc s) as [[]|]; done. }
  assert (Hrun' : match worker_step s with
                  | Some s1 => loggingWorker fuel s1
                  | None => None
                  end = Some s').
  { simpl in Hrun. destruct (worker_pc s) as [[]|]; done. }
  destruct (worker_step s) as [s1|] eqn:Hstep; [|done].
  destruct (worker_step_drains s s1 Hstep Hquiet) as (W & Hd & Hp).
  destruct (worker_step_effect s s1 Hstep) as ((Htg & _) & _ & Hok & _).
  destruct (worker_step_config s s1 Hstep) as [Hl1 Ht1].
  assert (Hquiet1 : worker_adds_nothing s1).
  { unfold worker_adds_nothing. by rewrite Hl1, Ht1. }
  destruct (decide (worker_pc s1 = Some PcExit)) as [Hexit | Hrunning].
  - assert (s' = s1) as ->.
    { destruct fuel; simpl in Hrun'; rewrite Hexit in Hrun'; congruence. }
    pose proof (worker_exit_move s s1 Hstep Hexit) as Hnil.
    rewrite Hnil, app_nil_r in Hp. subst W. done.
  - destruct (IH s1 s' Hrun' Hquiet1 Hrunning) as [Hd1 Hnil].
    split; [|exact Hnil].
    rewrite <- Hp. by apply delivers_trans with s1.
Qed.

Lemma worker_steps_stop n : forall s,
  should_stop s = true -> should_stop (worker_steps n s) = true.
Proof.
  induction n as [|n IH]; intros s Hstop; [done|]. simpl.
  destruct (worker_step s) as [s1|] eqn:Hstep; [|done].
  destruct (worker_step_effect s s1 Hstep) as (_ & Hs & _). by apply IH, Hs.
Qed.

(** X11. The stop flag is set, the worker enqueues nothing itself and is
    not inside [queue_condition.wait]: it may be anywhere else in
    [loggingWorker].  Every [wait] of the run is then entered with the
    stop flag set, so that its predicate holds and it does not block; a
    worker that is already waiting is left out, because a notification
    sent while it is between the test of the predicate and the block is
    lost to it.  The worker alone returns from [loggingWorker] within two
    moves per queued record and six more, and by then it has handed to
    [writeLogMessage] exactly the records that were pending, each once and
    in queue order; they are on the console when it is a target, and in
    the file when the file target works.  Nothing is left in the queue. *)
Theorem stopped_worker_drains_exactly s :
  joinable (logging_thread s) = true ->
  should_stop s = true ->
  worker_adds_nothing s ->
  worker_pc s <> Some PcExit ->
  worker_pc s <> Some PcWait ->
  (forall n, should_stop (worker_steps n s) = true /\
             worker_wait_pred (worker_steps n s) = true) /\
  exists s',
    loggingWorker (moves_to_exit s) s = Some s' /\
    (moves_to_exit s <= 2 * length (log_queue s) + 6)%nat /\
    worker_pc s' = Some PcExit /\
    log_queue s' = [] /\
    written_records s' = written_records s ++ pending s /\
    (target_has_console (log_target s) = true ->
     console_lines s' = console_lines s ++ pending s) /\
    (target_has_file (log_target s) = true -> file_target_ok s ->
     file_lines s' = file_lines s ++ pending s).
Proof.
  intros Hj Hstop Hquiet Hpc _. split.
  { intros n. pose proof (worker_steps_stop n s Hstop) as Hn.
    split; [exact Hn|]. unfold worker_wait_pred. rewrite Hn. apply orb_true_r. }
  destruct (loggingWorker_returns (moves_to_exit s) s Hj Hstop Hquiet (Nat.le_refl _))
    as [s' Hrun].
  destruct (loggingWorker_spec _ _ _ Hrun) as (Hexit & _).
  destruct (loggingWorker_drains _ _ _ Hrun Hquiet Hpc) as ((Hw & Hc & Hf) & Hnil).
  exists s'. split; [exact Hrun|]. split.
  { unfold moves_to_exit.
    destruct (worker_pc s) as [[]|]; destruct (length (log_queue s)); lia. }
  split; [exact Hexit|]. split.
  { unfold pending in Hnil. by apply app_eq_nil in Hnil as [_ ?]. }
  by split_and!.
Qed.

Lemma stopped_worker_drains_exactly_witness :
  joinable (logging_thread (request_stop console_engine)) = true /\
  should_stop (request_stop console_engine) = true /\
  worker_adds_nothing (request_stop console_engine) /\
  worker_pc (request_stop console_engine) <> Some PcExit /\
  worker_pc (request_stop console_engine) <> Some PcWait /\
  exists s',
    loggingWorker (moves_to_exit (request_stop console_engine))
      (request_stop console_engine) = Some s' /\
    console_lines s' = log_queue console_engine.
Proof.
  assert (Hj : joinable (logging_thread (request_stop console_engine)) = true)
    by (vm_compute; reflexivity).
  assert (Hs : should_stop (request_stop console_engine) = true)
    by (vm_compute; reflexivity).
  assert (Hq : worker_adds_nothing (request_stop console_engine))
    by (left; vm_compute; reflexivity).
  assert (Hpc : worker_pc (request_stop console_engine) <> Some PcExit)
    by (vm_compute; discriminate).
  assert (Hpw : worker_pc (request_stop console_engine) <> Some PcWait)
    by (vm_compute; discriminate).
  destruct (stopped_worker_drains_exactly _ Hj Hs Hq Hpc Hpw)
    as (_ & s' & Hrun & _ & _ & _ & _ & Hc & _).
  split; [exact Hj|]. split; [exact Hs|]. split; [exact Hq|]. split; [exact Hpc|].
  split; [exact Hpw|].
  exists s'. split; [exact Hrun|].
  rewrite Hc by (vm_compute; reflexivity). vm_compute. reflexivity.
Defined.

(** * The log-level endpoint *)

(** ** Searching a text *)

Lemma index_skip pat pre : forall k n s,
  String.length pre = k ->
  String.index (k + n) pat (pre +:+ s) = (fun m => (k + m)%nat) <$> String.index n pat s.
Proof.
  induction pre as [|a pre IH]; intros k n s <-.
  - rewrite string_app_nil_l. simpl. by destruct (String.index n pat s).
  - rewrite string_app_cons.
    change (String.length (String a pre) + n)%nat with (S (String.length pre + n)).
    change (String.index (S (String.length pre + n)) pat (String a (pre +:+ s)))
      with (match String.index (String.length pre + n) pat (pre +:+ s) with
            | Some m => Some (S m) | None => None end).
    rewrite (IH _ n s eq_refl). by destruct (String.index n pat s).
Qed.

Lemma index_no_first c pat pre : forall s,
  WebApiServer.has_char c pre = false ->
  String.index 0 (String c pat) (pre +:+ s) =
  (fun m => (String.length pre + m)%nat) <$> String.index 0 (String c pat) s.
Proof.
  induction pre as [|a pre IH]; intros s Hno.
  - rewrite string_app_nil_l. simpl. by destruct (String.index 0 (String c pat) s).
  - simpl in Hno. apply orb_false_iff in Hno as [Ha Hno].
    apply Ascii.eqb_neq in Ha.
    rewrite string_app_cons.
    change (String.index 0 (String c pat) (String a (pre +:+ s)))
      with (if String.prefix (String c pat) (String a (pre +:+ s)) then Some 0%nat
            else match String.index 0 (String c pat) (pre +:+ s) with
                 | Some m => Some (S m) | None => None end).
    assert (Hp : String.prefix (String c pat) (String a (pre +:+ s)) = false).
    { simpl. destruct (ascii_dec c a); [congruence|done]. }
    rewrite Hp, (IH s Hno). by destruct (String.index 0 (String c pat) s).
Qed.

Lemma prefix_app pat s : String.prefix pat (pat +:+ s) = true.
Proof.
  induction pat as [|a pat IH]; [by destruct s|].
  rewrite string_app_cons. simpl. by destruct (ascii_dec a a).
Qed.

Lemma index_here c pat s :
  String.index 0 (String c pat) (String c pat +:+ s) = Some 0%nat.
Proof.
  rewrite string_app_cons.
  change (String.index 0 (String c pat) (String c (pat +:+ s)))
    with (if String.prefix (String c pat) (String c (pat +:+ s)) then Some 0%nat
          else match String.index 0 (String c pat) (pat +:+ s) with
               | Some m => Some (S m) | None => None end).
  rewrite <- string_app_cons. by rewrite prefix_app.
Qed.

Lemma substring_app_prefix l : forall r,
  String.substring 0 (String.length l) (l +:+ r) = l.
Proof.
  induction l as [|a l IH]; intros r; [by destruct r|].
  rewrite string_app_cons. simpl. by rewrite IH.
Qed.

Lemma substring_skip p : forall k n s,
  String.length p = k ->
  String.substring k n (p +:+ s) = String.substring 0 n s.
Proof.
  induction p as [|a p IH]; intros k n s <-; [done|].
  rewrite string_app_cons. simpl. by apply IH.
Qed.

(** ** The names of the levels *)

Lemma stringToLogLevel_name l :
  WebApiServer.stringToLogLevel (WebApiServer.logLevelToString l) = l.
Proof. by destruct l. Qed.

Lemma stringToLogLevel_other level_str :
  (forall l, level_str <> WebApiServer.logLevelToString l) ->
  WebApiServer.stringToLogLevel level_str = INFO.
Proof.
  intros Hno. unfold WebApiServer.stringToLogLevel.
  repeat case_decide; try done; subst.
  - by destruct (Hno TRACE).
  - by destruct (Hno DEBUG).
  - by destruct (Hno WARN).
  - by destruct (Hno ERROR).
  - by destruct (Hno CRITICAL).
Qed.

(** ** The body of a POST *)

Lemma parse_level_body before between level_str rest :
  WebApiServer.has_char "034" before = false ->
  WebApiServer.has_char "034" between = false ->
  WebApiServer.has_char "034" level_str = false ->
  WebApiServer.parse_level
    (WebApiServer.level_body before between level_str rest) = level_str.
Proof.
  intros Hb Hm Hl.
  unfold WebApiServer.parse_level, WebApiServer.level_body, WebApiServer.find.
  set (tail2 := level_str +:+ WebApiServer.dq +:+ rest).
  set (tail1 := between +:+ WebApiServer.dq +:+ tail2).
  (* the key is found right after [before] *)
  assert (Hpos : String.index 0 WebApiServer.level_key
                   (before +:+ WebApiServer.level_key +:+ tail1) =
                 Some (String.length before)).
  { change WebApiServer.level_key with (String "034" ("level" +:+ WebApiServer.dq +:+ ":")).
    rewrite (index_no_first _ _ before _ Hb), index_here. simpl. f_equal. lia. }
  rewrite Hpos.
  (* the opening quote follows [between] *)
  assert (Hlen1 : String.length (before +:+ WebApiServer.level_key) =
                  (String.length before + 8)%nat).
  { by rewrite string_app_length. }
  assert (Hstart : String.index (String.length before + 8) WebApiServer.dq
                     (before +:+ WebApiServer.level_key +:+ tail1) =
                   Some (String.length before + 8 + String.length between)%nat).
  { rewrite <- string_app_assoc.
    replace (String.length before + 8)%nat
      with (String.length before + 8 + 0)%nat at 1 by lia.
    rewrite (index_skip _ _ _ 0%nat tail1 Hlen1).
    subst tail1. change WebApiServer.dq with (String "034" "").
    rewrite (index_no_first _ _ between _ Hm), index_here. simpl. f_equal. lia. }
  rewrite Hstart.
  (* the closing quote follows the name *)
  set (st := (String.length before + 8 + String.length between)%nat).
  assert (Hlen2 : String.length
                    (((before +:+ WebApiServer.level_key) +:+ between) +:+ WebApiServer.dq) =
                  (st + 1)%nat).
  { rewrite !string_app_length. subst st.
    change (String.length WebApiServer.level_key) with 8%nat.
    change (String.length WebApiServer.dq) with 1%nat. lia. }
  assert (Hbody : before +:+ WebApiServer.level_key +:+ tail1 =
                  (((before +:+ WebApiServer.level_key) +:+ between) +:+ WebApiServer.dq)
                  +:+ tail2).
  { subst tail1. by rewrite !string_app_assoc. }
  rewrite Hbody.
  assert (Hend : String.index (st + 1) WebApiServer.dq
                   ((((before +:+ WebApiServer.level_key) +:+ between) +:+ WebApiServer.dq)
                    +:+ tail2) =
                 Some (st + 1 + String.length level_str)%nat).
  { replace (st + 1)%nat with (st + 1 + 0)%nat at 1 by lia.
    rewrite (index_skip _ _ _ 0%nat tail2 Hlen2).
    subst tail2. change WebApiServer.dq with (String "034" "").
    rewrite (index_no_first _ _ level_str _ Hl), index_here. simpl. f_equal. lia. }
  rewrite Hend.
  replace (st + 1 + String.length level_str - st - 1)%nat
    with (String.length level_str) by lia.
  rewrite (substring_skip _ _ _ tail2 Hlen2).
  subst tail2. apply substring_app_prefix.
Qed.

(** X12. The names of the six levels are read back as the levels they
    name by [stringToLogLevel], they are the names the engine writes into
    its records, and every other text is read as INFO. *)
Theorem level_names_round_trip level_str :
  (forall l, level_str <> WebApiServer.logLevelToString l) ->
  WebApiServer.stringToLogLevel level_str = INFO /\
  forall l,
    WebApiServer.stringToLogLevel (WebApiServer.logLevelToString l) = l /\
    WebApiServer.logLevelToString l = logLevelToString l.
Proof.
  intros Hno. split; [by apply stringToLogLevel_other|].
  intros l. split; [apply stringToLogLevel_name | by destruct l].
Qed.

Lemma level_names_round_trip_witness :
  (forall l, "debug" <> WebApiServer.logLevelToString l) /\
  WebApiServer.stringToLogLevel "debug" = INFO.
Proof.
  assert (H : forall l, "debug" <> WebApiServer.logLevelToString l)
    by (intros []; discriminate).
  split; [exact H|]. exact (proj1 (level_names_round_trip "debug" H)).
Defined.

(** ** The handler *)

Lemma post_on_engine tid wid body s :
  WebApiServer.handleLogLevelRequest tid wid "POST" body (Engine s) =
  Some (WebApiServer.createJsonResponse 200
          (WebApiServer.changed_json (WebApiServer.parse_level body)),
        Engine (logMessage tid INFO "WEBAPI"
                  ("Log level changed to: " +:+ WebApiServer.parse_level body)
                  (set_level (WebApiServer.stringToLogLevel
                                (WebApiServer.parse_level body)) s))).
Proof.
  unfold WebApiServer.handleLogLevelRequest.
  rewrite decide_False by done. rewrite decide_True by done.
  reflexivity.
Qed.

Lemma get_on_engine tid wid body s :
  WebApiServer.handleLogLevelRequest tid wid "GET" body (Engine s) =
  Some (WebApiServer.createJsonResponse 200
          (WebApiServer.level_json
             (WebApiServer.logLevelToString (current_log_level s))),
        Engine s).
Proof.
  unfold WebApiServer.handleLogLevelRequest. by rewrite decide_True by done.
Qed.

Lemma level_name_no_quote l :
  WebApiServer.has_char "034" (WebApiServer.logLevelToString l) = false.
Proof. by destruct l. Qed.

(** X13. The POST branch reads the level name out of a body of the
    documented shape: the key, then the name between the next two double
    quotes, whatever text without double quotes stands before the key and
    between the key and the name, and whatever follows.  On an existing
    engine the answer echoes that name and the threshold becomes the level
    it names. *)
Theorem post_body_is_parsed tid wid before between level_str rest s :
  WebApiServer.has_char "034" before = false ->
  WebApiServer.has_char "034" between = false ->
  WebApiServer.has_char "034" level_str = false ->
  WebApiServer.parse_level
    (WebApiServer.level_body before between level_str rest) = level_str /\
  exists s',
    WebApiServer.handleLogLevelRequest tid wid "POST"
      (WebApiServer.level_body before between level_str rest) (Engine s) =
      Some (WebApiServer.createJsonResponse 200 (WebApiServer.changed_json level_str),
            Engine s') /\
    current_log_level s' = WebApiServer.stringToLogLevel level_str.
Proof.
  intros Hb Hm Hl.
  pose proof (parse_level_body before between level_str rest Hb Hm Hl) as Hparse.
  split; [exact Hparse|].
  eexists. split.
  - rewrite post_on_engine, Hparse. reflexivity.
  - destruct (logMessage_frame tid INFO "WEBAPI"
                ("Log level changed to: " +:+ level_str)
                (set_level (WebApiServer.stringToLogLevel level_str) s))
      as (_ & Hlevel & _).
    by rewrite Hlevel.
Qed.

Lemma post_body_is_parsed_witness :
  WebApiServer.has_char "034" "{" = false /\
  WebApiServer.has_char "034" " " = false /\
  WebApiServer.has_char "034" "DEBUG" = false /\
  WebApiServer.parse_level (WebApiServer.level_body "{" " " "DEBUG" "}") = "DEBUG".
Proof.
  split; [reflexivity|]. split; [reflexivity|]. split; [reflexivity|].
  exact (proj1 (post_body_is_parsed "http" "worker" "{" " " "DEBUG" "}" console_engine
                  eq_refl eq_refl eq_refl)).
Defined.

(** X14. A POST on an existing engine always answers 200 and echoes the
    text it read from the body.  The threshold becomes the level that text
    names, INFO when it names none.  The confirmation record is logged
    after the change, so it passes the filter of the new threshold: it is
    queued only when the new level is INFO or lower.  Nothing else of the
    engine changes. *)
Theorem post_sets_level_on_engine tid wid body s :
  exists s',
    WebApiServer.handleLogLevelRequest tid wid "POST" body (Engine s) =
      Some (WebApiServer.createJsonResponse 200
              (WebApiServer.changed_json (WebApiServer.parse_level body)),
            Engine s') /\
    current_log_level s' = WebApiServer.stringToLogLevel (WebApiServer.parse_level body) /\
    log_queue s' =
      log_queue s ++
      (if level_lt INFO (WebApiServer.stringToLogLevel (WebApiServer.parse_level body))
       then []
       else [formatLogMessage (clock (world s) (clock_reads (world s))) tid INFO "WEBAPI"
               ("Log level changed to: " +:+ WebApiServer.parse_level body)]) /\
    logging_thread s' = logging_thread s /\
    log_file s' = log_file s /\
    fs (world s') = fs (world s) /\
    same_setup s s'.
Proof.
  eexists. split; [apply post_on_engine|].
  set (new_level := WebApiServer.stringToLogLevel (WebApiServer.parse_level body)).
  set (msg := "Log level changed to: " +:+ WebApiServer.parse_level body).
  destruct (logMessage_frame tid INFO "WEBAPI" msg (set_level new_level s))
    as (Hs & Hl & Ho & Ht & _ & Hfs).
  rewrite Hl, Ho, Ht, Hfs, logMessage_queue.
  split; [done|]. split; [|by split_and!].
  unfold enqueued_by, record_of. reflexivity.
Qed.

(** X16. On an existing engine, a POST whose body names one of the six
    levels in the documented shape is answered by the next GET with that
    same name as the current level. *)
Theorem get_after_post tid wid tid' wid' before between l rest body' s :
  WebApiServer.has_char "034" before = false ->
  WebApiServer.has_char "034" between = false ->
  exists resp s',
    WebApiServer.handleLogLevelRequest tid wid "POST"
      (WebApiServer.level_body before between (WebApiServer.logLevelToString l) rest)
      (Engine s) = Some (resp, Engine s') /\
    WebApiServer.handleLogLevelRequest tid' wid' "GET" body' (Engine s') =
      Some (WebApiServer.createJsonResponse 200
              (WebApiServer.level_json (WebApiServer.logLevelToString l)),
            Engine s') /\
    getLogLevel (Engine s') = l.
Proof.
  intros Hb Hm.
  pose proof (parse_level_body before between (WebApiServer.logLevelToString l) rest
                Hb Hm (level_name_no_quote l)) as Hparse.
  eexists _, _. split; [apply post_on_engine|].
  rewrite get_on_engine, Hparse, stringToLogLevel_name.
  destruct (logMessage_frame tid INFO "WEBAPI"
              ("Log level changed to: " +:+ WebApiServer.logLevelToString l)
              (set_level l s)) as (_ & Hl & _).
  unfold getLogLevel. rewrite Hl. done.
Qed.

Lemma get_after_post_witness :
  WebApiServer.has_char "034" "{" = false /\
  WebApiServer.has_char "034" " " = false /\
  exists resp s',
    WebApiServer.handleLogLevelRequest "http" "worker" "POST"
      (WebApiServer.level_body "{" " " "ERROR" "}") (Engine console_engine) =
      Some (resp, Engine s') /\
    getLogLevel (Engine s') = ERROR.
Proof.
  split; [reflexivity|]. split; [reflexivity|].
  destruct (get_after_post "http" "worker" "http" "worker" "{" " " ERROR "}" ""
              console_engine eq_refl eq_refl) as (resp & s' & Hpost & _ & Hl).
  exists resp, s'. split; [exact Hpost | exact Hl].
Defined.

(** * The two mutexes *)

(** X17. Taken alone, the lock-by-lock moves of the worker from the call
    of [writeLogMessage] to the inner loop condition do what the move of
    the worker at that place does in one piece: they end within five
    moves, with the engine that [writeLogMessage] returns, [queue_mutex]
    held again and [log_mutex] released. *)
Theorem writer_alone_is_writeLogMessage tid message s fl :
  exists n,
    (n <= 5)%nat /\
    writer_steps tid n (mkSys s None None (WEnter message) fl) =
    mkSys (set_pc PcInner (writeLogMessage tid message s)) (Some Worker) None WInner fl.
Proof.
  rewrite writeLogMessage_split.
  destruct (target_has_file (log_target s) && log_file s &&
            needsRotation (write_targets message s)) eqn:Hrot.
  - destruct (level_lt INFO (current_log_level (rotate_reopen (write_targets message s))))
      eqn:Hlt.
    + exists 4%nat. split; [lia|].
      rewrite logMessage_below by done.
      cbn [writer_steps writer_step writer free log_mutex queue_mutex engine flusher].
      rewrite Hrot.
      cbn [writer_steps writer_step writer free log_mutex queue_mutex engine flusher].
      rewrite Hlt.
      cbn [writer_steps writer_step writer free log_mutex queue_mutex engine flusher].
      reflexivity.
    + exists 5%nat. split; [lia|].
      rewrite logMessage_pass by done.
      cbn [writer_steps writer_step writer free log_mutex queue_mutex engine flusher].
      rewrite Hrot.
      cbn [writer_steps writer_step writer free log_mutex queue_mutex engine flusher].
      rewrite Hlt.
      cbn [writer_steps writer_step writer free log_mutex queue_mutex engine flusher
           read_clock snd].
      reflexivity.
  - exists 3%nat. split; [lia|].
    cbn [writer_steps writer_step writer free log_mutex queue_mutex engine flusher].
    rewrite Hrot.
    cbn [writer_steps writer_step writer free log_mutex queue_mutex engine flusher].
    reflexivity.
Qed.

(** ** A deadlock *)

(** X18. [flush] and a rotating worker can block each other for ever.
    When the worker has entered [writeLogMessage] for a record whose write
    makes a rotation due, the rotation record passes the filter, and the
    predicate of [flush] holds (empty queue or stop flag), there is an
    interleaving that ends with the worker inside [logMessage] holding
    [log_mutex] and waiting for [queue_mutex], and the thread in [flush]
    holding [queue_mutex] and waiting for [log_mutex]: no thread can move
    and neither call returns. *)
Theorem flush_deadlocks_with_rotation tid message s :
  target_has_file (log_target s) = true ->
  log_file s = true ->
  needsRotation (write_targets message s) = true ->
  level_lt INFO (current_log_level s) = false ->
  flush_wait_pred s = true ->
  exists y,
    lsteps tid (mkSys s None None (WEnter message) FEnter) y /\
    blocked tid y /\
    (exists r, writer y = WPush r) /\
    flusher y = FLockLog /\
    log_mutex y = Some Worker /\
    queue_mutex y = Some Flusher.
Proof.
  intros Hf Ho Hrot Hlt Hpred.
  assert (Hl3 : level_lt INFO
                  (current_log_level (rotate_reopen (write_targets message s))) = false).
  { by rewrite rotate_reopen_level, write_targets_level. }
  exists (mkSys (snd (read_clock (rotate_reopen (write_targets message s))))
            (Some Flusher) (Some Worker)
            (WPush (formatLogMessage
                      (fst (read_clock (rotate_reopen (write_targets message s))))
                      tid INFO "LOGGER" "Log file rotated")) FLockLog).
  split.
  { eapply lsteps_step; [apply lstep_writer; reflexivity|].
    eapply lsteps_step; [apply lstep_flusher; reflexivity|].
    eapply lsteps_step.
    { apply lstep_flusher. unfold flusher_step.
      cbn [flusher engine queue_mutex log_mutex writer]. rewrite Hpred. reflexivity. }
    eapply lsteps_step.
    { apply lstep_writer. unfold writer_step.
      cbn [flusher engine queue_mutex log_mutex writer].
      rewrite Hf, Ho, Hrot. reflexivity. }
    eapply lsteps_step; [|apply lsteps_refl].
    apply lstep_writer. unfold writer_step.
    cbn [flusher engine queue_mutex log_mutex writer].
    rewrite Hl3. reflexivity. }
  split; [|split; [by eexists | done]].
  intros y' Hstep. by inversion Hstep.
Qed.

Lemma flush_deadlocks_with_rotation_witness :
  target_has_file (log_target last_record_engine) = true /\
  log_file last_record_engine = true /\
  needsRotation (write_targets last_record last_record_engine) = true /\
  level_lt INFO (current_log_level last_record_engine) = false /\
  flush_wait_pred last_record_engine = true /\
  in_flight last_record_engine = [last_record] /\
  exists y,
    lsteps "worker" (mkSys last_record_engine None None (WEnter last_record) FEnter) y /\
    blocked "worker" y.
Proof.
  assert (H1 : target_has_file (log_target last_record_engine) = true)
    by (vm_compute; reflexivity).
  assert (H2 : log_file last_record_engine = true) by (vm_compute; reflexivity).
  assert (H3 : needsRotation (write_targets last_record last_record_engine) = true)
    by (vm_compute; reflexivity).
  assert (H4 : level_lt INFO (current_log_level last_record_engine) = false)
    by (vm_compute; reflexivity).
  assert (H5 : flush_wait_pred last_record_engine = true) by (vm_compute; reflexivity).
  destruct (flush_deadlocks_with_rotation "worker" last_record last_record_engine
              H1 H2 H3 H4 H5) as (y & Hreach & Hblocked & _).
  split; [exact H1|]. split; [exact H2|]. split; [exact H3|]. split; [exact H4|].
  split; [exact H5|]. split; [vm_compute; reflexivity|].
  exists y. split; [exact Hreach | exact Hblocked].
Defined.

(** ** The only way to block *)

Lemma locks_inv_init s message : locks_inv s (mkSys s None None (WEnter message) FEnter).
Proof. unfold locks_inv. simpl. by split_and!. Qed.

Lemma locks_inv_step tid s y y' :
  locks_inv s y -> lstep tid y y' -> locks_inv s y'.
Proof.
  destruct y as [e q l w f]. unfold locks_inv.
  cbn [engine queue_mutex log_mutex writer flusher].
  intros (-> & -> & Hex & Hlv & Htg & Hw) Hstep.
  inversion Hstep as [? ? Hs | ? ? Hs | ? ? Hs]; subst; clear Hstep.
  - unfold writer_step in Hs.
    cbn [engine queue_mutex log_mutex writer flusher] in Hs.
    destruct w as [m | m | | r | | ].
    + destruct f; simpl in Hs; try discriminate; injection Hs as <-; simpl;
        split_and!; first [done | tauto].
    + destruct (target_has_file (log_target e) && log_file e &&
                needsRotation (write_targets m e)) eqn:Hrot;
        injection Hs as <-;
        cbn [engine queue_mutex log_mutex writer flusher];
        rewrite write_targets_level, write_targets_target.
      * apply andb_true_iff in Hrot as [Hrot _].
        apply andb_true_iff in Hrot as [Hrot _]. rewrite Htg in Hrot.
        destruct f; simpl in *; split_and!; first [done | tauto].
      * destruct f; simpl in *; split_and!; first [done | tauto].
    + destruct (level_lt INFO (current_log_level (rotate_reopen e))) eqn:Hlt;
        injection Hs as <-;
        cbn [engine queue_mutex log_mutex writer flusher read_clock
             current_log_level log_target set_world];
        rewrite rotate_reopen_level, rotate_reopen_target.
      * destruct f; simpl in *; split_and!; first [done | tauto].
      * rewrite rotate_reopen_level, Hlv in Hlt.
        destruct f; simpl in *; split_and!; first [done | tauto].
    + destruct f; simpl in Hs; try discriminate; injection Hs as <-; simpl;
        split_and!; first [done | tauto].
    + destruct (set_pc_frame PcInner e) as ((Ht' & _) & Hl' & _).
      destruct f; simpl in Hs; try discriminate; injection Hs as <-;
        cbn [engine queue_mutex log_mutex writer flusher];
        rewrite Hl', Ht'; simpl; split_and!; first [done | tauto].
    + discriminate.
  - unfold flusher_step in Hs.
    cbn [engine queue_mutex log_mutex writer flusher] in Hs.
    destruct f.
    + destruct w; simpl in Hs; try discriminate; injection Hs as <-; simpl in *;
        split_and!; first [done | tauto].
    + destruct (flush_wait_pred e); injection Hs as <-;
        destruct w; simpl in *; split_and!; first [done | tauto].
    + destruct w; simpl in Hs; try discriminate; injection Hs as <-; simpl in *;
        split_and!; first [done | tauto].
    + destruct w; simpl in Hs; try discriminate; injection Hs as <-; simpl in *;
        split_and!; first [done | tauto].
    + injection Hs as <-.
      assert (He : current_log_level
                     (if log_file e then emit [EFileFlush] e else e) =
                   current_log_level e /\
                   log_target (if log_file e then emit [EFileFlush] e else e) =
                   log_target e) by (by destruct (log_file e)).
      destruct He as [He1 He2].
      cbn [engine queue_mutex log_mutex writer flusher]. rewrite He1, He2.
      destruct w; simpl in *; split_and!; first [done | tauto].
    + discriminate.
  - unfold flusher_timeout in Hs.
    cbn [engine queue_mutex log_mutex writer flusher] in Hs.
    destruct f; try discriminate.
    destruct w; simpl in Hs; try discriminate; injection Hs as <-; simpl in *;
      split_and!; first [done | tauto].
Qed.

Lemma locks_inv_steps tid s y y' :
  lsteps tid y y' -> locks_inv s y -> locks_inv s y'.
Proof.
  induction 1 as [y | y1 y2 y3 Hstep _ IH]; [done|].
  intros Hinv. apply IH. by eapply locks_inv_step.
Qed.

Lemma blocked_shape tid s y :
  locks_inv s y -> blocked tid y ->
  writer y = WInner \/
  ((exists r, writer y = WPush r) /\ flusher y = FLockLog /\
   target_has_file (log_target s) = true /\
   level_lt INFO (current_log_level s) = false).
Proof.
  destruct y as [e q l w f]. unfold locks_inv, blocked.
  cbn [engine queue_mutex log_mutex writer flusher].
  intros (-> & -> & Hex & Hlv & Htg & Hw) Hblocked.
  assert (Hwriter : forall y', writer_step tid (mkSys e (queue_holder w f)
                       (log_holder w f) w f) = Some y' -> False).
  { intros y' Hs. apply (Hblocked y'). by apply lstep_writer. }
  assert (Hflusher : forall y', flusher_step (mkSys e (queue_holder w f)
                       (log_holder w f) w f) = Some y' -> False).
  { intros y' Hs. apply (Hblocked y'). by apply lstep_flusher. }
  unfold writer_step in Hwriter. unfold flusher_step in Hflusher.
  cbn [engine queue_mutex log_mutex writer flusher] in Hwriter, Hflusher.
  destruct w as [m | m | | r | | ].
  - exfalso. destruct f; simpl in *; try discriminate; try (by eapply Hwriter); by eapply Hflusher.
  - exfalso.
    destruct (target_has_file (log_target e) && log_file e &&
              needsRotation (write_targets m e)); by eapply Hwriter.
  - exfalso.
    destruct (level_lt INFO (current_log_level (rotate_reopen e))); by eapply Hwriter.
  - destruct f; simpl in *; try discriminate; try (exfalso; by eapply Hwriter); try done.
    + exfalso. destruct (flush_wait_pred e); by eapply Hflusher.
    + right. destruct Hw as [? ?]. split; [by eexists|]. by split_and!.
  - exfalso. destruct f; simpl in *; try discriminate; try (by eapply Hwriter); try (by eapply Hflusher).
    destruct (flush_wait_pred e); by eapply Hflusher.
  - by left.
Qed.

(** X19. That deadlock is the only way for the two threads to block
    before the worker is back at the inner loop condition: in every state
    they reach, if no thread can move while the worker is still inside
    [writeLogMessage], then the worker stands in [logMessage] and the other
    thread after [wait_for].  So with a target without file, or a threshold
    above INFO, the worker always gets through. *)
Theorem blocked_only_by_rotation_record tid message s y :
  lsteps tid (mkSys s None None (WEnter message) FEnter) y ->
  blocked tid y ->
  writer y = WInner \/
  ((exists r, writer y = WPush r) /\ flusher y = FLockLog /\
   target_has_file (log_target s) = true /\
   level_lt INFO (current_log_level s) = false).
Proof.
  intros Hreach Hblocked.
  apply (blocked_shape tid s y); [|exact Hblocked].
  eapply locks_inv_steps; [exact Hreach | apply locks_inv_init].
Qed.

Lemma blocked_only_by_rotation_record_witness :
  exists y,
    lsteps "worker" (mkSys console_engine None None (WEnter "m") FEnter) y /\
    blocked "worker" y /\
    writer y = WInner.
Proof.
  exists (writer_steps "worker" 3 (mkSys console_engine None None (WEnter "m") FEnter)).
  assert (Hreach : lsteps "worker" (mkSys console_engine None None (WEnter "m") FEnter)
                     (writer_steps "worker" 3
                        (mkSys console_engine None None (WEnter "m") FEnter))).
  { eapply lsteps_step; [apply lstep_writer; reflexivity|].
    eapply lsteps_step; [apply lstep_writer; vm_compute; reflexivity|].
    eapply lsteps_step; [apply lstep_writer; vm_compute; reflexivity|].
    vm_compute. apply lsteps_refl. }
  assert (Hblocked : blocked "worker"
            (writer_steps "worker" 3 (mkSys console_engine None None (WEnter "m") FEnter))).
  { intros y' Hstep. inversion Hstep as [? ? Hs | ? ? Hs | ? ? Hs]; subst;
      vm_compute in Hs; discriminate. }
  split; [exact Hreach|]. split; [exact Hblocked|].
  destruct (blocked_only_by_rotation_record "worker" "m" console_engine _ Hreach Hblocked)
    as [Hw | ((r & Hr) & _)]; [exact Hw|].
  vm_compute in Hr. discriminate.
Defined.

(** * The per-module front *)

(** X20. Whatever the threshold, a record logged through
    [ModuleLogger::critical] on an existing engine is queued, with the
    module name of the front: no threshold lies above CRITICAL.  With the
    threshold at CRITICAL the five other methods leave the engine as it
    is. *)
Theorem critical_is_never_filtered tid wid self message s :
  (exists s',
     ModuleLogger.critical tid wid self message (Engine s) = Some (Engine s') /\
     log_queue s' =
       log_queue s ++
       [formatLogMessage (clock (world s) (clock_reads (world s))) tid CRITICAL
          (ModuleLogger.module_name_ self) message]) /\
  (current_log_level s = CRITICAL ->
   ModuleLogger.trace tid wid self message (Engine s) = Some (Engine s) /\
   ModuleLogger.debug tid wid self message (Engine s) = Some (Engine s) /\
   ModuleLogger.info tid wid self message (Engine s) = Some (Engine s) /\
   ModuleLogger.warn tid wid self message (Engine s) = Some (Engine s) /\
   ModuleLogger.error tid wid self message (Engine s) = Some (Engine s)).
Proof.
  split.
  - eexists. split; [reflexivity|].
    rewrite logMessage_queue. unfold enqueued_by, record_of.
    by destruct (current_log_level s).
  - intros Hl.
    unfold ModuleLogger.trace, ModuleLogger.debug, ModuleLogger.info,
      ModuleLogger.warn, ModuleLogger.error, Logger_log.
    rewrite !logMessage_below by (by rewrite Hl). done.
Qed.

Lemma critical_is_never_filtered_witness :
  current_log_level (set_level CRITICAL console_engine) = CRITICAL /\
  ModuleLogger.error "main" "worker" (ModuleLogger.mk "APP") "lost"
    (Engine (set_level CRITICAL console_engine)) =
  Some (Engine (set_level CRITICAL console_engine)).
Proof.
  split; [reflexivity|].
  destruct (critical_is_never_filtered "main" "worker" (ModuleLogger.mk "APP") "lost"
              (set_level CRITICAL console_engine)) as [_ H].
  destruct (H eq_refl) as (_ & _ & _ & _ & He). exact He.
Defined.

(** * The fields of a record *)

Lemma pretty_below_1000 z :
  0 <= z < 1000 -> (String.length (pretty z) <= 3)%nat.
Proof.
  intros Hz.
  assert (Hall : forallb (fun n => String.length (pretty (Z.of_nat n)) <=? 3)%nat
                   (seq 0 1000) = true) by (vm_compute; reflexivity).
  rewrite forallb_forall in Hall.
  specialize (Hall (Z.to_nat z)).
  rewrite Z2Nat.id in Hall by lia.
  apply Nat.leb_le, Hall, in_seq. lia.
Qed.

(** X21. The fill character set for the milliseconds stays in force for
    the rest of the line: the level and the module are brought to their
    widths of 8 and 15 with zeros in front, never with spaces.  For a time
    at or after the epoch the milliseconds field is exactly three
    characters wide. *)
Theorem formatter_fill_is_sticky now tid level module message :
  0 <= since_epoch_ms now ->
  exists ms_field,
    String.length ms_field = 3%nat /\
    formatLogMessage now tid level module message =
      put_time (local_time now) +:+ "." +:+ ms_field +:+
      " [" +:+ tid +:+ "] [" +:+
      Stream.repeat_char (8 - String.length (logLevelToString level)) "0" +:+
      logLevelToString level +:+ "] [" +:+
      Stream.repeat_char (15 - String.length module) "0" +:+ module +:+
      "] " +:+ message.
Proof.
  intros Hnow.
  exists (Stream.pad "0" 3 (pretty (ms_count now))). split.
  - rewrite pad_length.
    assert (Hms : 0 <= ms_count now < 1000).
    { unfold ms_count. pose proof (Z.rem_bound_pos (since_epoch_ms now) 1000). lia. }
    pose proof (pretty_below_1000 _ Hms). lia.
  - rewrite formatLogMessage_unfold. unfold Stream.pad at 2 3.
    by rewrite !string_app_assoc.
Qed.

Lemma formatter_fill_is_sticky_witness :
  0 <= since_epoch_ms demo_now /\
  exists ms_field,
    String.length ms_field = 3%nat /\
    formatLogMessage demo_now "140" WARN "NET" "x" =
      put_time (local_time demo_now) +:+ "." +:+ ms_field +:+
      " [140] [0000WARN] [000000000000NET] x".
Proof.
  assert (H : 0 <= since_epoch_ms demo_now) by (vm_compute; discriminate).
  split; [exact H|].
  exact (formatter_fill_is_sticky demo_now "140" WARN "NET" "x" H).
Defined.
